(** * Corpus partitioning and sequence batching: a shallow embedding

  The development follows the two Python sources of the repository:

  - [splitting_data/split_data.py]: [split_words] (per-word quota
    computation) and [split_data] (streaming assignment of corpus rows to
    the test / validation / training subsets);
  - [train_forward.py]: [AccedingSequenceLengthBatchSampler],
    [pad_tensor] and [collate_batch_with_padding], the data loader built
    from them over a [ForwardDataset], and the schedule of
    [train_whole_dataset].

  Python integers are unbounded and are modelled by [Z]; a
  [collections.Counter] keyed by words is a [gmap string Z] whose lookup
  defaults to 0; data frames are lists of rows. *)

From Stdlib Require Import ZArith Lia.
From stdpp Require Import gmap strings list fin_maps sorting pretty.

Local Open Scope Z_scope.

(** ** [collections.Counter] *)

Module Counter.

(** [c[w]]: a missing key reads as 0 and is not inserted by the read. *)
Definition get (c : gmap string Z) (w : string) : Z := default 0 (c !! w).

(** [c[w] -= 1]: reads with the default, then stores. *)
Definition decr (c : gmap string Z) (w : string) : gmap string Z :=
  <[w := get c w - 1]> c.

(** Every stored count is at least 1 (the WordCount invariant of a
    counter that was produced by counting occurrences). *)
Definition positive (c : gmap string Z) : Prop :=
  map_Forall (λ _ n, 1 ≤ n) c.

End Counter.

(** ** The three subsets

    The sources keep three copies of every piece of state, one per subset
    ([test_words], [validation_words], [training_words]; [test_df], ...;
    [test_index], ...).  A [split A] holds the three copies. *)

Module Subsets.

Inductive subset := test | validation | training.

Global Instance subset_eq_dec : EqDecision subset.
Proof. solve_decision. Defined.

Record split (A : Type) := Split { on_test : A; on_validation : A; on_training : A }.
Global Arguments Split {A} _ _ _.
Global Arguments on_test {A} _.
Global Arguments on_validation {A} _.
Global Arguments on_training {A} _.

Definition sel {A} (k : subset) (s : split A) : A :=
  match k with
  | test => on_test s
  | validation => on_validation s
  | training => on_training s
  end.

Definition upd {A} (k : subset) (f : A → A) (s : split A) : split A :=
  match k with
  | test => Split (f (on_test s)) (on_validation s) (on_training s)
  | validation => Split (on_test s) (f (on_validation s)) (on_training s)
  | training => Split (on_test s) (on_validation s) (f (on_training s))
  end.

End Subsets.
Export Subsets.

(** ** [split_words]: correction of the raw counts and quota computation *)

Module WordQuota.

(** Body of both correction loops:
<<
    if word in words:
        words[word] -= 1
        if words[word] == 0:
            del words[word]
>> *)
Definition remove_one (words : gmap string Z) (word : string) : gmap string Z :=
  match words !! word with
  | Some _ =>
      let words := Counter.decr words word in
      if decide (Counter.get words word = 0) then delete word words else words
  | None => words
  end.

(** [for word in column: ...] over one correction list. *)
Definition remove_listed (column : list string) (words : gmap string Z)
  : gmap string Z :=
  foldl remove_one words column.

(** The incongruent list is applied first, the duplicate-vector list
    second. *)
Definition corrected_words (words : gmap string Z)
    (incongruent_words dublicate_vectors : list string) : gmap string Z :=
  remove_listed dublicate_vectors (remove_listed incongruent_words words).

(** [math.ceil(a / b)] for a positive divisor.  The source divides in
    floating point; for counts below 2^53 the result is the exact integer
    ceiling, which is what is modelled. *)
Definition ceil_div (a b : Z) : Z := - ((- a) / b).

Record quota := Quota { q_test : Z; q_validation : Z; q_training : Z }.

(** Body of the distribution loop for one word with count [c]; [None] is
    the [AssertionError] of the closing [assert]. *)
Definition word_quota (c : Z) : option quota :=
  let word_count := c in
  let ten_percent := ceil_div word_count 10 in
  let word_amount_for_test :=
    if decide (ten_percent > 1) then ten_percent else 1 in
  let word_count := word_count - word_amount_for_test in
  let word_amount_for_validation :=
    if decide (ten_percent < ceil_div word_count 2)
    then ten_percent else ceil_div word_count 2 in
  let word_count := word_count - word_amount_for_validation in
  if decide (word_count + word_amount_for_validation + word_amount_for_test = c)
  then Some (Quota word_amount_for_test word_amount_for_validation word_count)
  else None.

(** One iteration of [for word in words]; the accumulator holds
    [test_words], [validation_words] and [training_words]. *)
Definition distribute_step (word : string) (c : Z)
    (acc : option (split (gmap string Z))) : option (split (gmap string Z)) :=
  qs ← acc;
  q ← word_quota c;
  Some (Split (<[word := q_test q]> (on_test qs))
              (<[word := q_validation q]> (on_validation qs))
              (<[word := q_training q]> (on_training qs))).

Definition distribute (words : gmap string Z) : option (split (gmap string Z)) :=
  map_fold distribute_step (Some (Split ∅ ∅ ∅)) words.

(** [split_words] up to the point where the counters are pickled and
    handed over to [split_data]. *)
Definition split_words (words : gmap string Z)
    (incongruent_words dublicate_vectors : list string)
  : option (split (gmap string Z)) :=
  distribute (corrected_words words incongruent_words dublicate_vectors).

(** Number of times [word] is listed in a correction column. *)
Definition listed (word : string) (column : list string) : Z :=
  Z.of_nat (length (filter (λ w, w = word) column)).

End WordQuota.

(** ** Outcomes of the procedures that can raise *)

Module Outcome.

Inductive exn :=
| NotEnoughDiskSpaceError
| AssertionError
| IndexError
| ValueError
| ZeroDivisionError
| RuntimeError.

(** [Done a]: normal return.  [Raised e a]: exception [e] propagates; [a]
    is the state at the raise (what was written to disk stays written).
    [OutOfFuel]: the bound on loop iterations of the model was hit. *)
Inductive outcome (A : Type) :=
| Done (a : A)
| Raised (e : exn) (a : A)
| OutOfFuel.
Global Arguments Done {A} _.
Global Arguments Raised {A} _ _.
Global Arguments OutOfFuel {A}.

Definition bind {A} (m : outcome A) (k : A → outcome A) : outcome A :=
  match m with
  | Done a => k a
  | Raised e a => Raised e a
  | OutOfFuel => OutOfFuel
  end.

End Outcome.
Export Outcome.

Notation "x ←! m ; k" := (Outcome.bind m (λ x, k))
  (at level 20, m at level 100, k at level 200, only parsing, right associativity).

(** ** File names *)

Module FileName.

(** [strip_prefix p s]: the rest of [s] after the prefix [p], if [s]
    starts with [p]. *)
Fixpoint strip_prefix (p s : string) : option string :=
  match p, s with
  | EmptyString, _ => Some s
  | String a p', String b s' => if decide (a = b) then strip_prefix p' s' else None
  | String _ _, EmptyString => None
  end.

(** [s.startswith(p)] *)
Definition startswith (p s : string) : bool := bool_decide (is_Some (strip_prefix p s)).

(** [s.endswith(suffix)] *)
Fixpoint endswith (suffix s : string) : bool :=
  bool_decide (s = suffix) ||
  match s with
  | EmptyString => false
  | String _ s' => endswith suffix s'
  end.

(** The text of [s] before its first occurrence of ["df"] (all of [s] when
    there is none): [s.split("df")[0]]. *)
Fixpoint before_df (s : string) : string :=
  match s with
  | EmptyString => EmptyString
  | String c s' => if startswith "df" s then EmptyString else String c (before_df s')
  end.

(** The text of [s] after its first occurrence of ["df"], if there is one. *)
Fixpoint after_df (s : string) : option string :=
  match s with
  | EmptyString => None
  | String c s' =>
      match strip_prefix "df" s with
      | Some rest => Some rest
      | None => after_df s'
      end
  end.

(** [file.split("df")[1]]; [None] is the [IndexError] raised when the name
    has no ["df"] in it. *)
Definition unique_identifier (file : string) : option string :=
  before_df <$> after_df file.

(** The names the corpus ingestion step produces:
    [corpus_as_df_mp_epoch_<n>.pkl], [n] a decimal number. *)
Definition is_digit (c : Ascii.ascii) : bool :=
  bool_decide (48 ≤ Ascii.nat_of_ascii c ≤ 57)%nat.

Definition all_digits (n : string) : Prop :=
  Forall (λ c, is_digit c = true) (String.list_ascii_of_string n).

(** No character of [s] is the letter d. *)
Definition d_free (s : string) : Prop :=
  Forall (λ c, c ≠ Ascii.ascii_of_nat 100) (String.list_ascii_of_string s).

Definition shard_name (n : string) : string :=
  "corpus_as_df_mp_epoch_" +:+ n +:+ ".pkl".

End FileName.

(** ** [split_data]: streaming assignment of rows to the subsets *)

Module Partitioner.

Section WithRows.

(** The columns that are copied unchanged into the output shards
    ([cp_norm], [melspec_norm_recorded], [melspec_norm_synthesized],
    [vector]). *)
Context {Columns : Type}.

(** [split_utils.replace_special_chars] is imported by the source and is not
    part of it; [lower] is [str.lower]. *)
Variable replace_special_chars : string → string.
Variable lower : string → string.

(** A row of a source shard. *)
Record Row := mkRow {
  lexical_word : string;
  mfa_word : string;
  kept_columns : Columns
}.

(** A row of an output shard: the selected columns and the [origin]. *)
Record OutRow := mkOutRow {
  out_lexical_word : string;
  out_columns : Columns;
  origin : string * Z
}.

(** One entry of [sorted(os.listdir(data_path))]: the name, what
    [shutil.disk_usage] reports as free (in bytes) when the loop reaches the
    file, and what [pd.read_pickle] returns: [Some] rows with their index
    labels for a [DataFrame], [None] for anything else. *)
Record source_file := mkSource {
  file_name : string;
  disk_free : Z;
  data : option (list (Z * Row))
}.

(** Where a snapshot of the three counters is pickled: the working
    directory (periodic save) or the [*_counter_intermediates] directories
    (low disk space). *)
Inductive place := working_directory | counter_intermediates.

Record checkpoint := mkCheckpoint {
  cp_place : place;
  cp_i : Z;
  cp_words : split (gmap string Z)
}.

(** An output shard written by [to_pickle]:
    [<subset>_data_<language>_<index>.pkl] and its rows. *)
Record shard := mkShard {
  shard_subset : subset;
  shard_index : nat;
  shard_rows : list OutRow
}.

(** The variables of [split_data] and its effects on the disk (oldest write
    first).  [log_mismatch] and [log_dublicate] count the rows dropped by
    the two [continue] branches, each of which logs one line. *)
Record state := mkState {
  words : split (gmap string Z);
  df : split (list OutRow);
  index : split nat;
  i : Z;
  skip_index : Z;
  shards_written : list shard;
  checkpoints : list checkpoint;
  log_mismatch : nat;
  log_dublicate : nat
}.

Definition set_words (f : split (gmap string Z) → split (gmap string Z)) (s : state) : state :=
  mkState (f (words s)) (df s) (index s) (i s) (skip_index s)
          (shards_written s) (checkpoints s) (log_mismatch s) (log_dublicate s).
Definition set_df (f : split (list OutRow) → split (list OutRow)) (s : state) : state :=
  mkState (words s) (f (df s)) (index s) (i s) (skip_index s)
          (shards_written s) (checkpoints s) (log_mismatch s) (log_dublicate s).
Definition set_index (f : split nat → split nat) (s : state) : state :=
  mkState (words s) (df s) (f (index s)) (i s) (skip_index s)
          (shards_written s) (checkpoints s) (log_mismatch s) (log_dublicate s).
Definition set_i (n : Z) (s : state) : state :=
  mkState (words s) (df s) (index s) n (skip_index s)
          (shards_written s) (checkpoints s) (log_mismatch s) (log_dublicate s).
Definition set_skip_index (n : Z) (s : state) : state :=
  mkState (words s) (df s) (index s) (i s) n
          (shards_written s) (checkpoints s) (log_mismatch s) (log_dublicate s).
Definition to_pickle (k : subset) (idx : nat) (rows : list OutRow) (s : state) : state :=
  mkState (words s) (df s) (index s) (i s) (skip_index s)
          (shards_written s ++ [mkShard k idx rows]) (checkpoints s)
          (log_mismatch s) (log_dublicate s).
Definition dump_words (p : place) (s : state) : state :=
  mkState (words s) (df s) (index s) (i s) (skip_index s)
          (shards_written s) (checkpoints s ++ [mkCheckpoint p (i s) (words s)])
          (log_mismatch s) (log_dublicate s).
Definition warn_mismatch (s : state) : state :=
  mkState (words s) (df s) (index s) (i s) (skip_index s)
          (shards_written s) (checkpoints s) (S (log_mismatch s)) (log_dublicate s).
Definition info_dublicate (s : state) : state :=
  mkState (words s) (df s) (index s) (i s) (skip_index s)
          (shards_written s) (checkpoints s) (log_mismatch s) (S (log_dublicate s)).

(** The duplicate-vector table after [dropna]: index label and
    [lexical_word] of each remaining line.
<<
    mask = dublicate_vectors["lexical_word"] == cleaned_word
    row_with_dublicate_vector = dublicate_vectors[mask]
    len(row_with_dublicate_vector) > 0 and i in row_with_dublicate_vector.index
>> *)
Definition has_dublicate_vector (dublicate_vectors : list (Z * string))
    (cleaned_word : string) (i : Z) : bool :=
  let row_with_dublicate_vector :=
    filter (λ line, line.2 = cleaned_word) dublicate_vectors in
  bool_decide (0 < length row_with_dublicate_vector)%nat
  && bool_decide (i ∈ row_with_dublicate_vector.*1).

(** Body of [for i, row in data.iterrows()].  The accumulator is the state
    together with [test_rows], [validation_rows], [training_rows]. *)
Definition row_step (unique_identifier : string)
    (dublicate_vectors : list (Z * string))
    (acc : state * split (list OutRow)) (entry : Z * Row)
  : state * split (list OutRow) :=
  let '(s, rows) := acc in
  let '(i, row) := entry in
  let s := set_i i s in
  let word := lexical_word row in
  let cleaned_word := lower (replace_special_chars word) in
  let cleaned_mfa_word := lower (replace_special_chars (mfa_word row)) in
  if decide (cleaned_word ≠ cleaned_mfa_word) then (warn_mismatch s, rows)
  else if has_dublicate_vector dublicate_vectors cleaned_word i
  then (info_dublicate s, rows)
  else
    let row := mkOutRow word (kept_columns row) (unique_identifier, i) in
    if decide (Counter.get (on_test (words s)) word > 0) then
      (set_words (upd test (λ c, Counter.decr c word)) s,
       upd test (λ l, l ++ [row]) rows)
    else if decide (Counter.get (on_validation (words s)) word > 0) then
      (set_words (upd validation (λ c, Counter.decr c word)) s,
       upd validation (λ l, l ++ [row]) rows)
    else
      (set_words (upd training (λ c, Counter.decr c word)) s,
       upd training (λ l, l ++ [row]) rows).

(** One of the three [while <subset>_df_len >= data_size] loops. *)
Fixpoint flush (fuel : nat) (data_size : nat) (k : subset) (s : state)
  : outcome state :=
  if decide (data_size ≤ length (sel k (df s)))%nat then
    match fuel with
    | O => OutOfFuel
    | S fuel =>
        let old_len := length (sel k (df s)) in
        let df_i := take data_size (sel k (df s)) in
        let s := set_df (upd k (drop data_size)) s in
        let s := if decide (length df_i ≠ 0)%nat
                 then to_pickle k (sel k (index s)) df_i s else s in
        let s := set_index (upd k S) s in
        if decide (old_len = length (sel k (df s)) + data_size)%nat
        then flush fuel data_size k s
        else Raised AssertionError s
    end
  else Done s.

(** [pd.concat([<subset>_df, <subset>_df_i])] for the three subsets. *)
Definition concat_rows (rows : split (list OutRow)) (s : state) : state :=
  set_df (λ d, Split (on_test d ++ on_test rows)
                     (on_validation d ++ on_validation rows)
                     (on_training d ++ on_training rows)) s.

(** Body of [for file in tqdm(sorted_files)]. *)
Definition file_step (fuel data_size : nat)
    (dublicate_vectors : list (Z * string)) (s : state) (file : source_file)
  : outcome state :=
  if decide (skip_index s > 0) then Done (set_skip_index (skip_index s - 1) s)
  else if FileName.endswith ".pkl" (file_name file) then
    if decide (disk_free file `div` 2 ^ 30 < 25)
    then Raised NotEnoughDiskSpaceError (dump_words counter_intermediates s)
    else
      match data file with
      | Some data =>
          match FileName.unique_identifier (file_name file) with
          | None => Raised IndexError s
          | Some unique_identifier =>
              let '(s, rows) :=
                foldl (row_step unique_identifier dublicate_vectors)
                      (s, Split [] [] []) data in
              let s := concat_rows rows s in
              s ←! flush fuel data_size test s;
              s ←! flush fuel data_size validation s;
              s ←! flush fuel data_size training s;
              let s := if decide (i s `mod` 10 = 0)
                       then dump_words working_directory s else s in
              Done (set_i (i s + 1) s)
          end
      | None => Done s
      end
  else Done s.

Fixpoint file_loop (fuel data_size : nat)
    (dublicate_vectors : list (Z * string))
    (sorted_files : list source_file) (s : state) : outcome state :=
  match sorted_files with
  | [] => Done s
  | file :: sorted_files =>
      s ←! file_step fuel data_size dublicate_vectors s file;
      file_loop fuel data_size dublicate_vectors sorted_files s
  end.

(** The nested [split_and_save_dataframe], called once per subset after the
    loop over the files. *)
Definition split_and_save_dataframe (frame : list OutRow) (data_size : nat)
    (base_filename : subset) (index : nat) (s : state) : outcome state :=
  if decide (data_size = 0)%nat then Raised ZeroDivisionError s
  else
    let num_splits := ((length frame + data_size - 1) `div` data_size)%nat in
    Done (foldl (λ s j,
                   let chunk := take data_size (drop (j * data_size) frame) in
                   to_pickle base_filename (index + j) chunk s)
                s (seq 0 num_splits)).

Definition is_source_shard (file : source_file) : bool :=
  FileName.startswith "corpus_as_df_mp_epoch_" (file_name file)
  && FileName.endswith ".pkl" (file_name file).

Definition initial_state (skip_index : Z) (words : split (gmap string Z)) : state :=
  mkState words (Split [] [] []) (Split 0 0 0)%nat 0 skip_index [] [] 0%nat 0%nat.

(** [split_data].  [listing] is [sorted(os.listdir(data_path))]. *)
Definition split_data (fuel : nat) (listing : list source_file)
    (skip_index : Z) (test_words validation_words training_words : gmap string Z)
    (dublicate_vectors : list (Z * string)) (data_size : nat) : outcome state :=
  let sorted_files := filter (λ file, is_source_shard file = true) listing in
  s ←! file_loop fuel data_size dublicate_vectors sorted_files
         (initial_state skip_index
            (Split test_words validation_words training_words));
  s ←! split_and_save_dataframe (on_test (df s)) data_size test
         (on_test (index s)) s;
  s ←! split_and_save_dataframe (on_validation (df s)) data_size validation
         (on_validation (index s)) s;
  split_and_save_dataframe (on_training (df s)) data_size training
         (on_training (index s)) s.

(** *** Descriptions of a run, used to state its properties *)

(** The subset a surviving row of word [word] is routed to. *)
Definition route (words : split (gmap string Z)) (word : string) : subset :=
  if decide (Counter.get (on_test words) word > 0) then test
  else if decide (Counter.get (on_validation words) word > 0) then validation
  else training.

(** The rows routed so far in the current file. *)
Definition pending (rows : split (list OutRow)) : list OutRow :=
  on_test rows ++ on_validation rows ++ on_training rows.

Definition logged (s : state) : nat := (log_mismatch s + log_dublicate s)%nat.

(** A row passes both filters of the row loop. *)
Definition survives (dublicate_vectors : list (Z * string)) (entry : Z * Row)
  : bool :=
  let cleaned_word := lower (replace_special_chars (lexical_word entry.2)) in
  bool_decide (cleaned_word = lower (replace_special_chars (mfa_word entry.2)))
  && negb (has_dublicate_vector dublicate_vectors cleaned_word entry.1).

(** The output row made from a surviving row. *)
Definition out_row (unique_identifier : string) (entry : Z * Row) : OutRow :=
  mkOutRow (lexical_word entry.2) (kept_columns entry.2)
           (unique_identifier, entry.1).

(** The rows of a file the loop loads. *)
Definition rows_of_file (file : source_file) : list (Z * Row) :=
  default [] (data file).

(** The files the loop loads: all but the first [skip_index] ones. *)
Definition loaded_files (skip_index : Z) (sorted_files : list source_file)
  : list source_file :=
  drop (Z.to_nat skip_index) sorted_files.

Definition total_rows (files : list source_file) : nat :=
  sum_list ((λ file, length (rows_of_file file)) <$> files).

(** The rows of a loaded file that are assigned to a subset, and the
    number of those that are dropped. *)
Definition assigned_of (dublicate_vectors : list (Z * string))
    (file : source_file) : list OutRow :=
  match FileName.unique_identifier (file_name file) with
  | Some unique_identifier =>
      out_row unique_identifier
        <$> filter (λ entry, survives dublicate_vectors entry = true)
                   (rows_of_file file)
  | None => []
  end.

Definition dropped_of (dublicate_vectors : list (Z * string))
    (file : source_file) : nat :=
  length (filter (λ entry, survives dublicate_vectors entry = false)
                 (rows_of_file file)).

(** The rows on disk, and the rows on disk or still buffered. *)
Definition rows_on_disk (s : state) : list OutRow :=
  mjoin (shard_rows <$> shards_written s).

Definition rows_held (s : state) : list OutRow :=
  rows_on_disk s ++ on_test (df s) ++ on_validation (df s) ++ on_training (df s).

(** The indices of the shards written for subset [k], oldest first. *)
Definition indices_written (k : subset) (s : state) : list nat :=
  shard_index <$> filter (λ sh, shard_subset sh = k) (shards_written s).

(** The first [n] full shards cut from [buffer], numbered from [idx]. *)
Definition full_shards (k : subset) (idx n data_size : nat)
    (buffer : list OutRow) : list shard :=
  (λ j, mkShard k (idx + j) (take data_size (drop (j * data_size) buffer)))
    <$> seq 0 n.

(** The state after [n] iterations of the [while] loop of subset [k]. *)
Definition flushed (k : subset) (n data_size : nat) (s : state) : state :=
  mkState (words s) (upd k (drop (n * data_size)) (df s))
          (upd k (λ idx, idx + n)%nat (index s)) (i s) (skip_index s)
          (shards_written s
           ++ full_shards k (sel k (index s)) n data_size (sel k (df s)))
          (checkpoints s) (log_mismatch s) (log_dublicate s).

(** What holds of the state between two source files: every shard written
    so far has between 1 and [data_size] rows, the shards of each subset are
    numbered 0, 1, 2, ... up to the subset's next index, and every buffer
    holds fewer than [data_size] rows. *)
Definition shard_ok (data_size : nat) (sh : shard) : Prop :=
  (1 ≤ length (shard_rows sh) ≤ data_size)%nat.

Definition shards_ok (data_size : nat) (s : state) : Prop :=
  Forall (shard_ok data_size) (shards_written s).

Definition indices_ok (s : state) : Prop :=
  ∀ k, indices_written k s = seq 0 (sel k (index s)).

Definition short (data_size : nat) (k : subset) (s : state) : Prop :=
  (length (sel k (df s)) < data_size)%nat.

Definition tidy (data_size : nat) (s : state) : Prop :=
  shards_ok data_size s ∧ indices_ok s ∧ ∀ k, short data_size k s.

(** The state after [split_and_save_dataframe] on a frame of fewer than
    [data_size] rows. *)
Definition saved (k : subset) (frame : list OutRow) (idx : nat) (s : state)
  : state :=
  match frame with
  | [] => s
  | _ :: _ => to_pickle k idx frame s
  end.

(** The source files a run loads. *)
Definition loaded_by (listing : list source_file) (skip_index : Z)
  : list source_file :=
  loaded_files skip_index (filter (λ file, is_source_shard file = true) listing).

(** There is room on the disk when [file] is reached. *)
Definition room (file : source_file) : Prop := 25 ≤ disk_free file `div` 2 ^ 30.

End WithRows.

Global Arguments Row : clear implicits.
Global Arguments OutRow : clear implicits.
Global Arguments source_file : clear implicits.
Global Arguments shard : clear implicits.
Global Arguments state : clear implicits.

End Partitioner.

(** ** Results of the pure procedures of [train_forward.py] *)

Module Result.

Inductive result (A : Type) :=
| Ok (a : A)
| Error (e : exn).
Global Arguments Ok {A} _.
Global Arguments Error {A} _.

Global Instance result_ret : MRet result := λ A a, Ok a.
Global Instance result_bind : MBind result := λ A B f m,
  match m with
  | Ok a => f a
  | Error e => Error e
  end.

End Result.
Export Result.

(** ** [AccedingSequenceLengthBatchSampler] *)

Module Sampler.

(** [list(range(0, stop, step))] for a positive [step]. *)
Definition range (stop step : nat) : list nat :=
  (λ k, k * step)%nat <$> seq 0 ((stop + step - 1) `div` step)%nat.

(** [[indices[i:i + batch_size] for i in range(0, len(indices), batch_size)]];
    [range] raises [ValueError] for a zero step and is empty for a negative
    one. *)
Definition batches_of (indices : list nat) (batch_size : Z)
  : result (list (list nat)) :=
  match batch_size with
  | Z0 => Error ValueError
  | Zneg _ => Ok []
  | Zpos _ =>
      let step := Z.to_nat batch_size in
      Ok ((λ i, take step (drop i indices)) <$> range (length indices) step)
  end.

Section WithArgsort.

(** [torch.argsort(torch.tensor(sizes)).tolist()].  [torch.argsort] is not
    stable by default: the order it gives to examples of equal length is
    left open, so the sampler is parameterised by it. *)
Variable argsort : list nat → list nat.

(** [__init__]: [self.sizes = [len(x) for x in data_source.cp_norm]] *)
Definition sizes_of {CP : Type} (cp_norm : list (list CP)) : list nat :=
  length <$> cp_norm.

(** [__iter__]: the batches it yields, in order.  The generator raises
    before its first [yield] or not at all. *)
Definition iter (sizes : list nat) (batch_size : Z) (drop_last : bool)
  : result (list (list nat)) :=
  let indices := argsort sizes in
  batches ← batches_of indices batch_size;
  if drop_last then
    match last batches with
    | None => Error IndexError
    | Some final =>
        if decide (Z.of_nat (length final) < batch_size)
        then Ok (removelast batches)
        else Ok batches
    end
  else Ok batches.

End WithArgsort.

(** [__len__] *)
Definition len (sizes : list nat) (batch_size : Z) (drop_last : bool) : result Z :=
  if decide (batch_size = 0) then Error ZeroDivisionError
  else if drop_last then Ok (Z.of_nat (length sizes) `div` batch_size)
  else Ok ((Z.of_nat (length sizes) + batch_size - 1) `div` batch_size).

(** What [argsort] is known to return: the indices [0 .. n-1], each once,
    in an order in which the sizes do not decrease. *)
Definition size_at (sizes : list nat) (i : nat) : nat := default 0%nat (sizes !! i).

Definition is_argsort (argsort : list nat → list nat) : Prop :=
  ∀ sizes,
    argsort sizes ≡ₚ seq 0 (length sizes) ∧
    StronglySorted (λ i j, size_at sizes i ≤ size_at sizes j)%nat (argsort sizes).

(** A stable argsort, by insertion; one function that [is_argsort]. *)
Fixpoint insert_by (sizes : list nat) (i : nat) (sorted : list nat) : list nat :=
  match sorted with
  | [] => [i]
  | j :: rest =>
      if decide (size_at sizes i ≤ size_at sizes j)%nat
      then i :: sorted
      else j :: insert_by sizes i rest
  end.

Definition stable_argsort (sizes : list nat) : list nat :=
  foldr (insert_by sizes) [] (seq 0 (length sizes)).

(** The specification's description of the batches: the sorted index list
    cut into contiguous chunks of [n] indices, the last one possibly
    shorter ... *)
Fixpoint chunks_upto (fuel n : nat) (l : list nat) : list (list nat) :=
  match fuel, l with
  | O, _ => []
  | _, [] => []
  | S fuel, _ :: _ => take n l :: chunks_upto fuel n (drop n l)
  end.

Definition chunks (n : nat) (l : list nat) : list (list nat) :=
  chunks_upto (length l) n l.

(** ... and a short final chunk discarded when [drop_last] is set. *)
Definition described_batches (n : nat) (drop_last : bool) (sorted : list nat)
  : list (list nat) :=
  let cs := chunks n sorted in
  if drop_last then
    match last cs with
    | Some final => if decide (length final < n)%nat then removelast cs else cs
    | None => cs
    end
  else cs.

End Sampler.

(** ** [pad_tensor] and [collate_batch_with_padding] *)

Module Collate.

(** A tensor is the list of its timesteps (its first dimension). *)
Definition pad_tensor {T : Type} (tensor : list T) (target_length : nat)
    (allow_longer : bool) : result (list T * list bool) :=
  let current_length := length tensor in
  if bool_decide (target_length < current_length)%nat && negb allow_longer
  then Error ValueError
  else if decide (current_length = target_length)
  then Ok (tensor, replicate target_length true)
  else
    match last tensor with
    | None => Error IndexError
    | Some last_element =>
        if decide (target_length < current_length)%nat
        then Error RuntimeError
        else
          let padding := replicate (target_length - current_length) last_element in
          let mask := replicate current_length true
                      ++ replicate (target_length - current_length) false in
          Ok (tensor ++ padding, mask)
    end.

(** [max(...)] over a generator: [ValueError] when it is empty. *)
Definition max_of (l : list nat) : result nat :=
  match l with
  | [] => Error ValueError
  | x :: l => Ok (foldl Nat.max x l)
  end.

(** [torch.stack]: the tensors must be at least one and of one shape. *)
Definition stack {T : Type} (tensors : list (list T)) : result (list (list T)) :=
  match tensors with
  | [] => Error RuntimeError
  | t :: ts =>
      if forallb (λ u, bool_decide (length u = length t)) ts
      then Ok tensors else Error RuntimeError
  end.

(** A sequence padded to [target_length] with copies of its last timestep,
    and the validity mask of a sequence of [n] timesteps padded to
    [target_length]. *)
Definition padded {T : Type} (target_length : nat) (tensor : list T) : list T :=
  match last tensor with
  | Some last_element =>
      tensor ++ replicate (target_length - length tensor) last_element
  | None => tensor
  end.

Definition validity (target_length n : nat) : list bool :=
  replicate n true ++ replicate (target_length - n) false.

Section WithTimesteps.

(** One timestep of an articulatory trajectory and of a spectrogram. *)
Context {CP MEL : Type}.

(** The three lists built by the loop. *)
Record locals := mkLocals {
  padded_cps : list (list CP);
  padded_melspecs : list (list MEL);
  mask : list (list bool)
}.

(** Body of [for sample in batch]. *)
Definition collate_step (max_length_cps max_length_melspecs : nat)
    (acc : result locals) (sample : list CP * list MEL) : result locals :=
  l ← acc;
  '(padded_melspec, sample_mask) ← pad_tensor sample.2 max_length_melspecs false;
  '(padded_cp, _) ← pad_tensor sample.1 max_length_cps false;
  if decide (length padded_cp = length padded_melspec * 2)%nat
  then Ok (mkLocals (padded_cps l ++ [padded_cp])
                    (padded_melspecs l ++ [padded_melspec])
                    (mask l ++ [sample_mask]))
  else Error AssertionError.

(** [collate_batch_with_padding] up to its [return]: the local lists. *)
Definition collate_locals (batch : list (list CP * list MEL)) : result locals :=
  max_length_cps ← max_of ((λ sample, length sample.1) <$> batch);
  let max_length_melspecs := (max_length_cps `div` 2)%nat in
  foldl (collate_step max_length_cps max_length_melspecs)
        (Ok (mkLocals [] [] [])) batch.

(** [collate_batch_with_padding]: the two stacked tensors; [mask] is not
    returned. *)
Definition collate_batch_with_padding (batch : list (list CP * list MEL))
  : result (list (list CP) * list (list MEL)) :=
  l ← collate_locals batch;
  cps ← stack (padded_cps l);
  melspecs ← stack (padded_melspecs l);
  Ok (cps, melspecs).

End WithTimesteps.

Global Arguments locals : clear implicits.

End Collate.

(** ** [ForwardDataset] and the data loader of [train_forward_on_one_df] *)

Module Loader.

Section WithTimesteps.

Context {CP MEL : Type}.

(** [ForwardDataset]: the lists made in [__init__] from the columns
    [cp_norm] and [melspec_norm_synthesized] of the frame. *)
Record ForwardDataset := mkDataset {
  cp_norm : list (list CP);
  melspecs : list (list MEL)
}.

(** [ForwardDataset(df)], a row of [df] being the pair of its [cp_norm] and
    [melspec_norm_synthesized]. *)
Definition from_frame (df : list (list CP * list MEL)) : ForwardDataset :=
  mkDataset (df.*1) (df.*2).

(** [__getitem__] at an index that is not negative:
    [self.cp_norm[idx], self.melspecs[idx]]. *)
Definition getitem (dataset : ForwardDataset) (idx : nat)
  : result (list CP * list MEL) :=
  match cp_norm dataset !! idx with
  | Some cp =>
      match melspecs dataset !! idx with
      | Some melspec => Ok (cp, melspec)
      | None => Error IndexError
      end
  | None => Error IndexError
  end.

(** What the [DataLoader] does with one batch of indices:
    [collate_fn([dataset[idx] for idx in batch])]. *)
Definition fetch (dataset : ForwardDataset) (batch : list nat)
  : result (list (list CP) * list (list MEL)) :=
  samples ← mapM (getitem dataset) batch;
  Collate.collate_batch_with_padding samples.

(** The batches [iter(dataloader)] goes through, for
<<
    sampler = AccedingSequenceLengthBatchSampler(dataset, batch_size)
    dataloader = DataLoader(dataset, batch_sampler=sampler,
                            collate_fn=collate_batch_with_padding)
>>
    The result is an error when the sampler or the fetch of some batch
    raises. *)
Definition dataloader (argsort : list nat → list nat)
    (dataset : ForwardDataset) (batch_size : Z)
  : result (list (list (list CP) * list (list MEL))) :=
  batches ← Sampler.iter argsort (Sampler.sizes_of (cp_norm dataset))
                         batch_size false;
  mapM (fetch dataset) batches.

End WithTimesteps.

Global Arguments ForwardDataset : clear implicits.

End Loader.

(** ** [split_words]: the report printed before the counters are saved *)

Module Report.

Import WordQuota.

(** [c.total()]: the sum of the stored counts. *)
Definition total (c : gmap string Z) : Z :=
  map_fold (λ _ n acc, n + acc) 0 c.

(** [split_words] up to the same point as [WordQuota.split_words], with the
    report it prints on the way:
<<
    print(test_words.total() / words.total(), ...)
>>
    The true division raises [ZeroDivisionError] for a zero total. *)
Definition split_words_checked (words : gmap string Z)
    (incongruent_words dublicate_vectors : list string)
  : result (split (gmap string Z)) :=
  let words := corrected_words words incongruent_words dublicate_vectors in
  match distribute words with
  | None => Error AssertionError
  | Some qs =>
      if decide (total words = 0) then Error ZeroDivisionError else Ok qs
  end.

End Report.

(** ** [split_data]: the rows of each subset as one stream *)

Module Streams.

Section WithRows.

Import Partitioner.

Context {Columns : Type}.

(** The shards written for subset [k], oldest first, and their rows. *)
Definition shards_of (k : subset) (s : state Columns) : list (shard Columns) :=
  filter (λ sh, shard_subset sh = k) (shards_written s).

Definition disk_rows (k : subset) (s : state Columns) : list (OutRow Columns) :=
  mjoin (shard_rows <$> shards_of k s).

(** The rows of subset [k] that are on disk or still buffered. *)
Definition subset_rows (k : subset) (s : state Columns) : list (OutRow Columns) :=
  disk_rows k s ++ sel k (df s).

(** Number of rows of word [word]. *)
Definition occurrences (word : string) (rows : list (OutRow Columns)) : Z :=
  Z.of_nat (length (filter (λ r, out_lexical_word r = word) rows)).

(** The end of the body of the loop over the files:
<<
    if i % 10 == 0:
        ... pickle.dump(...) ...
    i += 1
>> *)
Definition close_file (s : state Columns) : state Columns :=
  let s := if decide (i s `mod` 10 = 0)
           then dump_words working_directory s else s in
  set_i (i s + 1) s.

(** Routing a stream of output rows one by one by the quota rule of the row
    loop, without files, buffers or shards. *)
Definition assign_step
    (acc : split (gmap string Z) * split (list (OutRow Columns)))
    (r : OutRow Columns)
  : split (gmap string Z) * split (list (OutRow Columns)) :=
  let k := route acc.1 (out_lexical_word r) in
  (upd k (λ c, Counter.decr c (out_lexical_word r)) acc.1,
   upd k (λ l, l ++ [r]) acc.2).

Definition assign (words : split (gmap string Z))
    (stream : list (OutRow Columns))
  : split (gmap string Z) * split (list (OutRow Columns)) :=
  foldl assign_step (words, Split [] [] []) stream.

(** A list of rows cut into shards of [data_size] rows, the last one
    possibly shorter, numbered from 0. *)
Definition chunks_of (k : subset) (data_size : nat)
    (rows : list (OutRow Columns)) : list (shard Columns) :=
  full_shards k 0 ((length rows + data_size - 1) `div` data_size)
              data_size rows.

(** The state after the three [while] loops of one file, and after the
    three final calls of [split_and_save_dataframe]. *)
Definition flushed_all (n1 n2 n3 data_size : nat) (s : state Columns)
  : state Columns :=
  flushed training n3 data_size
    (flushed validation n2 data_size (flushed test n1 data_size s)).

Definition fits (k : subset) (n data_size : nat) (s : state Columns) : Prop :=
  (n * data_size ≤ length (sel k (df s)) < n * data_size + data_size)%nat.

Definition saved_all (s : state Columns) : state Columns :=
  saved training (on_training (df s)) (on_training (index s))
    (saved validation (on_validation (df s)) (on_validation (index s))
       (saved test (on_test (df s)) (on_test (index s)) s)).

(** Between two source files the shards of subset [k] are the first
    [index] chunks of the subset's rows. *)
Definition chunked (data_size : nat) (k : subset) (s : state Columns) : Prop :=
  shards_of k s = full_shards k 0 (sel k (index s)) data_size (subset_rows k s) ∧
  length (disk_rows k s) = (sel k (index s) * data_size)%nat.

(** The index label of the last row of a source file, if it is a data
    frame with at least one row. *)
Definition last_label (file : source_file Columns) : option Z :=
  frame ← data file; fst <$> last frame.

End WithRows.

End Streams.

(** ** The names of the files written and read *)

Module Names.

Import FileName.

(** The output shards of [split_data]:
    [f"test_data_{language}_{test_index}.pkl"] in the [while] loops and
    [f"{base_filename}_{language}_{index + j}.pkl"] in
    [split_and_save_dataframe] (where the language ["no_language_provided"]
    is replaced by the empty string), written into [data_path]. *)
Definition base_filename (k : subset) : string :=
  match k with
  | test => "test_data"
  | validation => "validation_data"
  | training => "training_data"
  end.

Definition output_name (k : subset) (language : string) (index : nat) : string :=
  base_filename k +:+ "_" +:+ language +:+ "_" +:+ pretty index +:+ ".pkl".

(** The two filters of [train_whole_dataset] on the names of its
    [data_path]. *)
Definition is_training_file (file : string) : bool :=
  startswith "training_" file && endswith ".pkl" file.

Definition is_validation_file (file : string) : bool :=
  startswith "validation_" file && endswith ".pkl" file.

(** The files of the counters.  [split_words] writes
    [f"test_words_{language}.pkl"], the periodic save and the save on low
    disk space of [split_data] write [f"test_words_{i}_{language}.pkl"],
    and the main program reads the paths of its [else] branch. *)
Definition counter_name (k : subset) : string :=
  match k with
  | test => "test_words"
  | validation => "validation_words"
  | training => "training_words"
  end.

Definition initial_path (k : subset) (language : string) : string :=
  counter_name k +:+ "_" +:+ language +:+ ".pkl".

Definition checkpoint_path (k : subset) (i : Z) (language : string) : string :=
  counter_name k +:+ "_" +:+ pretty i +:+ "_" +:+ language +:+ ".pkl".

Definition resume_path (k : subset) (skip_index : Z) (language : string)
  : string :=
  match k with
  | test =>
      if decide (skip_index = 0) then "test_words_" +:+ language +:+ ".pkl"
      else "test_words_" +:+ pretty skip_index +:+ "_" +:+ language +:+ ".pkl"
  | validation =>
      if decide (skip_index = 0)
      then "validation_words_" +:+ language +:+ ".pkl"
      else "validation_words__" +:+ pretty skip_index +:+ "_" +:+ language
           +:+ ".pkl"
  | training =>
      if decide (skip_index = 0) then "training_words_" +:+ language +:+ ".pkl"
      else "training_words_" +:+ pretty skip_index +:+ "_" +:+ language
           +:+ ".pkl"
  end.

End Names.

(** ** [train_whole_dataset]: the schedule of a run *)

Module Trainer.

Import Names.

(** The calls a run makes, in order: [train_forward_on_one_df] on a file,
    [validate_whole_dataset] on the validation files, and the block that
    saves the model together with the validation losses, the epoch and the
    [skip_index] then in force.  What the calls do to the model is not
    described; the schedule is that of a run in which they return. *)
Inductive event :=
| Train (epoch : nat) (file : string)
| Validate (epoch : nat) (files : list string)
| Save (epoch : nat) (skip_index : Z).

Record progress := mkProgress {
  filtered_files : list string;
  skip_index : Z;
  trace : list event
}.

Section WithShuffle.

(** [np.random.shuffle(filtered_files)] in a given epoch; it reorders the
    list in place, so each epoch shuffles the order left by the previous
    one. *)
Variable shuffle : nat → list string → list string.

(** Body of [for i, file in enumerate(shuffeled_files)]. *)
Definition train_step (epoch : nat) (skip_index : Z) (trace : list event)
    (entry : nat * string) : list event :=
  let '(i, file) := entry in
  if decide (Z.of_nat i < skip_index) then trace
  else trace ++ [Train epoch file].

(** Body of [for epoch in tqdm(range(epochs))]. *)
Definition epoch_step (epochs validate_every save_every : Z)
    (validation_files : list string) (s : result progress) (epoch : nat)
  : result progress :=
  s ← s;
  let shuffeled_files := shuffle epoch (filtered_files s) in
  let trace :=
    foldl (train_step epoch (skip_index s)) (trace s)
          (imap pair shuffeled_files) in
  trace ←
    (if decide (validate_every = 0) then Error ZeroDivisionError
     else if decide (Z.of_nat epoch `mod` validate_every = 0)
     then Ok (trace ++ [Validate epoch validation_files])
     else Ok trace);
  trace ←
    (if decide (save_every = 0) then Error ZeroDivisionError
     else if decide (Z.of_nat epoch `mod` save_every = 0
                     ∨ Z.of_nat epoch = epochs - 1)
     then Ok (trace ++ [Save epoch (skip_index s)])
     else Ok trace);
  Ok (mkProgress shuffeled_files 0 trace).

(** [train_whole_dataset]; [files] is [os.listdir(data_path)]. *)
Definition train_whole_dataset (files : list string)
    (epochs skip_index validate_every save_every : Z) : result (list event) :=
  let filtered_files := filter (λ file, is_training_file file = true) files in
  let validation_files := filter (λ file, is_validation_file file = true) files in
  s ← foldl (epoch_step epochs validate_every save_every validation_files)
            (Ok (mkProgress filtered_files skip_index []))
            (seq 0 (Z.to_nat epochs));
  Ok (trace s).

End WithShuffle.

(** The files trained on in an epoch, in order. *)
Definition trained_in (epoch : nat) (trace : list event) : list string :=
  omap (λ ev, match ev with
              | Train e file => if decide (e = epoch) then Some file else None
              | _ => None
              end) trace.

Definition epoch_of (ev : event) : nat :=
  match ev with
  | Train e _ | Validate e _ | Save e _ => e
  end.

End Trainer.

(** ** Sample inputs *)

Module Examples.

Import Partitioner.

Definition GiB : Z := 2 ^ 30.

(** A row whose two transcriptions agree. *)
Definition row (word : string) : Row unit := mkRow word word tt.

(** A source shard with three rows, labelled 0, 1, 2, read while 100 GiB
    are free. *)
Definition three_rows (n : string) : source_file unit :=
  mkSource (FileName.shard_name n) (100 * GiB)
           (Some [(0, row "a"); (1, row "b"); (2, row "a")]).

(** A source shard with a single row, labelled 0. *)
Definition one_row (n : string) (word : string) : source_file unit :=
  mkSource (FileName.shard_name n) (100 * GiB) (Some [(0, row word)]).

Definition twenty_shards : list (source_file unit) :=
  three_rows <$> ["00"; "01"; "02"; "03"; "04"; "05"; "06"; "07"; "08"; "09";
                  "10"; "11"; "12"; "13"; "14"; "15"; "16"; "17"; "18"; "19"].

(** A state whose test buffer holds three rows. *)
Definition out (word : string) (label : Z) : OutRow unit :=
  mkOutRow word tt ("_mp_epoch_0.pkl", label).

Definition three_buffered : state unit :=
  mkState (Split ∅ ∅ ∅) (Split [out "a" 0; out "b" 1; out "a" 2] [] [])
          (Split 4 0 0)%nat 2 0 [] [] 0%nat 0%nat.

(** A directory with three source shards (one of them not a data frame),
    a file of another kind, a row whose transcriptions disagree, and a
    duplicate-vector table that lists the word "b" at label 1. *)
Definition mixed_listing : list (source_file unit) :=
  [ three_rows "0";
    mkSource (FileName.shard_name "1") (100 * GiB)
             (Some [(0, mkRow "a" "b" tt); (1, row "b"); (2, row "c")]);
    mkSource (FileName.shard_name "2") (100 * GiB) None;
    mkSource "notes.txt" (100 * GiB) (Some [(0, row "a")]) ].

Definition mixed_dublicates : list (Z * string) := [(1, "b")].

(** Neither text function changes a word. *)
Definition keep (s : string) : string := s.

(** Paired sequences with [2 * n] articulatory and [n] spectrogram
    timesteps. *)
Definition sample (n : nat) : list nat * list nat :=
  (seq 0 (2 * n), seq 100 n).

End Examples.

(** ** Further sample inputs *)

Module MoreExamples.

Import Partitioner Examples.

(** Two source shards whose last rows are labelled 10 and 2. *)
Definition labelled_listing : list (source_file unit) :=
  [ mkSource (FileName.shard_name "0") (100 * GiB)
             (Some [(9, row "a"); (10, row "b")]);
    three_rows "1" ].



(** A source shard in which two rows carry the index label 0. *)
Definition repeated_labels : source_file unit :=
  mkSource (FileName.shard_name "0") (100 * GiB)
           (Some [(0, row "a"); (0, row "b")]).

(** Two source shards of different names around whose first ["df"] the same
    text stands. *)
Definition colliding_names : list (source_file unit) :=
  [ one_row "0" "a";
    mkSource "corpus_as_df_mp_epoch_0.pkldf.pkl" (100 * GiB)
             (Some [(0, row "b")]) ].

(** The names of a directory with two training shards, a validation shard
    and a file of another kind. *)
Definition shard_directory : list string :=
  [ "training_data_de_0.pkl"; "validation_data_de_0.pkl";
    "training_data_de_1.pkl"; "notes.txt" ].

(** A shuffle that reverses the list. *)
Definition reversing (epoch : nat) (files : list string) : list string :=
  reverse files.

End MoreExamples.

(** * Properties *)

(** ** Counters *)

Section CounterFacts.

Implicit Types (c : gmap string Z) (w : string).

Lemma get_decr_eq c w : Counter.get (Counter.decr c w) w = Counter.get c w - 1.
Proof. unfold Counter.get, Counter.decr. by rewrite lookup_insert_eq. Qed.

Lemma get_decr_ne c w w' :
  w ≠ w' → Counter.get (Counter.decr c w) w' = Counter.get c w'.
Proof. intros Hne. unfold Counter.get, Counter.decr. by rewrite lookup_insert_ne. Qed.

Lemma get_present c w n : c !! w = Some n → Counter.get c w = n.
Proof. unfold Counter.get. by intros ->. Qed.

Lemma get_absent c w : c !! w = None → Counter.get c w = 0.
Proof. unfold Counter.get. by intros ->. Qed.

Lemma positive_lookup c w n : Counter.positive c → c !! w = Some n → 1 ≤ n.
Proof. intros Hpos E. exact (Hpos w n E). Qed.

Lemma positive_get_nonneg c w : Counter.positive c → 0 ≤ Counter.get c w.
Proof.
  intros Hpos. unfold Counter.get.
  destruct (c !! w) as [n|] eqn:E; simpl; [|lia].
  pose proof (positive_lookup _ _ _ Hpos E). lia.
Qed.

Lemma positive_absent c w :
  Counter.positive c → (c !! w = None ↔ Counter.get c w = 0).
Proof.
  intros Hpos. split; [apply get_absent|].
  unfold Counter.get. destruct (c !! w) as [n|] eqn:E; [|done].
  pose proof (positive_lookup _ _ _ Hpos E). simpl. lia.
Qed.

End CounterFacts.

(** ** [split_words] *)

Section WordQuotaFacts.

Import WordQuota.

Implicit Types (words : gmap string Z) (word : string).

Lemma remove_one_absent words word :
  words !! word = None → remove_one words word = words.
Proof. unfold remove_one. by intros ->. Qed.

Lemma remove_one_last words word :
  words !! word = Some 1 → remove_one words word = delete word words.
Proof.
  intros E. unfold remove_one. rewrite E, get_decr_eq, (get_present _ _ _ E).
  simpl. unfold Counter.decr. by rewrite delete_insert_eq.
Qed.

Lemma remove_one_more words word n :
  words !! word = Some n → n ≠ 1 → remove_one words word = <[word := n - 1]> words.
Proof.
  intros E Hn. unfold remove_one. rewrite E, get_decr_eq, (get_present _ _ _ E).
  destruct (decide (n - 1 = 0)); [lia|].
  unfold Counter.decr. by rewrite (get_present _ _ _ E).
Qed.

Lemma remove_one_other words word word' :
  word ≠ word' → remove_one words word !! word' = words !! word'.
Proof.
  intros Hne. unfold remove_one.
  destruct (words !! word) as [n|] eqn:E; [|done].
  case_decide; unfold Counter.decr.
  - by rewrite lookup_delete_ne, lookup_insert_ne.
  - by rewrite lookup_insert_ne.
Qed.

Lemma remove_one_positive words word :
  Counter.positive words → Counter.positive (remove_one words word).
Proof.
  intros Hpos w n. destruct (decide (word = w)) as [<-|Hne].
  - destruct (words !! word) as [m|] eqn:E.
    + destruct (decide (m = 1)) as [->|Hm].
      * rewrite (remove_one_last _ _ E), lookup_delete_eq. done.
      * rewrite (remove_one_more _ _ _ E Hm), lookup_insert_eq.
        intros [= <-]. pose proof (positive_lookup _ _ _ Hpos E). lia.
    + rewrite (remove_one_absent _ _ E), E. done.
  - rewrite (remove_one_other _ _ _ Hne). apply Hpos.
Qed.

Lemma remove_one_get words word :
  Counter.positive words →
  Counter.get (remove_one words word) word = Z.max 0 (Counter.get words word - 1).
Proof.
  intros Hpos. destruct (words !! word) as [m|] eqn:E.
  - rewrite (get_present _ _ _ E). destruct (decide (m = 1)) as [->|Hm].
    + rewrite (remove_one_last _ _ E). rewrite get_absent by apply lookup_delete_eq. lia.
    + rewrite (remove_one_more _ _ _ E Hm).
      rewrite (get_present _ _ (m - 1)) by apply lookup_insert_eq.
      pose proof (positive_lookup _ _ _ Hpos E). lia.
  - rewrite (remove_one_absent _ _ E), (get_absent _ _ E). lia.
Qed.

Lemma remove_one_get_other words word word' :
  word ≠ word' → Counter.get (remove_one words word) word' = Counter.get words word'.
Proof. intros Hne. unfold Counter.get. by rewrite remove_one_other. Qed.

Lemma listed_nil word : listed word [] = 0.
Proof. done. Qed.

Lemma listed_cons word w column :
  listed word (w :: column)
  = (if decide (w = word) then 1 else 0) + listed word column.
Proof.
  unfold listed. rewrite filter_cons. case_decide; simpl; lia.
Qed.

Lemma listed_nonneg word column : 0 ≤ listed word column.
Proof. unfold listed. lia. Qed.

Lemma remove_listed_positive column words :
  Counter.positive words → Counter.positive (remove_listed column words).
Proof.
  revert words. induction column as [|w column IH]; intros words Hpos; [done|].
  apply IH. by apply remove_one_positive.
Qed.

Lemma remove_listed_get column words word :
  Counter.positive words →
  Counter.get (remove_listed column words) word
  = Z.max 0 (Counter.get words word - listed word column).
Proof.
  revert words. induction column as [|w column IH]; intros words Hpos.
  - simpl. rewrite listed_nil. pose proof (positive_get_nonneg _ word Hpos). lia.
  - unfold remove_listed. simpl. fold (remove_listed column (remove_one words w)).
    rewrite IH by by apply remove_one_positive.
    rewrite listed_cons. pose proof (listed_nonneg word column).
    case_decide as Hw.
    + subst w. rewrite remove_one_get by done. lia.
    + rewrite remove_one_get_other by done. lia.
Qed.

End WordQuotaFacts.

Section QuotaFacts.

Import WordQuota.

(** The closing [assert] of the distribution loop cannot fail: the three
    amounts are obtained from the count by subtraction. *)
Lemma word_quota_total c : is_Some (word_quota c).
Proof.
  unfold word_quota. cbv zeta.
  match goal with |- context [decide (?a = c)] => destruct (decide (a = c)) as [|Hne] end.
  - eauto.
  - exfalso. apply Hne. lia.
Qed.

Lemma ceil_div_bounds a b :
  0 < b → b * (ceil_div a b - 1) < a ≤ b * ceil_div a b.
Proof.
  intros Hb. unfold ceil_div.
  pose proof (Z.div_mod (- a) b ltac:(lia)).
  pose proof (Z.mod_pos_bound (- a) b Hb). lia.
Qed.

Lemma word_quota_sound c q :
  1 ≤ c → word_quota c = Some q →
  1 ≤ q_test q ∧ 0 ≤ q_validation q ∧ 0 ≤ q_training q ∧
  q_test q + q_validation q + q_training q = c.
Proof.
  intros Hc. unfold word_quota. cbv zeta.
  pose proof (ceil_div_bounds c 10 ltac:(lia)) as Hten.
  set (ten_percent := ceil_div c 10) in *.
  set (t := if decide (ten_percent > 1) then ten_percent else 1).
  assert (1 ≤ t ≤ c) as Ht by (subst t; case_decide; lia).
  pose proof (ceil_div_bounds (c - t) 2 ltac:(lia)) as Hhalf.
  set (half := ceil_div (c - t) 2) in *.
  set (v := if decide (ten_percent < half) then ten_percent else half).
  assert (0 ≤ v ≤ c - t) as Hv by (subst v; case_decide; lia).
  case_decide; [|done]. intros [= <-]. simpl. lia.
Qed.

Lemma distribute_lookup words :
  ∃ qs, distribute words = Some qs ∧
    ∀ word,
      on_test qs !! word = (words !! word ≫= word_quota) ≫= (λ q, Some (q_test q)) ∧
      on_validation qs !! word
        = (words !! word ≫= word_quota) ≫= (λ q, Some (q_validation q)) ∧
      on_training qs !! word
        = (words !! word ≫= word_quota) ≫= (λ q, Some (q_training q)).
Proof.
  unfold distribute.
  apply (map_fold_weak_ind (λ r m, ∃ qs, r = Some qs ∧ ∀ word,
      on_test qs !! word = (m !! word ≫= word_quota) ≫= (λ q, Some (q_test q)) ∧
      on_validation qs !! word
        = (m !! word ≫= word_quota) ≫= (λ q, Some (q_validation q)) ∧
      on_training qs !! word
        = (m !! word ≫= word_quota) ≫= (λ q, Some (q_training q)))).
  - eexists. split; [done|]. intros word. simpl. by rewrite !lookup_empty.
  - intros w c m r Hfresh (qs & -> & Hqs).
    destruct (word_quota_total c) as [q Hq].
    unfold distribute_step. simpl. rewrite Hq. simpl.
    eexists. split; [done|]. intros word. simpl.
    destruct (decide (w = word)) as [<-|Hne].
    + rewrite !lookup_insert_eq. simpl. by rewrite Hq.
    + rewrite !lookup_insert_ne by done. apply Hqs.
Qed.

End QuotaFacts.

Section SplitWordsClaims.

Import WordQuota.

(** C1.  For every word whose count after the two corrections is [c ≥ 1],
    the quota computation of [split_words] succeeds and gives the word three
    non-negative quotas whose sum is [c], with a test quota of at least 1;
    for [c = 1] they are (1, 0, 0), for [c = 10] they are (1, 1, 8) and for
    [c = 100] they are (10, 10, 80). *)
Theorem split_words_quota_sum
    (words : gmap string Z) (incongruent_words dublicate_vectors : list string)
    (word : string) (c : Z) :
  corrected_words words incongruent_words dublicate_vectors !! word = Some c →
  1 ≤ c →
  ∃ qs t v tr,
    split_words words incongruent_words dublicate_vectors = Some qs ∧
    on_test qs !! word = Some t ∧
    on_validation qs !! word = Some v ∧
    on_training qs !! word = Some tr ∧
    0 ≤ t ∧ 0 ≤ v ∧ 0 ≤ tr ∧ 1 ≤ t ∧ t + v + tr = c ∧
    (c = 1 → (t, v, tr) = (1, 0, 0)) ∧
    (c = 10 → (t, v, tr) = (1, 1, 8)) ∧
    (c = 100 → (t, v, tr) = (10, 10, 80)).
Proof.
  intros Hword Hc. unfold split_words.
  destruct (distribute_lookup
              (corrected_words words incongruent_words dublicate_vectors))
    as (qs & Hqs & Hlook).
  destruct (Hlook word) as (Ht & Hv & Htr).
  rewrite Hword in Ht, Hv, Htr. simpl in Ht, Hv, Htr.
  destruct (word_quota c) as [q|] eqn:Hq;
    [|by destruct (word_quota_total c) as [? ?]; congruence].
  simpl in Ht, Hv, Htr.
  destruct (word_quota_sound c q Hc Hq) as (H1 & H2 & H3 & H4).
  exists qs, (q_test q), (q_validation q), (q_training q).
  repeat split; try done; try lia.
  - intros ->. vm_compute in Hq. by injection Hq as <-.
  - intros ->. vm_compute in Hq. by injection Hq as <-.
  - intros ->. vm_compute in Hq. by injection Hq as <-.
Qed.

Lemma split_words_quota_sum_witness :
  ∃ qs t v tr,
    split_words {[ "the" := 11 ]} ["the"] [] = Some qs ∧
    on_test qs !! "the" = Some t ∧
    on_validation qs !! "the" = Some v ∧
    on_training qs !! "the" = Some tr ∧
    0 ≤ t ∧ 0 ≤ v ∧ 0 ≤ tr ∧ 1 ≤ t ∧ t + v + tr = 10 ∧
    (10 = 1 → (t, v, tr) = (1, 0, 0)) ∧
    (10 = 10 → (t, v, tr) = (1, 1, 8)) ∧
    (10 = 100 → (t, v, tr) = (10, 10, 80)).
Proof.
  apply (split_words_quota_sum {[ "the" := 11 ]} ["the"] [] "the" 10).
  - vm_compute. reflexivity.
  - lia.
Defined.

(** C8.  On a raw word count (every stored count at least 1), the
    incongruent list and then the duplicate-vector list each lower the count
    of a word by exactly 1 per listed occurrence, stopping at 0; a count
    that reaches 0 is deleted, so no stored count is ever 0 or negative and
    further occurrences of a deleted word change nothing; a listed word that
    is absent changes nothing and raises nothing. *)
Theorem split_words_corrections
    (words : gmap string Z) (incongruent_words dublicate_vectors : list string)
    (word : string) :
  Counter.positive words →
  Counter.get (remove_listed incongruent_words words) word
    = Z.max 0 (Counter.get words word - listed word incongruent_words) ∧
  Counter.get (corrected_words words incongruent_words dublicate_vectors) word
    = Z.max 0 (Counter.get (remove_listed incongruent_words words) word
               - listed word dublicate_vectors) ∧
  Counter.positive (corrected_words words incongruent_words dublicate_vectors) ∧
  (corrected_words words incongruent_words dublicate_vectors !! word = None ↔
   Counter.get (corrected_words words incongruent_words dublicate_vectors) word = 0) ∧
  (∀ m : gmap string Z, m !! word = None → remove_one m word = m) ∧
  (∀ m : gmap string Z, m !! word = Some 1 → remove_one m word = delete word m) ∧
  (∀ (m : gmap string Z) n,
     m !! word = Some n → n ≠ 1 → remove_one m word = <[word := n - 1]> m) ∧
  (∀ (m : gmap string Z) other,
     word ≠ other → remove_one m word !! other = m !! other).
Proof.
  intros Hpos.
  assert (Counter.positive (remove_listed incongruent_words words)) as Hpos1
    by by apply remove_listed_positive.
  assert (Counter.positive
            (corrected_words words incongruent_words dublicate_vectors)) as Hpos2
    by by apply remove_listed_positive.
  split; [by apply remove_listed_get|].
  split; [by apply remove_listed_get|].
  split; [done|].
  split; [by apply positive_absent|].
  split; [intros m; apply remove_one_absent|].
  split; [intros m; apply remove_one_last|].
  split; [intros m n; apply remove_one_more|intros m other; apply remove_one_other].
Qed.

Lemma split_words_corrections_witness :
  Counter.get (remove_listed ["a"; "b"; "zz"] {[ "a" := 3; "b" := 1 ]}) "a"
    = Z.max 0 (Counter.get {[ "a" := 3; "b" := 1 ]} "a" - listed "a" ["a"; "b"; "zz"]) ∧
  Counter.get (corrected_words {[ "a" := 3; "b" := 1 ]} ["a"; "b"; "zz"] ["a"; "a"; "a"]) "a"
    = Z.max 0 (Counter.get (remove_listed ["a"; "b"; "zz"] {[ "a" := 3; "b" := 1 ]}) "a"
               - listed "a" ["a"; "a"; "a"]) ∧
  Counter.positive (corrected_words {[ "a" := 3; "b" := 1 ]} ["a"; "b"; "zz"] ["a"; "a"; "a"]) ∧
  (corrected_words {[ "a" := 3; "b" := 1 ]} ["a"; "b"; "zz"] ["a"; "a"; "a"] !! "a" = None ↔
   Counter.get (corrected_words {[ "a" := 3; "b" := 1 ]} ["a"; "b"; "zz"] ["a"; "a"; "a"]) "a" = 0) ∧
  (∀ m : gmap string Z, m !! "a" = None → remove_one m "a" = m) ∧
  (∀ m : gmap string Z, m !! "a" = Some 1 → remove_one m "a" = delete "a" m) ∧
  (∀ (m : gmap string Z) n,
     m !! "a" = Some n → n ≠ 1 → remove_one m "a" = <[ "a" := n - 1]> m) ∧
  (∀ (m : gmap string Z) other,
     "a" ≠ other → remove_one m "a" !! other = m !! other).
Proof.
  apply (split_words_corrections {[ "a" := 3; "b" := 1 ]} ["a"; "b"; "zz"] ["a"; "a"; "a"] "a").
  unfold Counter.positive. apply (bool_decide_unpack _). vm_compute. exact I.
Defined.

End SplitWordsClaims.

(** ** The three subsets *)

Section SubsetFacts.

Context {A : Type}.
Implicit Types (k : subset) (s : split A) (f g : A → A).

Lemma sel_upd_eq k f s : sel k (upd k f s) = f (sel k s).
Proof. by destruct k. Qed.

Lemma sel_upd_ne k k' f s : k ≠ k' → sel k' (upd k f s) = sel k' s.
Proof. by destruct k, k'. Qed.

Lemma upd_upd k f g s : upd k f (upd k g s) = upd k (f ∘ g) s.
Proof. by destruct k. Qed.

Lemma upd_ext k f g s : f (sel k s) = g (sel k s) → upd k f s = upd k g s.
Proof. destruct k; simpl; by intros ->. Qed.

Lemma upd_id k f s : f (sel k s) = sel k s → upd k f s = s.
Proof. destruct k, s; simpl; by intros ->. Qed.

End SubsetFacts.

(** ** File names *)

Section FileNameFacts.

Import FileName.

Lemma strip_prefix_app p s rest : strip_prefix p s = Some rest → s = p +:+ rest.
Proof.
  revert s. induction p as [|a p IH]; intros s; simpl.
  - by intros [= <-].
  - destruct s as [|b s]; [done|].
    case_decide; [|done]. subst b. intros H. by rewrite (IH _ H).
Qed.

Lemma strip_prefix_here p rest : strip_prefix p (p +:+ rest) = Some rest.
Proof.
  induction p as [|a p IH]; simpl; [done|]. by rewrite decide_True.
Qed.

Lemma startswith_app p s : startswith p s = true → ∃ rest, s = p +:+ rest.
Proof.
  unfold startswith. intros H. apply bool_decide_eq_true in H as [rest H].
  exists rest. by apply strip_prefix_app.
Qed.

(** A name that passes the filter of [split_data] has a ["df"] in it, so
    [file.split("df")[1]] does not raise. *)
Lemma source_shard_identifier file :
  startswith "corpus_as_df_mp_epoch_" file = true →
  is_Some (unique_identifier file).
Proof.
  intros [rest ->]%startswith_app. unfold unique_identifier.
  vm_compute after_df. eauto.
Qed.

Lemma before_df_d_free s : d_free s → before_df s = s.
Proof.
  unfold d_free. induction s as [|c s IH]; simpl; [done|].
  intros [Hc Hs]%Forall_cons. unfold startswith. simpl.
  destruct (decide (_ = c)) as [Heq|Hne].
  - exfalso. apply Hc. by rewrite <- Heq.
  - simpl. by rewrite IH.
Qed.

Lemma d_free_app s1 s2 : d_free s1 → d_free s2 → d_free (s1 +:+ s2).
Proof.
  unfold d_free. induction s1 as [|c s1 IH]; simpl; [done|].
  intros [Hc Hs]%Forall_cons H2. constructor; [done|]. by apply IH.
Qed.

Lemma digits_d_free n :
  all_digits n → d_free n.
Proof.
  unfold d_free, all_digits. intros H. eapply Forall_impl; [exact H|].
  intros c Hc ->. by vm_compute in Hc.
Qed.

(** The identifier of [corpus_as_df_mp_epoch_<n>.pkl]. *)
Lemma shard_name_identifier n :
  all_digits n →
  unique_identifier (shard_name n) = Some ("_mp_epoch_" +:+ n +:+ ".pkl").
Proof.
  intros Hn. unfold unique_identifier, shard_name.
  change (Some (before_df ("_mp_epoch_" +:+ (n +:+ ".pkl")))
          = Some ("_mp_epoch_" +:+ (n +:+ ".pkl"))).
  f_equal. apply before_df_d_free.
  apply (d_free_app "_mp_epoch_"); [repeat constructor; done|].
  apply d_free_app; [by apply digits_d_free|repeat constructor; done].
Qed.

Lemma string_length_app (a b : string) :
  String.length (a +:+ b) = (String.length a + String.length b)%nat.
Proof. induction a as [|c a IH]; simpl; [done|]. by rewrite IH. Qed.

Lemma app_inj_tail_string (a b suffix : string) :
  a +:+ suffix = b +:+ suffix → a = b.
Proof.
  revert b. induction a as [|c a IH]; intros [|c' b] H; [done| | |].
  - apply (f_equal String.length) in H.
    rewrite !string_length_app in H. simpl in H. lia.
  - apply (f_equal String.length) in H.
    rewrite !string_length_app in H. simpl in H. lia.
  - simpl in H. injection H as -> H. by rewrite (IH _ H).
Qed.

End FileNameFacts.

(** ** [split_data] *)

Section PartitionerFacts.

Import Partitioner.

Context {Columns : Type}.
Variables replace_special_chars lower : string → string.

Local Abbreviation state := (Partitioner.state Columns).
Local Abbreviation OutRow := (Partitioner.OutRow Columns).
Local Abbreviation Row := (Partitioner.Row Columns).
Local Abbreviation source_file := (Partitioner.source_file Columns).
Local Abbreviation survives := (Partitioner.survives replace_special_chars lower).
Local Abbreviation row_step := (Partitioner.row_step replace_special_chars lower).
Local Abbreviation file_step := (Partitioner.file_step replace_special_chars lower).
Local Abbreviation file_loop := (Partitioner.file_loop replace_special_chars lower).
Local Abbreviation split_data := (Partitioner.split_data replace_special_chars lower).
Local Abbreviation assigned_of := (Partitioner.assigned_of replace_special_chars lower).
Local Abbreviation dropped_of := (Partitioner.dropped_of replace_special_chars lower).

Implicit Types (s : state) (rows : split (list OutRow)) (k : subset)
  (entry : Z * Row) (dv : list (Z * string)) (file : source_file).

(** *** The row loop *)

(** What one iteration does to a row that passes the filters ... *)
Lemma row_step_survivor uid dv s rows entry :
  survives dv entry = true →
  row_step uid dv (s, rows) entry
  = (set_words (upd (route (words s) (lexical_word entry.2))
                    (λ c, Counter.decr c (lexical_word entry.2)))
               (set_i entry.1 s),
     upd (route (words s) (lexical_word entry.2))
         (λ l, l ++ [out_row uid entry]) rows).
Proof.
  destruct entry as [i row]. unfold Partitioner.survives, row_step, route. simpl.
  intros [Hword Hdup]%andb_true_iff.
  apply bool_decide_eq_true in Hword. apply negb_true_iff in Hdup.
  rewrite decide_False by (intros Hne; by apply Hne).
  rewrite Hdup. by repeat case_decide.
Qed.

(** ... and to one that does not. *)
Lemma row_step_dropped uid dv s rows entry :
  survives dv entry = false →
  ∃ s', row_step uid dv (s, rows) entry = (s', rows) ∧
        logged s' = S (logged s) ∧
        words s' = words s ∧ df s' = df s ∧ index s' = index s ∧
        skip_index s' = skip_index s ∧
        shards_written s' = shards_written s ∧ checkpoints s' = checkpoints s.
Proof.
  destruct entry as [i row]. unfold Partitioner.survives, row_step, logged. simpl.
  set (cleaned_word := lower (replace_special_chars (lexical_word row))).
  set (cleaned_mfa_word := lower (replace_special_chars (mfa_word row))).
  intros Hdrop.
  destruct (decide (cleaned_word ≠ cleaned_mfa_word)) as [Hne|Heq].
  - eexists. split; [reflexivity|]. simpl. repeat split; lia.
  - assert (cleaned_word = cleaned_mfa_word) as Hword
      by (destruct (decide (cleaned_word = cleaned_mfa_word)); [done|exfalso; eauto]).
    rewrite (bool_decide_eq_true_2 _ Hword) in Hdrop.
    simpl in Hdrop. apply negb_false_iff in Hdrop. rewrite Hdrop.
    eexists. split; [reflexivity|]. simpl. repeat split; lia.
Qed.

Lemma pending_upd k out rows :
  pending (upd k (λ l, l ++ [out]) rows) ≡ₚ pending rows ++ [out].
Proof.
  unfold pending. destruct k; simpl; solve_Permutation.
Qed.

(** The whole loop over the rows of one file: the surviving rows are
    appended to the three row lists, the others are counted as dropped, and
    nothing is written. *)
Lemma row_loop_spec uid dv (frame : list (Z * Row)) s rows :
  ∃ s' rows',
    foldl (row_step uid dv) (s, rows) frame = (s', rows') ∧
    pending rows'
      ≡ₚ pending rows
         ++ (out_row uid <$> filter (λ entry, survives dv entry = true) frame) ∧
    logged s'
      = (logged s + length (filter (λ entry, survives dv entry = false) frame))%nat ∧
    df s' = df s ∧ index s' = index s ∧ skip_index s' = skip_index s ∧
    shards_written s' = shards_written s ∧ checkpoints s' = checkpoints s.
Proof.
  revert s rows. induction frame as [|entry frame IH]; intros s rows.
  - exists s, rows. simpl. rewrite app_nil_r.
    repeat split; try done; unfold logged; lia.
  - change (foldl (row_step uid dv) (s, rows) (entry :: frame))
      with (foldl (row_step uid dv) (row_step uid dv (s, rows) entry) frame).
    destruct (survives dv entry) eqn:Hs.
    + rewrite (row_step_survivor _ _ _ _ _ Hs).
      edestruct IH as (s' & rows' & -> & Hrows & Hlog & ? & ? & ? & ? & ?).
      exists s', rows'. split; [done|].
      rewrite filter_cons_True by done. rewrite filter_cons_False by congruence.
      split; [|repeat split; try done].
      rewrite Hrows, pending_upd. simpl. by rewrite <- (assoc_L (++)).
    + destruct (row_step_dropped uid dv s rows entry Hs)
        as (s1 & -> & Hlog1 & ? & Hdf & Hidx & Hskip & Hsh & Hcp).
      edestruct (IH s1 rows) as (s' & rows' & -> & Hrows & Hlog & ? & ? & ? & ? & ?).
      exists s', rows'. split; [done|].
      rewrite filter_cons_False by congruence. rewrite filter_cons_True by done.
      repeat split; try congruence.
      rewrite Hlog, Hlog1. simpl. lia.
Qed.

(** *** The [while] loops *)

Lemma flush_unfold fuel data_size k s :
  flush fuel data_size k s
  = if decide (data_size ≤ length (sel k (df s)))%nat then
      match fuel with
      | O => OutOfFuel
      | S fuel =>
          let old_len := length (sel k (df s)) in
          let df_i := take data_size (sel k (df s)) in
          let s := set_df (upd k (drop data_size)) s in
          let s := if decide (length df_i ≠ 0)%nat
                   then to_pickle k (sel k (index s)) df_i s else s in
          let s := set_index (upd k S) s in
          if decide (old_len = length (sel k (df s)) + data_size)%nat
          then flush fuel data_size k s
          else Raised AssertionError s
      end
    else Done s.
Proof. by destruct fuel. Qed.

Lemma flushed_0 k data_size s : flushed k 0 data_size s = s.
Proof.
  destruct s as [w d ix]. unfold flushed, full_shards. simpl.
  rewrite app_nil_r. f_equal.
  - by apply upd_id.
  - apply upd_id. lia.
Qed.

Lemma full_shards_S k idx n data_size (buffer : list OutRow) :
  full_shards k idx (S n) data_size buffer
  = mkShard k idx (take data_size buffer)
    :: full_shards k (S idx) n data_size (drop data_size buffer).
Proof.
  unfold full_shards. simpl. f_equal.
  - f_equal. lia.
  - rewrite <- fmap_S_seq, <- list_fmap_compose.
    apply list_fmap_ext. intros _ j _. simpl. f_equal; [lia|].
    rewrite drop_drop. repeat f_equal; lia.
Qed.

Lemma flushed_S k n data_size s :
  flushed k n data_size
    (set_index (upd k S)
       (to_pickle k (sel k (index s)) (take data_size (sel k (df s)))
          (set_df (upd k (drop data_size)) s)))
  = flushed k (S n) data_size s.
Proof.
  destruct s as [w d ix]. unfold flushed. simpl. f_equal.
  - rewrite upd_upd. apply upd_ext. simpl. rewrite drop_drop. f_equal; lia.
  - rewrite upd_upd. apply upd_ext. simpl. lia.
  - rewrite !sel_upd_eq, full_shards_S. by rewrite <- (assoc_L (++)).
Qed.

(** A [while] loop either runs out of fuel, which takes a buffer longer
    than the fuel, or writes some number [n] of full shards and leaves fewer
    than [data_size] rows in the buffer. *)
Lemma flush_spec fuel data_size k s :
  (1 ≤ data_size)%nat →
  (flush fuel data_size k s = OutOfFuel ∧ (fuel < length (sel k (df s)))%nat) ∨
  ∃ n, (n * data_size ≤ length (sel k (df s)) < n * data_size + data_size)%nat ∧
       flush fuel data_size k s = Done (flushed k n data_size s).
Proof.
  intros Hsize. revert s. induction fuel as [|fuel IH]; intros s;
    rewrite flush_unfold;
    destruct (decide (data_size ≤ length (sel k (df s)))%nat) as [Hlen|Hlen].
  - left. split; [done|lia].
  - right. exists 0%nat. rewrite flushed_0. split; [lia|done].
  - cbv zeta. rewrite length_take_le by done.
    rewrite (decide_True (P := (data_size ≠ 0)%nat)) by lia.
    set (s1 := set_index _ _).
    assert (sel k (df s1) = drop data_size (sel k (df s))) as Hdf1
      by (subst s1; simpl; by rewrite sel_upd_eq).
    rewrite Hdf1, length_drop. rewrite decide_True by lia.
    destruct (IH s1) as [[-> Hfuel]|(n & Hn & ->)].
    + left. split; [done|]. rewrite Hdf1, length_drop in Hfuel. lia.
    + right. exists (S n). rewrite Hdf1, length_drop in Hn. split; [lia|].
      subst s1. by rewrite <- flushed_S.
  - right. exists 0%nat. rewrite flushed_0. split; [lia|done].
Qed.

(** The rows the full shards hold are the first [n * data_size] rows of
    the buffer, in their order of arrival. *)
Lemma full_shards_rows k idx n data_size (buffer : list OutRow) :
  mjoin (shard_rows <$> full_shards k idx n data_size buffer)
  = take (n * data_size) buffer.
Proof.
  revert idx buffer. induction n as [|n IH]; intros idx buffer; [done|].
  rewrite full_shards_S. simpl. rewrite IH.
  by rewrite take_take_drop.
Qed.

Lemma full_shards_exact k idx n data_size (buffer : list OutRow) :
  (n * data_size ≤ length buffer)%nat →
  Forall (λ sh, length (shard_rows sh) = data_size ∧ shard_subset sh = k)
         (full_shards k idx n data_size buffer).
Proof.
  revert idx buffer. induction n as [|n IH]; intros idx buffer Hn.
  - constructor.
  - rewrite full_shards_S. constructor.
    + simpl. split; [|done]. rewrite length_take_le; lia.
    + apply IH. rewrite length_drop. lia.
Qed.

Lemma full_shards_indices k idx n data_size (buffer : list OutRow) :
  shard_index <$> full_shards k idx n data_size buffer = seq idx n.
Proof.
  revert idx buffer. induction n as [|n IH]; intros idx buffer; [done|].
  rewrite full_shards_S. simpl. by rewrite IH.
Qed.

Lemma full_shards_filter k k' idx n data_size (buffer : list OutRow) :
  filter (λ sh, shard_subset sh = k') (full_shards k idx n data_size buffer)
  = if decide (k = k') then full_shards k idx n data_size buffer else [].
Proof.
  revert idx buffer. induction n as [|n IH]; intros idx buffer.
  - by case_decide.
  - rewrite full_shards_S, filter_cons, IH. simpl. by repeat case_decide.
Qed.

Lemma rows_held_flushed k n data_size s :
  rows_held (flushed k n data_size s) ≡ₚ rows_held s.
Proof.
  unfold rows_held, rows_on_disk, flushed. simpl.
  rewrite fmap_app, join_app, full_shards_rows.
  pose proof (take_drop (n * data_size) (sel k (df s))) as Hcut.
  destruct k, (df s) as [a b c]; simpl in *;
    rewrite <- Hcut at 3; solve_Permutation.
Qed.

Lemma flushed_preserves k n data_size s :
  (1 ≤ data_size)%nat →
  (n * data_size ≤ length (sel k (df s)) < n * data_size + data_size)%nat →
  (shards_ok data_size s → shards_ok data_size (flushed k n data_size s)) ∧
  (indices_ok s → indices_ok (flushed k n data_size s)) ∧
  short data_size k (flushed k n data_size s) ∧
  (∀ k', k ≠ k' →
     sel k' (df (flushed k n data_size s)) = sel k' (df s)).
Proof.
  intros Hsize Hn. repeat split.
  - unfold shards_ok, flushed. simpl. intros Hok. apply Forall_app. split; [done|].
    eapply Forall_impl; [apply full_shards_exact; lia|].
    intros sh [Hlen _]. unfold shard_ok. lia.
  - unfold indices_ok, indices_written, flushed. simpl. intros Hok k'.
    rewrite filter_app, fmap_app, Hok, full_shards_filter.
    destruct (decide (k = k')) as [<-|Hne].
    + rewrite sel_upd_eq, full_shards_indices. by rewrite seq_app.
    + rewrite sel_upd_ne by done. simpl. by rewrite app_nil_r.
  - unfold short, flushed. simpl. rewrite sel_upd_eq, length_drop. lia.
  - intros k' Hne. unfold flushed. simpl. by rewrite sel_upd_ne.
Qed.

Lemma buffer_le_held k s : (length (sel k (df s)) ≤ length (rows_held s))%nat.
Proof.
  unfold rows_held. rewrite !length_app. destruct k; simpl; lia.
Qed.

(** The three [while] loops in a row. *)
Lemma flush_all_spec fuel data_size s s' :
  (1 ≤ data_size)%nat →
  (s1 ←! flush fuel data_size test s;
   s2 ←! flush fuel data_size validation s1;
   flush fuel data_size training s2) = Done s' →
  rows_held s' ≡ₚ rows_held s ∧
  logged s' = logged s ∧ skip_index s' = skip_index s ∧ i s' = i s ∧
  words s' = words s ∧ checkpoints s' = checkpoints s ∧
  (shards_ok data_size s → shards_ok data_size s') ∧
  (indices_ok s → indices_ok s') ∧
  ∀ k, short data_size k s'.
Proof.
  intros Hsize.
  destruct (flush_spec fuel data_size test s Hsize)
    as [[-> _]|(n1 & Hn1 & ->)]; [done|]. simpl.
  destruct (flush_spec fuel data_size validation
              (flushed test n1 data_size s) Hsize)
    as [[-> _]|(n2 & Hn2 & ->)]; [done|]. simpl.
  destruct (flush_spec fuel data_size training
              (flushed validation n2 data_size (flushed test n1 data_size s)) Hsize)
    as [[-> _]|(n3 & Hn3 & ->)]; [done|].
  intros [= <-].
  destruct (flushed_preserves test n1 data_size s Hsize Hn1)
    as (Hs1 & Hi1 & Hshort1 & Hdf1).
  destruct (flushed_preserves validation n2 data_size _ Hsize Hn2)
    as (Hs2 & Hi2 & Hshort2 & Hdf2).
  destruct (flushed_preserves training n3 data_size _ Hsize Hn3)
    as (Hs3 & Hi3 & Hshort3 & Hdf3).
  split.
  { by rewrite !rows_held_flushed. }
  do 5 (split; [done|]).
  split; [auto|]. split; [auto|].
  intros [].
  - unfold short. rewrite Hdf3, Hdf2 by done. apply Hshort1.
  - unfold short. rewrite Hdf3 by done. apply Hshort2.
  - apply Hshort3.
Qed.

Lemma flush_all_total fuel data_size s :
  (1 ≤ data_size)%nat → (length (rows_held s) ≤ fuel)%nat →
  ∃ s', (s1 ←! flush fuel data_size test s;
         s2 ←! flush fuel data_size validation s1;
         flush fuel data_size training s2) = Done s'.
Proof.
  intros Hsize Hfuel.
  destruct (flush_spec fuel data_size test s Hsize)
    as [[_ Hlt]|(n1 & Hn1 & ->)].
  { pose proof (buffer_le_held test s). lia. }
  simpl.
  destruct (flushed_preserves test n1 data_size s Hsize Hn1)
    as (_ & _ & _ & Hdf1).
  destruct (flush_spec fuel data_size validation
              (flushed test n1 data_size s) Hsize)
    as [[_ Hlt]|(n2 & Hn2 & ->)].
  { rewrite Hdf1 in Hlt by done. pose proof (buffer_le_held validation s). lia. }
  simpl.
  destruct (flushed_preserves validation n2 data_size _ Hsize Hn2)
    as (_ & _ & _ & Hdf2).
  destruct (flush_spec fuel data_size training
              (flushed validation n2 data_size (flushed test n1 data_size s)) Hsize)
    as [[_ Hlt]|(n3 & Hn3 & ->)].
  { rewrite Hdf2, Hdf1 in Hlt by done. pose proof (buffer_le_held training s). lia. }
  eauto.
Qed.

(** *** One source file *)

Lemma rows_held_concat_rows rows s :
  rows_held (concat_rows rows s) ≡ₚ rows_held s ++ pending rows.
Proof.
  unfold rows_held, rows_on_disk, concat_rows, pending. simpl.
  destruct (df s), rows. simpl. solve_Permutation.
Qed.

Lemma is_source_shard_inv file :
  is_source_shard file = true →
  FileName.endswith ".pkl" (file_name file) = true ∧
  is_Some (FileName.unique_identifier (file_name file)).
Proof.
  unfold is_source_shard. intros [Hstart Hend]%andb_true_iff.
  split; [done|]. by apply source_shard_identifier.
Qed.

(** A file that is skipped. *)
Lemma file_step_skip fuel data_size dv s file :
  skip_index s > 0 →
  file_step fuel data_size dv s file
  = Done (set_skip_index (skip_index s - 1) s).
Proof. intros Hskip. unfold Partitioner.file_step. by rewrite decide_True. Qed.

(** A file that is loaded, when the step returns. *)
Lemma file_step_spec fuel data_size dv s file s' :
  (1 ≤ data_size)%nat → skip_index s ≤ 0 → is_source_shard file = true →
  file_step fuel data_size dv s file = Done s' →
  rows_held s' ≡ₚ rows_held s ++ assigned_of dv file ∧
  logged s' = (logged s + dropped_of dv file)%nat ∧
  skip_index s' = skip_index s ∧
  (tidy data_size s → tidy data_size s').
Proof.
  intros Hsize Hskip [Hend [uid Huid]]%is_source_shard_inv.
  unfold Partitioner.file_step, Partitioner.assigned_of, Partitioner.dropped_of,
    rows_of_file.
  rewrite decide_False by lia. rewrite Hend, Huid.
  case_decide; [done|].
  destruct (data file) as [frame|]; simpl.
  - destruct (row_loop_spec uid dv frame s (Split [] [] []))
      as (s1 & rows1 & -> & Hrows & Hlog & Hdf & Hidx & Hsk & Hsh & Hcp).
    set (s2 := concat_rows rows1 s1).
    destruct (flush fuel data_size test s2) as [t1| |] eqn:E1; [|done..]. simpl.
    destruct (flush fuel data_size validation t1) as [t2| |] eqn:E2; [|done..]. simpl.
    destruct (flush fuel data_size training t2) as [t3| |] eqn:E3; [|done..]. simpl.
    intros [= <-].
    destruct (flush_all_spec fuel data_size s2 t3 Hsize)
      as (Hheld & Hlog3 & Hsk3 & Hi3 & Hw3 & Hcp3 & Hok3 & Hix3 & Hshort3).
    { rewrite E1. simpl. rewrite E2. simpl. done. }
    assert (rows_held t3 ≡ₚ rows_held s ++ (out_row uid <$>
              filter (λ entry, survives dv entry = true) frame)) as Hheld'.
    { rewrite Hheld. subst s2. rewrite rows_held_concat_rows, Hrows.
      unfold rows_held, rows_on_disk, pending. rewrite Hsh, Hdf. simpl.
      solve_Permutation. }
    assert (logged t3 = (logged s + length
              (filter (λ entry, survives dv entry = false) frame))%nat) as Hlog'.
    { rewrite Hlog3. subst s2. unfold logged in *. simpl. lia. }
    assert (shards_ok data_size s → shards_ok data_size t3) as Hok'.
    { intros Hok. apply Hok3. subst s2. unfold shards_ok in *. simpl.
      by rewrite Hsh. }
    assert (indices_ok s → indices_ok t3) as Hix'.
    { intros Hix. apply Hix3. subst s2. unfold indices_ok, indices_written in *.
      simpl. intros k. by rewrite Hsh, Hidx. }
    split; [|split; [|split]].
    + by case_decide.
    + by case_decide.
    + case_decide; simpl; rewrite Hsk3; subst s2; simpl; done.
    + intros (Hok & Hix & _). by case_decide; repeat split; auto.
  - intros [= <-]. rewrite app_nil_r.
    split; [done|]. split; [simpl; lia|]. by split.
Qed.

(** A file that is loaded returns when there is room on the disk and
    fuel for the rows held so far. *)
Lemma file_step_total fuel data_size dv s file :
  (1 ≤ data_size)%nat → skip_index s ≤ 0 → is_source_shard file = true →
  25 ≤ disk_free file `div` 2 ^ 30 →
  (length (rows_held s) + length (rows_of_file file) ≤ fuel)%nat →
  ∃ s', file_step fuel data_size dv s file = Done s'.
Proof.
  intros Hsize Hskip [Hend [uid Huid]]%is_source_shard_inv Hdisk Hfuel.
  unfold Partitioner.file_step, rows_of_file in *.
  rewrite decide_False by lia. rewrite Hend, Huid.
  rewrite decide_False by lia.
  destruct (data file) as [frame|]; simpl in *; [|eauto].
  destruct (row_loop_spec uid dv frame s (Split [] [] []))
    as (s1 & rows1 & -> & Hrows & Hlog & Hdf & Hidx & Hsk & Hsh & Hcp).
  set (s2 := concat_rows rows1 s1).
  destruct (flush_all_total fuel data_size s2 Hsize) as [t3 Ht3].
  { subst s2. rewrite rows_held_concat_rows, Hrows.
    unfold rows_held, rows_on_disk, pending in *. rewrite Hsh, Hdf. simpl.
    rewrite !length_app, length_fmap in *. simpl.
    pose proof (length_filter (λ entry, survives dv entry = true) frame). lia. }
  destruct (flush fuel data_size test s2) as [t1| |] eqn:E1; [|done..]. simpl in *.
  destruct (flush fuel data_size validation t1) as [t2| |] eqn:E2; [|done..]. simpl in *.
  rewrite Ht3. simpl. eauto.
Qed.

(** *** The loop over the files *)

Lemma loaded_files_skip skip file (files : list source_file) :
  skip > 0 → loaded_files skip (file :: files) = loaded_files (skip - 1) files.
Proof.
  unfold loaded_files. intros Hskip.
  by replace (Z.to_nat skip) with (S (Z.to_nat (skip - 1))) by lia.
Qed.

Lemma loaded_files_all skip (files : list source_file) :
  skip ≤ 0 → loaded_files skip files = files.
Proof.
  unfold loaded_files. intros Hskip.
  by replace (Z.to_nat skip) with 0%nat by lia.
Qed.

Lemma assigned_of_length dv file :
  (length (assigned_of dv file) ≤ length (rows_of_file file))%nat.
Proof.
  unfold Partitioner.assigned_of.
  destruct (FileName.unique_identifier _); simpl; [|lia].
  rewrite length_fmap. apply length_filter.
Qed.

Lemma assigned_dropped_length dv file :
  is_source_shard file = true →
  (length (assigned_of dv file) + dropped_of dv file
   = length (rows_of_file file))%nat.
Proof.
  intros [_ [uid Huid]]%is_source_shard_inv.
  unfold Partitioner.assigned_of, Partitioner.dropped_of. rewrite Huid, length_fmap.
  induction (rows_of_file file) as [|entry frame IH]; [done|].
  destruct (survives dv entry) eqn:Hs.
  - rewrite filter_cons_True by done. rewrite filter_cons_False by congruence.
    simpl. lia.
  - rewrite filter_cons_False by congruence. rewrite filter_cons_True by done.
    simpl. lia.
Qed.

Lemma file_loop_spec fuel data_size dv files s s' :
  (1 ≤ data_size)%nat →
  Forall (λ file, is_source_shard file = true) files →
  file_loop fuel data_size dv files s = Done s' →
  rows_held s'
    ≡ₚ rows_held s ++ mjoin (assigned_of dv <$> loaded_files (skip_index s) files) ∧
  logged s'
    = (logged s + sum_list (dropped_of dv <$> loaded_files (skip_index s) files))%nat ∧
  (tidy data_size s → tidy data_size s').
Proof.
  intros Hsize Hfiles. revert s.
  induction Hfiles as [|file files Hfile Hfiles IH]; intros s.
  - simpl. intros [= <-]. unfold loaded_files. rewrite drop_nil. simpl.
    rewrite app_nil_r. split; [done|]. split; [lia|done].
  - simpl. destruct (decide (skip_index s > 0)) as [Hskip|Hskip].
    + rewrite file_step_skip by done. simpl. intros Hloop.
      apply IH in Hloop. simpl in Hloop. by rewrite loaded_files_skip.
    + destruct (file_step fuel data_size dv s file) as [s1| |] eqn:Hstep;
        simpl; [|done..].
      intros Hloop. apply IH in Hloop as (Hheld & Hlog & Htidy).
      apply file_step_spec in Hstep as (Hheld1 & Hlog1 & Hskip1 & Htidy1);
        [|done|lia|done].
      rewrite Hskip1 in Hheld, Hlog.
      rewrite (loaded_files_all (skip_index s)) in * by lia.
      simpl. split; [|split].
      * rewrite Hheld, Hheld1. by rewrite <- (assoc_L (++)).
      * unfold fmap in *. lia.
      * auto.
Qed.

Lemma total_rows_cons file (files : list source_file) :
  total_rows (file :: files)
  = (length (rows_of_file file) + total_rows files)%nat.
Proof. done. Qed.

Lemma file_loop_total fuel data_size dv files s :
  (1 ≤ data_size)%nat →
  Forall (λ file, is_source_shard file = true) files →
  Forall room (loaded_files (skip_index s) files) →
  (length (rows_held s) + total_rows (loaded_files (skip_index s) files)
   ≤ fuel)%nat →
  ∃ s', file_loop fuel data_size dv files s = Done s'.
Proof.
  intros Hsize Hfiles. revert s.
  induction Hfiles as [|file files Hfile Hfiles IH]; intros s Hroom Hfuel.
  - simpl. eauto.
  - simpl. destruct (decide (skip_index s > 0)) as [Hskip|Hskip].
    + rewrite file_step_skip by done. simpl.
      rewrite loaded_files_skip in Hroom, Hfuel by done. by apply IH.
    + rewrite loaded_files_all in Hroom, Hfuel by lia.
      apply Forall_cons in Hroom as [Hroom1 Hroom].
      rewrite total_rows_cons in Hfuel.
      destruct (file_step_total fuel data_size dv s file) as [s1 Hstep];
        [done|lia|done|done|lia|].
      rewrite Hstep. simpl.
      apply file_step_spec in Hstep as (Hheld1 & _ & Hskip1 & _);
        [|done|lia|done].
      apply IH; rewrite Hskip1, loaded_files_all by lia; [done|].
      rewrite Hheld1, length_app. pose proof (assigned_of_length dv file).
      lia.
Qed.

(** *** After the loop *)

Lemma split_and_save_short data_size k (frame : list OutRow) idx s :
  (1 ≤ data_size)%nat → (length frame < data_size)%nat →
  split_and_save_dataframe frame data_size k idx s = Done (saved k frame idx s).
Proof.
  intros Hsize Hshort. unfold split_and_save_dataframe, saved.
  rewrite decide_False by lia. f_equal.
  destruct frame as [|row frame].
  - simpl length. rewrite Nat.div_small by lia. done.
  - replace ((length (row :: frame) + data_size - 1) `div` data_size)%nat
      with 1%nat.
    + simpl seq. cbn [foldl]. rewrite Nat.add_0_r. simpl drop.
      by rewrite take_ge by lia.
    + apply (Nat.div_unique _ _ 1 (length (row :: frame) - 1)); simpl in *; lia.
Qed.

Lemma saved_preserves data_size k (frame : list OutRow) idx s :
  (length frame ≤ data_size)%nat →
  df (saved k frame idx s) = df s ∧ index (saved k frame idx s) = index s ∧
  logged (saved k frame idx s) = logged s ∧
  rows_on_disk (saved k frame idx s) = rows_on_disk s ++ frame ∧
  (shards_ok data_size s → shards_ok data_size (saved k frame idx s)) ∧
  ∀ k', indices_written k' (saved k frame idx s)
        = indices_written k' s
          ++ (if decide (k = k') then match frame with [] => [] | _ => [idx] end
              else []).
Proof.
  intros Hlen. unfold saved, rows_on_disk, shards_ok, indices_written.
  destruct frame as [|row frame].
  - rewrite app_nil_r. repeat split; try done.
    intros k'. case_decide; by rewrite app_nil_r.
  - simpl. repeat split; try done.
    + rewrite fmap_app, join_app. simpl. by rewrite app_nil_r.
    + intros Hok. apply Forall_app. split; [done|].
      constructor; [|done]. unfold shard_ok. simpl in *. lia.
    + intros k'. rewrite filter_app, fmap_app. f_equal.
      rewrite filter_cons, filter_nil. simpl. by case_decide.
Qed.

(** *** A whole run *)

Lemma initial_state_tidy data_size skip (ws : split (gmap string Z)) :
  (1 ≤ data_size)%nat → tidy data_size (initial_state (Columns := Columns) skip ws).
Proof.
  intros Hsize. split; [constructor|]. split.
  - by intros [].
  - intros []; unfold short; simpl; lia.
Qed.

Lemma filtered_are_source_shards (listing : list source_file) :
  Forall (λ file, is_source_shard file = true)
         (filter (λ file, is_source_shard file = true) listing).
Proof. apply Forall_forall. by intros file [? _]%list_elem_of_filter. Qed.

Lemma seq_snoc_if (b : bool) (n : nat) :
  ∃ m, seq 0 n ++ (if b then [n] else []) = seq 0 m.
Proof.
  destruct b.
  - exists (S n). by rewrite seq_S.
  - exists n. by rewrite app_nil_r.
Qed.

(** What a run that returns has written: the rows on the disk are the
    surviving rows of the loaded files, the dropped rows were all counted,
    every shard has between 1 and [data_size] rows, and the shards of each
    subset are numbered 0, 1, 2, ... in the order they were written. *)
Lemma run_spec fuel listing skip tw vw trw dv data_size s' :
  (1 ≤ data_size)%nat →
  split_data fuel listing skip tw vw trw dv data_size = Done s' →
  rows_on_disk s' ≡ₚ mjoin (assigned_of dv <$> loaded_by listing skip) ∧
  logged s' = sum_list (dropped_of dv <$> loaded_by listing skip) ∧
  shards_ok data_size s' ∧
  ∀ k, ∃ n, indices_written k s' = seq 0 n.
Proof.
  intros Hsize. unfold Partitioner.split_data.
  destruct (file_loop _ _ _ _ _) as [s| |] eqn:Hloop; simpl; [|done..].
  apply file_loop_spec in Hloop as (Hheld & Hlog & Htidy);
    [|done|apply filtered_are_source_shards].
  destruct (Htidy (initial_state_tidy _ _ _ Hsize)) as (Hok & Hix & Hshort).
  pose proof (Hshort test) as Ht. pose proof (Hshort validation) as Hv.
  pose proof (Hshort training) as Htr. unfold short in Ht, Hv, Htr. simpl in *.
  rewrite split_and_save_short by done. simpl.
  destruct (saved_preserves data_size test (on_test (df s)) (on_test (index s)) s)
    as (Hdf1 & Hidx1 & Hlog1 & Hdisk1 & Hok1 & Hix1); [lia|].
  set (s1 := saved test _ _ s) in *. rewrite Hdf1, Hidx1.
  rewrite split_and_save_short by done. simpl.
  destruct (saved_preserves data_size validation (on_validation (df s))
              (on_validation (index s)) s1)
    as (Hdf2 & Hidx2 & Hlog2 & Hdisk2 & Hok2 & Hix2); [lia|].
  set (s2 := saved validation _ _ s1) in *. rewrite Hdf2, Hidx2, Hdf1, Hidx1.
  rewrite split_and_save_short by done.
  destruct (saved_preserves data_size training (on_training (df s))
              (on_training (index s)) s2)
    as (Hdf3 & Hidx3 & Hlog3 & Hdisk3 & Hok3 & Hix3); [lia|].
  intros [= <-]. split; [|split; [|split]].
  - rewrite Hdisk3, Hdisk2, Hdisk1. rewrite <- !(assoc_L (++)).
    by rewrite Hheld.
  - rewrite Hlog3, Hlog2, Hlog1, Hlog. done.
  - auto.
  - intros k. rewrite Hix3, Hix2, Hix1, Hix.
    destruct k; simpl; rewrite ?app_nil_r.
    + destruct (on_test (df s));
        [apply (seq_snoc_if false)|apply (seq_snoc_if true)].
    + destruct (on_validation (df s));
        [apply (seq_snoc_if false)|apply (seq_snoc_if true)].
    + destruct (on_training (df s));
        [apply (seq_snoc_if false)|apply (seq_snoc_if true)].
Qed.

(** A run returns when the shard size is positive, there is room on the
    disk at every loaded file, and the fuel covers the rows of the loaded
    files. *)
Lemma run_total fuel listing skip tw vw trw dv data_size :
  (1 ≤ data_size)%nat →
  Forall room (loaded_by listing skip) →
  (total_rows (loaded_by listing skip) ≤ fuel)%nat →
  ∃ s', split_data fuel listing skip tw vw trw dv data_size = Done s'.
Proof.
  intros Hsize Hroom Hfuel. unfold Partitioner.split_data.
  destruct (file_loop_total fuel data_size dv
              (filter (λ file, is_source_shard file = true) listing)
              (initial_state skip (Split tw vw trw))) as [s Hloop];
    [done|apply filtered_are_source_shards|done|simpl; by unfold loaded_by in Hfuel|].
  rewrite Hloop. simpl.
  apply file_loop_spec in Hloop as (_ & _ & Htidy);
    [|done|apply filtered_are_source_shards].
  destruct (Htidy (initial_state_tidy _ _ _ Hsize)) as (_ & _ & Hshort).
  pose proof (Hshort test) as Ht. pose proof (Hshort validation) as Hv.
  pose proof (Hshort training) as Htr. unfold short in Ht, Hv, Htr. simpl in *.
  rewrite split_and_save_short by done. simpl.
  destruct (saved_preserves data_size test (on_test (df s)) (on_test (index s)) s)
    as (Hdf1 & Hidx1 & _); [lia|].
  set (s1 := saved test _ _ s) in *. rewrite Hdf1, Hidx1.
  rewrite split_and_save_short by done. simpl.
  destruct (saved_preserves data_size validation (on_validation (df s))
              (on_validation (index s)) s1)
    as (Hdf2 & Hidx2 & _); [lia|].
  set (s2 := saved validation _ _ s1) in *. rewrite Hdf2, Hidx2, Hdf1, Hidx1.
  rewrite split_and_save_short by done. eauto.
Qed.

(** *** Routing of the rows *)

(** C2 (as amended).  A row that passes the word-mismatch and the
    duplicate-vector filters is routed to test when the test quota of its
    word is positive, else to validation when the validation quota is
    positive, else to training; the quota of the chosen subset is lowered by
    1 and the other two are left alone.  The training quota is lowered
    without a check: the step always returns, and when the training quota
    was 0 or less it becomes negative. *)
Theorem row_routed_by_quota uid dv s rows entry :
  survives dv entry = true →
  let word := lexical_word entry.2 in
  let k := route (words s) word in
  ∃ s',
    row_step uid dv (s, rows) entry
      = (s', upd k (λ l, l ++ [out_row uid entry]) rows) ∧
    (k = test ↔ Counter.get (on_test (words s)) word > 0) ∧
    (k = validation ↔
       Counter.get (on_test (words s)) word ≤ 0 ∧
       Counter.get (on_validation (words s)) word > 0) ∧
    (k = training ↔
       Counter.get (on_test (words s)) word ≤ 0 ∧
       Counter.get (on_validation (words s)) word ≤ 0) ∧
    Counter.get (sel k (words s')) word = Counter.get (sel k (words s)) word - 1 ∧
    (∀ k', k ≠ k' → sel k' (words s') = sel k' (words s)) ∧
    (k = training → Counter.get (on_training (words s)) word ≤ 0 →
     Counter.get (on_training (words s')) word < 0) ∧
    shards_written s' = shards_written s ∧ logged s' = logged s.
Proof.
  intros Hs word k. eexists. split; [by apply row_step_survivor|].
  simpl. fold word. fold k.
  split; [|split; [|split]].
  - subst k. unfold route. repeat case_decide; split; (done || lia).
  - subst k. unfold route. repeat case_decide; split; (done || lia).
  - subst k. unfold route. repeat case_decide; split; (done || lia).
  - split; [by rewrite sel_upd_eq, get_decr_eq|].
    split; [intros k' Hne; by rewrite sel_upd_ne|].
    split; [|done].
    intros Hk Hquota. rewrite Hk. simpl. rewrite get_decr_eq. lia.
Qed.

(** *** Conservation of the rows *)

Lemma loaded_by_source_shards listing skip :
  Forall (λ file, is_source_shard file = true) (loaded_by listing skip).
Proof.
  unfold loaded_by, loaded_files. apply Forall_drop, filtered_are_source_shards.
Qed.

Lemma loaded_by_listed listing skip file :
  file ∈ loaded_by listing skip → file ∈ listing.
Proof.
  unfold loaded_by, loaded_files.
  intros Hin. apply (subseteq_drop _ _ _) in Hin.
  by apply list_elem_of_filter in Hin as [_ ?].
Qed.

Lemma rows_on_disk_length s :
  length (rows_on_disk s)
  = sum_list ((λ sh, length (shard_rows sh)) <$> shards_written s).
Proof.
  unfold rows_on_disk. by rewrite length_join, <- list_fmap_compose.
Qed.

Lemma assigned_dropped_total dv (files : list source_file) :
  Forall (λ file, is_source_shard file = true) files →
  (length (mjoin (assigned_of dv <$> files)) + sum_list (dropped_of dv <$> files)
   = total_rows files)%nat.
Proof.
  induction 1 as [|file files Hfile _ IH]; [done|].
  rewrite total_rows_cons, <- (assigned_dropped_length dv file Hfile), <- IH.
  rewrite !fmap_cons. simpl. rewrite length_app. lia.
Qed.

(** Shards whose indices do not repeat within a subset have pairwise
    different file names. *)
Lemma shard_names_NoDup (shs : list (Partitioner.shard Columns)) :
  (∀ k, NoDup (shard_index <$> filter (λ sh, shard_subset sh = k) shs)) →
  NoDup ((λ sh, (shard_subset sh, shard_index sh)) <$> shs).
Proof.
  induction shs as [|sh shs IH]; intros Hix; [constructor|].
  rewrite fmap_cons. apply NoDup_cons. split.
  - intros (sh' & Heq & Hin)%list_elem_of_fmap. injection Heq as Hk Hidx.
    specialize (Hix (shard_subset sh)).
    rewrite filter_cons_True, fmap_cons in Hix by done.
    apply NoDup_cons in Hix as [Hnotin _]. apply Hnotin.
    rewrite Hidx. apply list_elem_of_fmap_2. by apply list_elem_of_filter.
  - apply IH. intros k. specialize (Hix k). rewrite filter_cons in Hix.
    case_decide; [|done]. rewrite fmap_cons in Hix.
    by apply NoDup_cons in Hix as [_ ?].
Qed.

(** C6.  Every iteration of the row loop either drops its row, counting it,
    or appends it to exactly one of the three row lists; so when a run
    returns, the rows of all the shards it wrote (under pairwise different
    names) and the rows it dropped add up to the rows of the source shards
    it loaded.  A run returns when the shard size is positive, there is room
    on the disk at every loaded file and the fuel covers the loaded rows. *)
Theorem rows_are_conserved fuel listing skip tw vw trw dv data_size :
  (1 ≤ data_size)%nat →
  (∀ uid s rows entry,
     ∃ s1 rows1,
       row_step uid dv (s, rows) entry = (s1, rows1) ∧
       (length (pending rows1) + logged s1
        = S (length (pending rows) + logged s))%nat ∧
       (survives dv entry = true →
        ∃ k, rows1 = upd k (λ l, l ++ [out_row uid entry]) rows ∧
             logged s1 = logged s) ∧
       (survives dv entry = false → rows1 = rows ∧ logged s1 = S (logged s))) ∧
  (∀ s', split_data fuel listing skip tw vw trw dv data_size = Done s' →
     (sum_list ((λ sh, length (shard_rows sh)) <$> shards_written s')
      + (log_mismatch s' + log_dublicate s')
      = total_rows (loaded_by listing skip))%nat ∧
     NoDup ((λ sh, (shard_subset sh, shard_index sh)) <$> shards_written s')) ∧
  (Forall room (loaded_by listing skip) →
   (total_rows (loaded_by listing skip) ≤ fuel)%nat →
   ∃ s', split_data fuel listing skip tw vw trw dv data_size = Done s').
Proof.
  intros Hsize. split; [|split].
  - intros uid s rows entry. destruct (survives dv entry) eqn:Hs.
    + rewrite (row_step_survivor _ _ _ _ _ Hs). do 2 eexists.
      split; [done|]. split; [|split; [|done]].
      * rewrite pending_upd, length_app. unfold logged. simpl. lia.
      * intros _. eexists. split; done.
    + destruct (row_step_dropped uid dv s rows entry Hs) as (s1 & -> & Hlog & _).
      exists s1, rows. split; [done|]. split; [lia|]. split; [done|]. done.
  - intros s' Hrun. apply run_spec in Hrun as (Hdisk & Hlog & _ & Hix); [|done].
    split.
    + rewrite <- rows_on_disk_length, Hdisk. fold (logged s'). rewrite Hlog.
      apply assigned_dropped_total, loaded_by_source_shards.
    + apply shard_names_NoDup. intros k. destruct (Hix k) as [n Hn].
      unfold indices_written in Hn. rewrite Hn. apply NoDup_seq.
  - by apply run_total.
Qed.

(** *** Origins *)

Lemma assigned_of_inv dv file out :
  out ∈ assigned_of dv file →
  ∃ uid entry,
    FileName.unique_identifier (file_name file) = Some uid ∧
    entry ∈ rows_of_file file ∧ survives dv entry = true ∧
    out = out_row uid entry.
Proof.
  unfold Partitioner.assigned_of.
  destruct (FileName.unique_identifier (file_name file)) as [uid|];
    [|by intros ?%not_elem_of_nil].
  intros (entry & -> & [Hs Hin]%list_elem_of_filter)%list_elem_of_fmap.
  by exists uid, entry.
Qed.

Lemma assigned_of_origins dv file :
  NoDup (rows_of_file file).*1 → NoDup (origin <$> assigned_of dv file).
Proof.
  intros Hlabels. unfold Partitioner.assigned_of.
  destruct (FileName.unique_identifier (file_name file)) as [uid|];
    [|constructor].
  rewrite <- list_fmap_compose.
  rewrite (list_fmap_ext _ (pair uid ∘ fst)) by (by intros ? [] ?).
  rewrite list_fmap_compose. apply (NoDup_fmap_2 _).
  apply (sublist_NoDup _ (rows_of_file file).*1); [done|].
  apply fmap_sublist, sublist_filter.
Qed.

(** Distinct shard identifiers and distinct row labels within each file
    give distinct origins. *)
Lemma origins_NoDup dv (files : list source_file) :
  NoDup ((λ file, FileName.unique_identifier (file_name file)) <$> files) →
  (∀ file, file ∈ files → NoDup (rows_of_file file).*1) →
  NoDup (origin <$> mjoin (assigned_of dv <$> files)).
Proof.
  induction files as [|file files IH]; intros Hids Hlabels; [constructor|].
  rewrite fmap_cons in Hids. apply NoDup_cons in Hids as [Hfresh Hids].
  change (mjoin (assigned_of dv <$> file :: files))
    with (assigned_of dv file ++ mjoin (assigned_of dv <$> files)).
  rewrite fmap_app. apply NoDup_app. split; [|split].
  - apply assigned_of_origins, Hlabels. left.
  - intros o (out1 & -> & Hin1)%list_elem_of_fmap
             (out2 & Heq & Hin2)%list_elem_of_fmap.
    apply assigned_of_inv in Hin1 as (uid1 & e1 & Hu1 & _ & _ & ->).
    apply list_elem_of_join in Hin2 as (outs & Hin2 & Houts).
    apply list_elem_of_fmap in Houts as (file2 & -> & Hfile2).
    apply assigned_of_inv in Hin2 as (uid2 & e2 & Hu2 & _ & _ & ->).
    simpl in Heq. injection Heq as Huid _. apply Hfresh.
    rewrite Hu1, Huid, <- Hu2.
    by apply (list_elem_of_fmap_2
                (λ file, FileName.unique_identifier (file_name file))).
  - apply IH; [done|]. intros file' Hin. apply Hlabels. by right.
Qed.

(** Names of the form [corpus_as_df_mp_epoch_<n>.pkl] have different
    identifiers when they are different. *)
Lemma shard_names_identify (listing : list source_file) skip :
  NoDup (file_name <$> listing) →
  (∀ file, file ∈ listing → is_source_shard file = true →
     ∃ n, FileName.all_digits n ∧ file_name file = FileName.shard_name n) →
  NoDup ((λ file, FileName.unique_identifier (file_name file))
           <$> loaded_by listing skip).
Proof.
  intros Hnames Hform.
  change (λ file : source_file, FileName.unique_identifier (file_name file))
    with (FileName.unique_identifier ∘ file_name (Columns := Columns)).
  rewrite list_fmap_compose. apply NoDup_fmap_2_strong.
  - intros x y (fx & -> & Hx)%list_elem_of_fmap (fy & -> & Hy)%list_elem_of_fmap.
    pose proof (loaded_by_source_shards listing skip) as Hsrc.
    rewrite Forall_forall in Hsrc.
    destruct (Hform fx (loaded_by_listed _ _ _ Hx) (Hsrc _ Hx)) as (nx & Hnx & ->).
    destruct (Hform fy (loaded_by_listed _ _ _ Hy) (Hsrc _ Hy)) as (ny & Hny & ->).
    rewrite !shard_name_identifier by done. intros [= Heq].
    simpl in Heq. by rewrite (app_inj_tail_string nx ny ".pkl" Heq).
  - apply (sublist_NoDup _ (file_name <$> listing)); [exact Hnames|].
    apply fmap_sublist.
    unfold loaded_by, loaded_files.
    etrans; [apply sublist_drop|apply sublist_filter].
Qed.

(** C7, as amended.  When the source shards are named
    [corpus_as_df_mp_epoch_<n>.pkl] as the ingestion step names them (no two
    files of the directory having one name) and the index labels of each
    source shard do not repeat, then in a run that returns no two rows of
    the output shards, all three subsets together, have the same origin;
    every row on disk is a row of a loaded source shard that passed both
    filters, with its word and columns and, as origin, the identifier of
    that shard paired with the row's index label; and every such row is on
    disk, once.  Such a run returns when there is room on the disk at every
    loaded shard. *)
Theorem origins_are_unique fuel listing skip tw vw trw dv data_size :
  (1 ≤ data_size)%nat →
  NoDup (file_name <$> listing) →
  (∀ file, file ∈ listing → is_source_shard file = true →
     ∃ n, FileName.all_digits n ∧ file_name file = FileName.shard_name n) →
  (∀ file, file ∈ listing → NoDup (rows_of_file file).*1) →
  (∀ s',
     split_data fuel listing skip tw vw trw dv data_size = Done s' →
     NoDup (origin <$> rows_on_disk s') ∧
     (∀ out, out ∈ rows_on_disk s' →
        ∃ file uid entry,
          file ∈ loaded_by listing skip ∧
          FileName.unique_identifier (file_name file) = Some uid ∧
          entry ∈ rows_of_file file ∧ survives dv entry = true ∧
          out_lexical_word out = lexical_word entry.2 ∧
          out_columns out = kept_columns entry.2 ∧
          origin out = (uid, entry.1)) ∧
     (∀ file uid entry,
        file ∈ loaded_by listing skip →
        FileName.unique_identifier (file_name file) = Some uid →
        entry ∈ rows_of_file file → survives dv entry = true →
        ∃ out,
          out ∈ rows_on_disk s' ∧ origin out = (uid, entry.1) ∧
          out_lexical_word out = lexical_word entry.2 ∧
          out_columns out = kept_columns entry.2) ∧
     origin <$> rows_on_disk s'
       ≡ₚ origin <$> mjoin (assigned_of dv <$> loaded_by listing skip)) ∧
  (Forall room (loaded_by listing skip) →
   (total_rows (loaded_by listing skip) ≤ fuel)%nat →
   ∃ s', split_data fuel listing skip tw vw trw dv data_size = Done s').
Proof.
  intros Hsize Hnames Hform Hlabels. split; [|by apply run_total].
  intros s' Hrun.
  apply run_spec in Hrun as (Hdisk & _); [|done].
  split; [|split; [|split]].
  - rewrite Hdisk. apply origins_NoDup.
    + by apply shard_names_identify.
    + intros file Hin. eapply Hlabels, loaded_by_listed, Hin.
  - intros out Hin. rewrite Hdisk in Hin.
    apply list_elem_of_join in Hin as (outs & Hin & Houts).
    apply list_elem_of_fmap in Houts as (file & -> & Hfile).
    apply assigned_of_inv in Hin as (uid & entry & Huid & Hentry & Hs & ->).
    by exists file, uid, entry.
  - intros file uid entry Hfile Huid Hentry Hs.
    exists (out_row uid entry). split; [|done].
    rewrite Hdisk. apply list_elem_of_join.
    exists (assigned_of dv file). split; [|by apply list_elem_of_fmap_2].
    unfold Partitioner.assigned_of. rewrite Huid.
    apply list_elem_of_fmap_2. by apply list_elem_of_filter.
  - by rewrite Hdisk.
Qed.

End PartitionerFacts.

(** *** The properties of [split_data] on sample inputs *)

Section PartitionerExamples.

Import Partitioner Examples.

Lemma row_routed_by_quota_witness :
  survives keep keep [] (0, row "a") = true ∧
  ∃ s',
    row_step keep keep "_mp_epoch_0.pkl" []
      (initial_state 0 (Split ∅ ∅ ∅), Split [] [] []) (0, row "a")
    = (s', Split [] [] [out "a" 0]) ∧
    Counter.get (on_training (words s')) "a" < 0.
Proof.
  split; [reflexivity|].
  destruct (row_routed_by_quota keep keep "_mp_epoch_0.pkl" []
              (initial_state 0 (Split ∅ ∅ ∅)) (Split [] [] []) (0, row "a")
              eq_refl)
    as (s' & Hstep & _ & _ & _ & _ & _ & Hneg & _).
  exists s'. split; [exact Hstep|].
  apply Hneg; [reflexivity|by vm_compute].
Defined.

(** C2, the claim as stated fails: a row whose word has no quota left in
    any subset is routed to training, the training quota of the word
    becomes -1, and the run returns normally. *)
Lemma negative_training_quota_is_not_fatal :
  ∃ s',
    split_data keep keep 1 [one_row "0" "a"] 0 ∅ ∅ ∅ [] 5 = Done s' ∧
    Counter.get (on_training (words s')) "a" = -1 ∧
    shards_written s' = [mkShard training 0 [out "a" 0]].
Proof.
  eexists. split; [vm_compute; reflexivity|]. split; reflexivity.
Qed.

(** C3, what the code does: the test [i % 10 == 0] reads the [i] that the
    row loop has just used as its loop variable.  Twenty source shards of
    three rows each (labels 0, 1, 2) are processed without a single save of
    the counters; three source shards of one row each (label 0) are each
    followed by a save, all under the same number 0. *)
Theorem checkpoints_follow_row_labels :
  (∃ s',
     split_data keep keep 60 twenty_shards 0 ∅ ∅ ∅ [] 5 = Done s' ∧
     checkpoints s' = [] ∧ i s' = 3) ∧
  (∃ s',
     split_data keep keep 60
       [one_row "0" "a"; one_row "1" "a"; one_row "2" "a"] 0 ∅ ∅ ∅ [] 5
     = Done s' ∧
     (λ c, (cp_place c, cp_i c)) <$> checkpoints s'
     = [(working_directory, 0); (working_directory, 0); (working_directory, 0)]).
Proof.
  split.
  - eexists. split; [vm_compute; reflexivity|]. split; reflexivity.
  - eexists. split; [vm_compute; reflexivity|]. reflexivity.
Qed.

Lemma mixed_listing_room skip : Forall room (loaded_by mixed_listing skip).
Proof.
  apply Forall_forall. intros file Hin%loaded_by_listed.
  unfold mixed_listing in Hin.
  repeat (apply elem_of_cons in Hin as [->|Hin]);
    [by vm_compute..|by apply not_elem_of_nil in Hin].
Qed.

Lemma rows_are_conserved_witness :
  (1 ≤ 2)%nat ∧
  ∃ s',
    split_data keep keep 6 mixed_listing 0 {[ "a" := 1 ]} ∅ ∅ mixed_dublicates 2
    = Done s' ∧
    (sum_list ((λ sh, length (shard_rows sh)) <$> shards_written s')
     + (log_mismatch s' + log_dublicate s')
     = total_rows (loaded_by mixed_listing 0))%nat.
Proof.
  split; [lia|].
  destruct (rows_are_conserved keep keep 6 mixed_listing 0 {[ "a" := 1 ]} ∅ ∅
              mixed_dublicates 2 ltac:(lia)) as (_ & Hsum & Hreturns).
  destruct (Hreturns (mixed_listing_room 0) ltac:(vm_compute; lia)) as [s' Hrun].
  exists s'. split; [exact Hrun|]. exact (proj1 (Hsum s' Hrun)).
Defined.

Lemma mixed_listing_named file :
  file ∈ mixed_listing → is_source_shard file = true →
  ∃ n, FileName.all_digits n ∧ file_name file = FileName.shard_name n.
Proof.
  unfold mixed_listing. intros Hin Hsrc.
  repeat (apply elem_of_cons in Hin as [->|Hin]).
  - exists "0". split; [by repeat constructor|done].
  - exists "1". split; [by repeat constructor|done].
  - exists "2". split; [by repeat constructor|done].
  - by vm_compute in Hsrc.
  - by apply not_elem_of_nil in Hin.
Qed.

Lemma mixed_listing_labels file :
  file ∈ mixed_listing → NoDup (rows_of_file file).*1.
Proof.
  unfold mixed_listing. intros Hin.
  repeat (apply elem_of_cons in Hin as [->|Hin]);
    [apply (bool_decide_unpack _); by vm_compute..
    |by apply not_elem_of_nil in Hin].
Qed.

Lemma origins_are_unique_witness :
  (1 ≤ 2)%nat ∧
  ∃ s',
    split_data keep keep 6 mixed_listing 0 {[ "a" := 1 ]} ∅ ∅ mixed_dublicates 2
    = Done s' ∧
    NoDup (origin <$> rows_on_disk s').
Proof.
  split; [lia|].
  destruct (origins_are_unique keep keep 6 mixed_listing 0 {[ "a" := 1 ]}
              ∅ ∅ mixed_dublicates 2 ltac:(lia)
              ltac:(apply (bool_decide_unpack _); by vm_compute)
              mixed_listing_named mixed_listing_labels)
    as [Hpost Hreturns].
  destruct (Hreturns (mixed_listing_room 0) ltac:(vm_compute; lia)) as [s' Hrun].
  exists s'. split; [exact Hrun|]. exact (proj1 (Hpost s' Hrun)).
Defined.

(** C7, the claim as stated fails: the origin holds the index label of
    the row, and the part of the file name that follows its first ["df"] up
    to the next one.  In a source shard in which two rows carry the label 0,
    both rows are written with the same origin; and so are the rows
    labelled 0 of two source shards whose names give the same identifier. *)
Theorem repeated_labels_repeat_origins :
  (∃ s',
     split_data keep keep 2 [MoreExamples.repeated_labels] 0 ∅ ∅ ∅ [] 5
     = Done s' ∧
     (λ r, (out_lexical_word r, origin r)) <$> rows_on_disk s'
     = [("a", ("_mp_epoch_0.pkl", 0)); ("b", ("_mp_epoch_0.pkl", 0))] ∧
     ¬ NoDup (origin <$> rows_on_disk s')) ∧
  (∃ s',
     split_data keep keep 2 MoreExamples.colliding_names 0 ∅ ∅ ∅ [] 5
     = Done s' ∧
     (λ r, (out_lexical_word r, origin r)) <$> rows_on_disk s'
     = [("a", ("_mp_epoch_0.pkl", 0)); ("b", ("_mp_epoch_0.pkl", 0))] ∧
     ¬ NoDup (origin <$> rows_on_disk s')).
Proof.
  split.
  - eexists. split; [vm_compute; reflexivity|]. split; [reflexivity|].
    intros [Hnotin _]%NoDup_cons. apply Hnotin. by left.
  - eexists. split; [vm_compute; reflexivity|]. split; [reflexivity|].
    intros [Hnotin _]%NoDup_cons. apply Hnotin. by left.
Qed.

End PartitionerExamples.

(** ** [AccedingSequenceLengthBatchSampler] *)

Section SamplerFacts.

Import Sampler.

Implicit Types (sizes l : list nat) (n : nat).

(** *** The stable argsort is an argsort *)

Lemma insert_by_Permutation sizes i l : insert_by sizes i l ≡ₚ i :: l.
Proof.
  induction l as [|j l IH]; simpl; [done|].
  case_decide; [done|]. rewrite IH. apply Permutation_swap.
Qed.

Lemma insert_by_sorted sizes i l :
  StronglySorted (λ i j, size_at sizes i ≤ size_at sizes j)%nat l →
  StronglySorted (λ i j, size_at sizes i ≤ size_at sizes j)%nat
                 (insert_by sizes i l).
Proof.
  induction 1 as [|j l Hsorted IH Hj]; simpl.
  - by repeat constructor.
  - case_decide as Hle.
    + constructor; [by constructor|]. constructor; [done|].
      eapply Forall_impl; [exact Hj|]. simpl. lia.
    + constructor; [done|]. rewrite insert_by_Permutation.
      constructor; [lia|done].
Qed.

Lemma stable_argsort_is_argsort : is_argsort stable_argsort.
Proof.
  intros sizes. unfold stable_argsort.
  induction (seq 0 (length sizes)) as [|i l [IHp IHs]]; simpl.
  - split; [done|constructor].
  - split; [by rewrite insert_by_Permutation, IHp|by apply insert_by_sorted].
Qed.

(** *** The list comprehension cuts the index list into chunks *)

Lemma ceil_div_S len n :
  (1 ≤ n)%nat → (1 ≤ len)%nat →
  ((len + n - 1) `div` n = S ((len - n + n - 1) `div` n))%nat.
Proof.
  intros Hn Hlen. destruct (decide (n ≤ len)%nat) as [Hle|Hlt].
  - replace (len + n - 1)%nat with ((len - n + n - 1) + 1 * n)%nat by lia.
    rewrite Nat.div_add by lia. lia.
  - replace (len - n + n - 1)%nat with (n - 1)%nat by lia.
    rewrite (Nat.div_small (n - 1)) by lia.
    symmetry. apply (Nat.div_unique _ _ 1 (len - 1)); lia.
Qed.

Lemma chunks_upto_spec fuel n l :
  (1 ≤ n)%nat → (length l ≤ fuel)%nat →
  chunks_upto fuel n l
  = (λ k, take n (drop (k * n) l)) <$> seq 0 ((length l + n - 1) `div` n)%nat.
Proof.
  intros Hn. revert l. induction fuel as [|fuel IH]; intros l Hfuel.
  - destruct l; [|simpl in Hfuel; lia]. simpl.
    by rewrite Nat.div_small by lia.
  - destruct l as [|x l].
    + simpl. by rewrite Nat.div_small by lia.
    + change (chunks_upto (S fuel) n (x :: l))
        with (take n (x :: l) :: chunks_upto fuel n (drop n (x :: l))).
      rewrite IH by (rewrite length_drop; simpl in *; lia).
      rewrite (ceil_div_S (length (x :: l))) by (simpl; lia).
      rewrite length_drop.
      change (seq 0 (S ?c)) with (0%nat :: seq 1 c).
      rewrite fmap_cons, <- fmap_S_seq, <- list_fmap_compose.
      f_equal. apply list_fmap_ext. intros _ k _. simpl.
      rewrite drop_drop. repeat f_equal; lia.
Qed.

Lemma batches_of_chunks l batch_size :
  0 < batch_size →
  batches_of l batch_size = Ok (chunks (Z.to_nat batch_size) l).
Proof.
  intros Hpos. destruct batch_size as [|p|p]; try lia.
  unfold batches_of, chunks, range.
  rewrite chunks_upto_spec by lia. by rewrite <- list_fmap_compose.
Qed.

Lemma chunks_nil_iff n l : (1 ≤ n)%nat → chunks n l = [] ↔ l = [].
Proof.
  intros Hn. unfold chunks. destruct l; simpl; split; done.
Qed.

(** Apart from the empty data source with [drop_last] set, [__iter__]
    yields the batches the specification describes. *)
Lemma iter_described argsort sizes batch_size drop_last :
  is_argsort argsort → 0 < batch_size →
  iter argsort sizes batch_size drop_last
  = if drop_last && bool_decide (sizes = [])
    then Error IndexError
    else Ok (described_batches (Z.to_nat batch_size) drop_last (argsort sizes)).
Proof.
  intros Hargsort Hpos. destruct (Hargsort sizes) as [Hperm _].
  unfold iter, described_batches. rewrite batches_of_chunks by done. simpl.
  destruct drop_last; simpl; [|done].
  assert (chunks (Z.to_nat batch_size) (argsort sizes) = [] ↔ sizes = []) as Hnil.
  { rewrite chunks_nil_iff by lia. split.
    - intros Hnil. rewrite Hnil in Hperm. apply Permutation_length in Hperm.
      rewrite length_seq in Hperm. by destruct sizes.
    - intros ->. by apply Permutation_nil_r in Hperm. }
  destruct (last (chunks _ _)) as [final|] eqn:Hlast.
  - rewrite bool_decide_eq_false_2.
    + repeat case_decide; (done || lia).
    + intros Hs. apply Hnil in Hs. by rewrite Hs in Hlast.
  - apply last_None in Hlast. by rewrite bool_decide_eq_true_2 by by apply Hnil.
Qed.

(** The order of three examples of lengths 5, 1 and 3 is fixed by any
    argsort. *)
Lemma argsort_5_1_3 argsort :
  is_argsort argsort → argsort [5; 1; 3]%nat = [1; 2; 0]%nat.
Proof.
  intros Hargsort. destruct (Hargsort [5; 1; 3]%nat) as [Hperm Hsorted].
  simpl in Hperm.
  pose proof (Permutation_length Hperm) as Hlen.
  destruct (argsort [5; 1; 3]%nat) as [|a [|b [|c [|? ?]]]]; try done.
  assert (a ∈ [0; 1; 2]%nat) as Ha by (rewrite <- Hperm; left).
  assert (b ∈ [0; 1; 2]%nat) as Hb by (rewrite <- Hperm; right; left).
  assert (c ∈ [0; 1; 2]%nat) as Hc by (rewrite <- Hperm; right; right; left).
  assert (NoDup [a; b; c]) as Hdup by (rewrite Hperm; by apply (NoDup_seq 0 3)).
  apply NoDup_cons in Hdup as [Hab Hdup]. apply NoDup_cons in Hdup as [Hbc _].
  apply StronglySorted_inv in Hsorted as [Hsorted Hfa].
  apply StronglySorted_inv in Hsorted as [_ Hfb].
  apply Forall_cons in Hfa as [Hab' Hfa]. apply Forall_cons in Hfa as [Hac' _].
  apply Forall_cons in Hfb as [Hbc' _].
  unfold size_at in *.
  apply elem_of_cons in Ha as [->|Ha]; [|apply elem_of_cons in Ha as [->|Ha];
    [|apply list_elem_of_singleton in Ha as ->]];
  (apply elem_of_cons in Hb as [->|Hb]; [|apply elem_of_cons in Hb as [->|Hb];
    [|apply list_elem_of_singleton in Hb as ->]]);
  (apply elem_of_cons in Hc as [->|Hc]; [|apply elem_of_cons in Hc as [->|Hc];
    [|apply list_elem_of_singleton in Hc as ->]]);
  simpl in *; try lia; try done;
  exfalso;
  solve [apply Hab; repeat constructor|apply Hbc; repeat constructor].
Qed.

End SamplerFacts.

Section SamplerClaims.

Import Sampler.

(** C9, at the input where the code leaves the description: for a data
    source without examples and [drop_last] set, the description gives no
    batches and [__len__] gives 0, but [__iter__] raises [IndexError]; the
    example of the claim (lengths 5, 1, 3 and batches of 2) comes out as
    stated. *)
Theorem sampler_raises_on_empty_drop_last :
  iter stable_argsort (sizes_of (@nil (list unit))) 2 true = Error IndexError ∧
  described_batches 2 true (stable_argsort (sizes_of (@nil (list unit)))) = [] ∧
  len (sizes_of (@nil (list unit))) 2 true = Ok 0 ∧
  iter stable_argsort [5; 1; 3]%nat 2 false = Ok [[1; 2]; [0]]%nat ∧
  iter stable_argsort [5; 1; 3]%nat 2 true = Ok [[1; 2]]%nat.
Proof. repeat split; reflexivity. Qed.

(** C10.  Over a data source without examples (and a batch size other than
    0, for which [range] raises first), [__iter__] yields no batch when
    [drop_last] is not set and raises [IndexError] when it is. *)
Theorem empty_data_source_drop_last {CP : Type} argsort batch_size :
  is_argsort argsort → batch_size ≠ 0 →
  iter argsort (sizes_of (@nil (list CP))) batch_size false = Ok [] ∧
  iter argsort (sizes_of (@nil (list CP))) batch_size true = Error IndexError.
Proof.
  intros Hargsort Hsize. destruct (Hargsort []) as [Hperm _].
  apply Permutation_nil_r in Hperm.
  unfold iter, sizes_of. simpl. rewrite Hperm.
  assert (batches_of [] batch_size = Ok []) as ->.
  { destruct batch_size as [|p|p]; [done| |done].
    unfold batches_of, range. simpl length.
    by rewrite Nat.div_small by lia. }
  done.
Qed.

Lemma empty_data_source_drop_last_witness :
  is_argsort stable_argsort ∧ 2 ≠ 0 ∧
  iter stable_argsort (sizes_of (@nil (list unit))) 2 false = Ok [] ∧
  iter stable_argsort (sizes_of (@nil (list unit))) 2 true = Error IndexError.
Proof.
  split; [exact stable_argsort_is_argsort|]. split; [lia|].
  apply (empty_data_source_drop_last stable_argsort 2);
    [exact stable_argsort_is_argsort|lia].
Defined.

End SamplerClaims.

(** ** [collate_batch_with_padding] *)

Section CollateFacts.

Import Collate.

Lemma max_of_max_list x (l : list nat) : max_of (x :: l) = Ok (max_list (x :: l)).
Proof.
  unfold max_of. f_equal. revert x. induction l as [|y l IH]; intros x; simpl.
  - lia.
  - rewrite IH. simpl. lia.
Qed.

Lemma max_list_attained (l : list nat) : l ≠ [] → max_list l ∈ l.
Proof.
  induction l as [|x l IH]; [done|]. intros _. simpl.
  destruct l as [|y l].
  - simpl. rewrite Nat.max_0_r. left.
  - destruct (Nat.max_spec x (max_list (y :: l))) as [[_ ->]|[_ ->]].
    + right. by apply IH.
    + left.
Qed.

Lemma pad_tensor_spec {T} (tensor : list T) target_length :
  (1 ≤ length tensor ≤ target_length)%nat →
  pad_tensor tensor target_length false
  = Ok (padded target_length tensor, validity target_length (length tensor)).
Proof.
  intros Hlen. unfold pad_tensor, padded, validity.
  rewrite bool_decide_eq_false_2 by lia. simpl.
  destruct (last tensor) as [x|] eqn:Hlast.
  - case_decide as Heq.
    + rewrite Heq, Nat.sub_diag. simpl. by rewrite !app_nil_r.
    + by rewrite decide_False by lia.
  - apply last_None in Hlast. subst tensor. simpl in Hlen. lia.
Qed.

Lemma padded_length {T} (tensor : list T) target_length :
  (1 ≤ length tensor ≤ target_length)%nat →
  length (padded target_length tensor) = target_length.
Proof.
  intros Hlen. unfold padded. destruct (last tensor) as [x|] eqn:Hlast.
  - rewrite length_app, length_replicate. lia.
  - apply last_None in Hlast. subst tensor. simpl in Hlen. lia.
Qed.

Lemma validity_length target_length n :
  (n ≤ target_length)%nat → length (validity target_length n) = target_length.
Proof.
  intros Hn. unfold validity. rewrite length_app, !length_replicate. lia.
Qed.

Lemma stack_same_length {T} (tensors : list (list T)) n :
  tensors ≠ [] → Forall (λ t, length t = n) tensors → stack tensors = Ok tensors.
Proof.
  intros Hne Hall. destruct tensors as [|t ts]; [done|]. unfold stack.
  apply Forall_cons in Hall as [Ht Hts].
  rewrite (proj2 (forallb_forall _ _)); [done|].
  intros u Hu%list_elem_of_In. apply bool_decide_eq_true.
  rewrite Forall_forall in Hts. rewrite Ht. by apply Hts.
Qed.

Context {CP MEL : Type}.

Implicit Types (batch : list (list CP * list MEL)).

Lemma collate_loop M Mh batch (acc : locals CP MEL) :
  (Mh * 2 = M)%nat →
  (∀ sample, sample ∈ batch →
     (length sample.1 = 2 * length sample.2 ∧ 1 ≤ length sample.2
      ∧ length sample.1 ≤ M)%nat) →
  foldl (collate_step M Mh) (Ok acc) batch
  = Ok (mkLocals
          (padded_cps acc ++ ((λ sample, padded M sample.1) <$> batch))
          (padded_melspecs acc ++ ((λ sample, padded Mh sample.2) <$> batch))
          (mask acc ++ ((λ sample, validity Mh (length sample.2)) <$> batch))).
Proof.
  intros Heven. revert acc. induction batch as [|sample batch IH]; intros acc Hall.
  - simpl. rewrite !app_nil_r. by destruct acc.
  - change (foldl ?f ?a (sample :: batch)) with (foldl f (f a sample) batch).
    destruct (Hall sample) as (Hratio & Hmel & Hcp); [left|].
    assert (collate_step M Mh (Ok acc) sample
            = Ok (mkLocals (padded_cps acc ++ [padded M sample.1])
                    (padded_melspecs acc ++ [padded Mh sample.2])
                    (mask acc ++ [validity Mh (length sample.2)])))
      as ->.
    { unfold collate_step. simpl.
      rewrite (pad_tensor_spec sample.2) by lia. simpl.
      rewrite (pad_tensor_spec sample.1) by lia. simpl.
      rewrite decide_True; [done|].
      rewrite !padded_length by lia. lia. }
    rewrite IH by (intros s Hs; apply Hall; by right).
    simpl. by rewrite <- !(assoc_L (++)).
Qed.

Lemma validity_lookup target_length n t :
  (n ≤ target_length)%nat → (t < target_length)%nat →
  validity target_length n !! t = Some (bool_decide (t < n)%nat).
Proof.
  intros Hn Ht. unfold validity. destruct (decide (t < n)%nat) as [Hlt|Hge].
  - rewrite lookup_app_l by (rewrite length_replicate; lia).
    rewrite bool_decide_eq_true_2 by done. by apply lookup_replicate_2.
  - rewrite lookup_app_r by (rewrite length_replicate; lia).
    rewrite bool_decide_eq_false_2 by done.
    apply lookup_replicate_2. rewrite length_replicate. lia.
Qed.

(** C4 (as amended).  For a batch that is not empty and whose examples each
    have at least one spectrogram timestep and exactly twice as many
    articulatory timesteps, every articulatory sequence is padded to the
    longest articulatory length of the batch and every spectrogram sequence
    to half of it, by repeating the last timestep of the sequence; the two
    padded lists are what is returned.  The mask kept for an example is the
    one of its spectrogram sequence: it has half the longest articulatory
    length and is true exactly on the example's own spectrogram timesteps.
    For articulatory lengths 6, 4, 10 the mask of the second example is
    [1,1,0,0,0]. *)
Theorem collate_pads_to_batch_maximum batch :
  batch ≠ [] →
  (∀ sample, sample ∈ batch →
     (length sample.1 = 2 * length sample.2 ∧ 1 ≤ length sample.2)%nat) →
  let max_length_cps := max_list ((λ sample, length sample.1) <$> batch) in
  let max_length_melspecs := (max_length_cps `div` 2)%nat in
  (∀ sample, sample ∈ batch → (length sample.1 ≤ max_length_cps)%nat) ∧
  (∃ sample, sample ∈ batch ∧ length sample.1 = max_length_cps) ∧
  collate_locals batch
  = Ok (mkLocals
          ((λ sample, padded max_length_cps sample.1) <$> batch)
          ((λ sample, padded max_length_melspecs sample.2) <$> batch)
          ((λ sample, validity max_length_melspecs (length sample.2)) <$> batch)) ∧
  collate_batch_with_padding batch
  = Ok ((λ sample, padded max_length_cps sample.1) <$> batch,
        (λ sample, padded max_length_melspecs sample.2) <$> batch) ∧
  (∀ sample, sample ∈ batch →
     length (padded max_length_cps sample.1) = max_length_cps ∧
     length (padded max_length_melspecs sample.2) = max_length_melspecs ∧
     length (validity max_length_melspecs (length sample.2))
       = max_length_melspecs ∧
     (∃ x, last sample.1 = Some x ∧
           padded max_length_cps sample.1
           = sample.1 ++ replicate (max_length_cps - length sample.1) x) ∧
     (∃ y, last sample.2 = Some y ∧
           padded max_length_melspecs sample.2
           = sample.2 ++ replicate (max_length_melspecs - length sample.2) y) ∧
     (∀ t, (t < max_length_melspecs)%nat →
           validity max_length_melspecs (length sample.2) !! t
           = Some (bool_decide (t < length sample.2)%nat))) ∧
  validity (10 `div` 2) 2 = [true; true; false; false; false].
Proof.
  intros Hne Hall M Mh.
  assert (∀ sample, sample ∈ batch → (length sample.1 ≤ M)%nat) as Hle.
  { intros sample Hin. apply max_list_elem_of_le.
    by apply (list_elem_of_fmap_2 (λ sample, length sample.1)). }
  assert (∃ sample, sample ∈ batch ∧ length sample.1 = M) as Hmax.
  { assert ((λ sample, length sample.1) <$> batch ≠ []) as Hlens
      by by destruct batch.
    apply max_list_attained, list_elem_of_fmap_1 in Hlens
      as (sample & Hlen & Hin).
    by exists sample. }
  assert (Mh * 2 = M)%nat as Heven.
  { destruct Hmax as (sample & Hin & Hlen). destruct (Hall sample Hin) as [Hr _].
    subst Mh. rewrite <- Hlen, Hr, (Nat.mul_comm 2), Nat.div_mul by lia. lia. }
  assert (∀ sample, sample ∈ batch →
            (1 ≤ length sample.1 ≤ M ∧ 1 ≤ length sample.2 ≤ Mh)%nat) as Hlens.
  { intros sample Hin. destruct (Hall sample Hin). specialize (Hle sample Hin). lia. }
  assert (collate_locals batch
          = Ok (mkLocals ((λ sample, padded M sample.1) <$> batch)
                  ((λ sample, padded Mh sample.2) <$> batch)
                  ((λ sample, validity Mh (length sample.2)) <$> batch)))
    as Hlocals.
  { unfold collate_locals. destruct batch as [|s b]; [done|].
    rewrite fmap_cons, max_of_max_list.
    change (max_list (length s.1 :: ((λ sample, length sample.1) <$> b))) with M.
    change (Ok M ≫= _)
      with (foldl (collate_step M Mh) (Ok (mkLocals [] [] [])) (s :: b)).
    rewrite (collate_loop M Mh); [done|done|].
    intros sample Hin. destruct (Hall sample Hin). specialize (Hle sample Hin). lia. }
  split; [done|]. split; [done|]. split; [done|]. split; [|split; [|done]].
  - unfold collate_batch_with_padding. rewrite Hlocals. simpl.
    rewrite (stack_same_length ((λ sample, padded M sample.1) <$> batch) M).
    + simpl.
      rewrite (stack_same_length ((λ sample, padded Mh sample.2) <$> batch) Mh).
      * done.
      * by destruct batch.
      * apply Forall_fmap, Forall_forall. intros sample Hin. simpl.
        apply padded_length. by apply Hlens.
    + by destruct batch.
    + apply Forall_fmap, Forall_forall. intros sample Hin. simpl.
      apply padded_length. by apply Hlens.
  - intros sample Hin. destruct (Hlens sample Hin) as [Hcp Hmel].
    split; [by apply padded_length|]. split; [by apply padded_length|].
    split; [apply validity_length; lia|].
    split; [|split].
    + unfold padded. destruct (last sample.1) as [x|] eqn:Hlast; [eauto|].
      apply last_None in Hlast. rewrite Hlast in Hcp. simpl in Hcp. lia.
    + unfold padded. destruct (last sample.2) as [y|] eqn:Hlast; [eauto|].
      apply last_None in Hlast. rewrite Hlast in Hmel. simpl in Hmel. lia.
    + intros t Ht. apply validity_lookup; lia.
Qed.

End CollateFacts.

Section CollateExamples.

Import Collate Examples.

Lemma collate_pads_to_batch_maximum_witness :
  [sample 3; sample 2; sample 5] ≠ [] ∧
  ∃ l, collate_locals [sample 3; sample 2; sample 5] = Ok l ∧
       length <$> padded_cps l = [10; 10; 10]%nat ∧
       length <$> padded_melspecs l = [5; 5; 5]%nat ∧
       mask l !! 1%nat = Some [true; true; false; false; false].
Proof.
  split; [done|].
  destruct (collate_pads_to_batch_maximum [sample 3; sample 2; sample 5])
    as (_ & _ & Hlocals & _); [done| |].
  - intros s Hs. repeat (apply elem_of_cons in Hs as [->|Hs]);
      try (simpl; lia). by apply not_elem_of_nil in Hs.
  - eexists. split; [exact Hlocals|]. repeat split; reflexivity.
Defined.

(** C4, the claim as stated fails: for articulatory lengths 6, 4, 10 the
    mask kept for the example of length 4 has 5 entries, not 10.  (And an
    example without timesteps, next to a longer one, cannot be padded at
    all: [pad_tensor] reads its last timestep.) *)
Lemma collate_mask_is_at_spectrogram_scale :
  (∃ l, collate_locals [sample 3; sample 2; sample 5] = Ok l ∧
        length (sample 2).1 = 4%nat ∧
        mask l !! 1%nat = Some [true; true; false; false; false] ∧
        mask l !! 1%nat
        ≠ Some [true; true; true; true; false; false; false; false; false; false]) ∧
  collate_locals [sample 0; sample 1] = Error IndexError.
Proof.
  split; [|reflexivity].
  eexists. split; [reflexivity|]. split; [reflexivity|]. split; [reflexivity|].
  discriminate.
Qed.

End CollateExamples.

(** * Further properties *)

(** ** More on [split_words] *)

Section SplitWordsMore.

Import WordQuota Report.

Implicit Types (words : gmap string Z) (word : string).

Lemma total_empty : total ∅ = 0.
Proof. unfold total. apply map_fold_empty. Qed.

Lemma total_insert words word n :
  words !! word = None → total (<[word := n]> words) = n + total words.
Proof.
  intros Hfresh. unfold total.
  rewrite map_fold_insert_L; [done| |done]. intros. lia.
Qed.

Lemma total_fmap_split (f g h : Z → Z) words :
  (∀ c, f c + g c + h c = c) →
  total (f <$> words) + total (g <$> words) + total (h <$> words) = total words.
Proof.
  intros Hsum. induction words as [|word c words Hfresh IH] using map_ind.
  - by rewrite !fmap_empty, total_empty.
  - rewrite !fmap_insert.
    rewrite !total_insert by (by rewrite ?lookup_fmap, Hfresh).
    specialize (Hsum c). lia.
Qed.

(** The three amounts computed for a count, whatever the count. *)
Definition amounts (c : Z) : quota := default (Quota 0 0 0) (word_quota c).

Lemma word_quota_amounts c : word_quota c = Some (amounts c).
Proof. unfold amounts. by destruct (word_quota_total c) as [q ->]. Qed.

Lemma amounts_sum c :
  q_test (amounts c) + q_validation (amounts c) + q_training (amounts c) = c.
Proof.
  pose proof (word_quota_amounts c) as Hq. revert Hq.
  generalize (amounts c). intros q. unfold word_quota. cbv zeta.
  case_decide as Hsum; [|done]. intros [= <-]. simpl. lia.
Qed.

Lemma distribute_fmap words :
  distribute words
  = Some (Split ((q_test ∘ amounts) <$> words)
                ((q_validation ∘ amounts) <$> words)
                ((q_training ∘ amounts) <$> words)).
Proof.
  destruct (distribute_lookup words) as ([t v tr] & -> & Hlook). simpl in Hlook.
  f_equal. f_equal; apply map_eq; intros word;
    destruct (Hlook word) as (Ht & Hv & Htr);
    rewrite lookup_fmap; destruct (words !! word) as [c|]; simpl in *;
    rewrite ?word_quota_amounts in *; done.
Qed.

Lemma listed_app word column1 column2 :
  listed word (column1 ++ column2) = listed word column1 + listed word column2.
Proof. unfold listed. rewrite filter_app, length_app. lia. Qed.

Lemma listed_Permutation word column1 column2 :
  column1 ≡ₚ column2 → listed word column1 = listed word column2.
Proof. intros Hperm. unfold listed. by rewrite Hperm. Qed.

Lemma positive_ext words1 words2 :
  Counter.positive words1 → Counter.positive words2 →
  (∀ word, Counter.get words1 word = Counter.get words2 word) →
  words1 = words2.
Proof.
  intros Hpos1 Hpos2 Hget. apply map_eq. intros word. specialize (Hget word).
  destruct (words1 !! word) as [c1|] eqn:E1, (words2 !! word) as [c2|] eqn:E2.
  - rewrite (get_present _ _ _ E1), (get_present _ _ _ E2) in Hget. congruence.
  - rewrite (get_present _ _ _ E1), (get_absent _ _ E2) in Hget.
    pose proof (positive_lookup _ _ _ Hpos1 E1). lia.
  - rewrite (get_absent _ _ E1), (get_present _ _ _ E2) in Hget.
    pose proof (positive_lookup _ _ _ Hpos2 E2). lia.
  - done.
Qed.

Lemma corrected_words_get words incongruent_words dublicate_vectors word :
  Counter.positive words →
  Counter.get (corrected_words words incongruent_words dublicate_vectors) word
  = Z.max 0 (Counter.get words word
             - listed word (incongruent_words ++ dublicate_vectors)).
Proof.
  intros Hpos. unfold corrected_words.
  rewrite remove_listed_get by by apply remove_listed_positive.
  rewrite remove_listed_get by done. rewrite listed_app.
  pose proof (listed_nonneg word incongruent_words).
  pose proof (listed_nonneg word dublicate_vectors). lia.
Qed.

(** X1.  The quota computation of [split_words] never fails: whatever the
    counts (also zero or negative ones), the closing [assert] holds.  The
    three resulting counters have exactly the words of the corrected counter
    as keys, for every word the three quotas add up to its corrected count,
    and the three totals that the function prints add up to
    [words.total()]. *)
Theorem split_words_totals
    (words : gmap string Z) (incongruent_words dublicate_vectors : list string) :
  let corrected := corrected_words words incongruent_words dublicate_vectors in
  ∃ qs,
    split_words words incongruent_words dublicate_vectors = Some qs ∧
    dom (on_test qs) = dom corrected ∧
    dom (on_validation qs) = dom corrected ∧
    dom (on_training qs) = dom corrected ∧
    (∀ word,
       Counter.get (on_test qs) word + Counter.get (on_validation qs) word
       + Counter.get (on_training qs) word = Counter.get corrected word) ∧
    total (on_test qs) + total (on_validation qs) + total (on_training qs)
    = total corrected.
Proof.
  intros corrected. unfold split_words. fold corrected.
  rewrite distribute_fmap. eexists. split; [done|]. simpl.
  rewrite !dom_fmap_L. repeat split.
  - intros word. unfold Counter.get. rewrite !lookup_fmap.
    destruct (corrected !! word) as [c|]; simpl; [apply amounts_sum|done].
  - apply total_fmap_split. intros c. simpl. apply amounts_sum.
Qed.

(** X2.  A word whose corrected count is [c ≥ 2] gets the same quota
    [⌈c / 10⌉] for test and for validation and [c - 2·⌈c / 10⌉] for
    training; the training quota is 0 exactly for [c = 2]. *)
Theorem split_words_quota_shape
    (words : gmap string Z) (incongruent_words dublicate_vectors : list string)
    (word : string) (c : Z) :
  corrected_words words incongruent_words dublicate_vectors !! word = Some c →
  2 ≤ c →
  ∃ qs t,
    split_words words incongruent_words dublicate_vectors = Some qs ∧
    on_test qs !! word = Some t ∧
    on_validation qs !! word = Some t ∧
    on_training qs !! word = Some (c - 2 * t) ∧
    t = ceil_div c 10 ∧ 10 * (t - 1) < c ≤ 10 * t ∧
    (c - 2 * t = 0 ↔ c = 2).
Proof.
  intros Hword Hc. unfold split_words. rewrite distribute_fmap.
  eexists. exists (ceil_div c 10). split; [done|]. simpl.
  rewrite !lookup_fmap, Hword. simpl.
  pose proof (word_quota_amounts c) as Hq. revert Hq.
  generalize (amounts c). intros q. unfold word_quota. cbv zeta.
  pose proof (ceil_div_bounds c 10 ltac:(lia)) as Hten.
  set (ten := ceil_div c 10) in *.
  destruct (decide (ten > 1)) as [Hbig|Hsmall].
  - pose proof (ceil_div_bounds (c - ten) 2 ltac:(lia)) as Hhalf.
    destruct (decide (ten < ceil_div (c - ten) 2)) as [?|Hge].
    + case_decide; [|lia]. intros [= <-]. simpl.
      repeat split; try done; try (f_equal; lia); lia.
    + case_decide; [|lia]. intros [= <-]. simpl.
      assert (ceil_div (c - ten) 2 = ten) as -> by lia.
      repeat split; try done; try (f_equal; lia); lia.
  - assert (ten = 1) as Hone by lia. rewrite Hone in *.
    pose proof (ceil_div_bounds (c - 1) 2 ltac:(lia)) as Hhalf.
    destruct (decide (1 < ceil_div (c - 1) 2)) as [?|Hge].
    + case_decide; [|lia]. intros [= <-]. simpl.
      repeat split; try done; try (f_equal; lia); lia.
    + case_decide; [|lia]. intros [= <-]. simpl.
      assert (ceil_div (c - 1) 2 = 1) as -> by lia.
      repeat split; try done; try (f_equal; lia); lia.
Qed.

(** X3.  On a raw word count (every stored count at least 1) the corrected
    counter depends only on how often each word is listed in the two
    correction lists together: their order, and which of the two lists an
    occurrence stands in, make no difference. *)
Theorem corrections_commute
    (words : gmap string Z)
    (incongruent_words dublicate_vectors incongruent_words' dublicate_vectors'
       : list string) :
  Counter.positive words →
  incongruent_words ++ dublicate_vectors
    ≡ₚ incongruent_words' ++ dublicate_vectors' →
  corrected_words words incongruent_words dublicate_vectors
  = corrected_words words incongruent_words' dublicate_vectors'.
Proof.
  intros Hpos Hperm.
  apply positive_ext;
    try by (unfold corrected_words; do 2 apply remove_listed_positive).
  intros word. rewrite !corrected_words_get by done.
  by rewrite (listed_Permutation _ _ _ Hperm).
Qed.

Lemma positive_total words :
  Counter.positive words → 0 ≤ total words ∧ (total words = 0 → words = ∅).
Proof.
  induction words as [|word c words Hfresh IH] using map_ind; intros Hpos.
  - by rewrite total_empty.
  - apply map_Forall_insert in Hpos as [Hc Hpos]; [|done].
    rewrite total_insert by done. destruct (IH Hpos) as [Hnonneg _].
    split; lia.
Qed.

(** X4.  Before it saves anything, [split_words] prints the shares of the
    three totals in [words.total()].  On a raw word count (every stored
    count at least 1) this division raises [ZeroDivisionError] exactly when
    the two correction lists together list every word at least as often as
    it was counted, so that no word is left; otherwise the quotas are
    computed and the function goes on to save them.  The closing [assert]
    of the quota loop never fires. *)
Theorem split_words_report
    (words : gmap string Z) (incongruent_words dublicate_vectors : list string) :
  Counter.positive words →
  (split_words_checked words incongruent_words dublicate_vectors
     = Error ZeroDivisionError
   ↔ ∀ word, Counter.get words word
             ≤ listed word (incongruent_words ++ dublicate_vectors)) ∧
  (split_words_checked words incongruent_words dublicate_vectors
     ≠ Error ZeroDivisionError →
   ∃ qs, split_words_checked words incongruent_words dublicate_vectors = Ok qs ∧
         split_words words incongruent_words dublicate_vectors = Some qs) ∧
  split_words_checked words incongruent_words dublicate_vectors
    ≠ Error AssertionError.
Proof.
  intros Hpos.
  assert (Counter.positive
            (corrected_words words incongruent_words dublicate_vectors)) as Hpos'
    by (unfold corrected_words; by do 2 apply remove_listed_positive).
  assert (total (corrected_words words incongruent_words dublicate_vectors) = 0
          ↔ ∀ word, Counter.get words word
                    ≤ listed word (incongruent_words ++ dublicate_vectors))
    as Hzero.
  { split.
    - intros Hz%(proj2 (positive_total _ Hpos')) word.
      pose proof (corrected_words_get words incongruent_words
                    dublicate_vectors word Hpos) as Hget.
      rewrite Hz in Hget. unfold Counter.get at 1 in Hget.
      rewrite lookup_empty in Hget. simpl in Hget. lia.
    - intros Hall.
      assert (corrected_words words incongruent_words dublicate_vectors = ∅)
        as ->; [|apply total_empty].
      apply positive_ext; [done|apply map_Forall_empty|].
      intros word. rewrite corrected_words_get by done.
      unfold Counter.get at 2. rewrite lookup_empty. simpl.
      specialize (Hall word). lia. }
  unfold split_words_checked, split_words. rewrite distribute_fmap.
  case_decide as Htotal.
  - split; [|split; [done|done]].
    split; [intros _; by apply Hzero|done].
  - split; [|split; [eauto|done]].
    split; [done|]. intros Hall. by apply Hzero in Hall.
Qed.

End SplitWordsMore.

(** ** More on [split_data] *)

Section PartitionerStreams.

Import Partitioner Streams.

Context {Columns : Type}.
Variables replace_special_chars lower : string → string.

Local Abbreviation state := (Partitioner.state Columns).
Local Abbreviation OutRow := (Partitioner.OutRow Columns).
Local Abbreviation Row := (Partitioner.Row Columns).
Local Abbreviation source_file := (Partitioner.source_file Columns).
Local Abbreviation survives := (Partitioner.survives replace_special_chars lower).
Local Abbreviation row_step := (Partitioner.row_step replace_special_chars lower).
Local Abbreviation file_step := (Partitioner.file_step replace_special_chars lower).
Local Abbreviation file_loop := (Partitioner.file_loop replace_special_chars lower).
Local Abbreviation split_data := (Partitioner.split_data replace_special_chars lower).
Local Abbreviation assigned_of := (Partitioner.assigned_of replace_special_chars lower).

Implicit Types (s : state) (rows : split (list OutRow)) (k : subset)
  (entry : Z * Row) (dv : list (Z * string)) (file : source_file).

(** *** The shape of a step and of a run that return *)

Lemma file_step_Done_inv fuel data_size dv s file s' :
  (1 ≤ data_size)%nat → skip_index s ≤ 0 → is_source_shard file = true →
  file_step fuel data_size dv s file = Done s' →
  room file ∧
  ((data file = None ∧ s' = s) ∨
   ∃ frame uid s1 rows1 n1 n2 n3,
     data file = Some frame ∧
     FileName.unique_identifier (file_name file) = Some uid ∧
     foldl (row_step uid dv) (s, Split [] [] []) frame = (s1, rows1) ∧
     fits test n1 data_size (concat_rows rows1 s1) ∧
     fits validation n2 data_size
       (flushed test n1 data_size (concat_rows rows1 s1)) ∧
     fits training n3 data_size
       (flushed validation n2 data_size
          (flushed test n1 data_size (concat_rows rows1 s1))) ∧
     s' = close_file (flushed_all n1 n2 n3 data_size (concat_rows rows1 s1))).
Proof.
  intros Hsize Hskip [Hend [uid Huid]]%is_source_shard_inv.
  unfold Partitioner.file_step.
  rewrite decide_False by lia. rewrite Hend, Huid.
  case_decide as Hroom; [done|].
  intros Hstep. split; [unfold room; lia|]. revert Hstep.
  destruct (data file) as [frame|]; simpl; [|intros [= <-]; by left].
  destruct (foldl (row_step uid dv) (s, Split [] [] []) frame)
    as [s1 rows1] eqn:Hrows.
  set (s2 := concat_rows rows1 s1).
  destruct (flush_spec fuel data_size test s2 Hsize)
    as [[-> _]|(n1 & Hn1 & ->)]; [done|]. simpl.
  destruct (flush_spec fuel data_size validation
              (flushed test n1 data_size s2) Hsize)
    as [[-> _]|(n2 & Hn2 & ->)]; [done|]. simpl.
  destruct (flush_spec fuel data_size training
              (flushed validation n2 data_size (flushed test n1 data_size s2)) Hsize)
    as [[-> _]|(n3 & Hn3 & ->)]; [done|]. simpl.
  intros [= <-]. right. by exists frame, uid, s1, rows1, n1, n2, n3.
Qed.

Lemma saved_frame k (frame : list OutRow) idx s :
  df (saved k frame idx s) = df s ∧ index (saved k frame idx s) = index s.
Proof. by destruct frame. Qed.

Lemma split_data_Done_inv fuel listing skip tw vw trw dv data_size s' :
  (1 ≤ data_size)%nat →
  split_data fuel listing skip tw vw trw dv data_size = Done s' →
  ∃ s,
    file_loop fuel data_size dv
      (filter (λ file, is_source_shard file = true) listing)
      (initial_state skip (Split tw vw trw)) = Done s ∧
    tidy data_size s ∧ s' = saved_all s.
Proof.
  intros Hsize. unfold Partitioner.split_data.
  destruct (Partitioner.file_loop _ _ _ _ _ _ _) as [s| |] eqn:Hloop; simpl; [|done..].
  pose proof Hloop as Hspec.
  apply file_loop_spec in Hspec as (_ & _ & Htidy);
    [|done|apply filtered_are_source_shards].
  specialize (Htidy (initial_state_tidy _ _ _ Hsize)).
  destruct Htidy as (Hok & Hix & Hshort).
  pose proof (Hshort test) as Ht. pose proof (Hshort validation) as Hv.
  pose proof (Hshort training) as Htr. unfold short in Ht, Hv, Htr. simpl in *.
  rewrite split_and_save_short by done. simpl.
  destruct (saved_frame test (on_test (df s)) (on_test (index s)) s)
    as [Hdf1 Hidx1].
  set (s1 := saved test _ _ s) in *. rewrite Hdf1, Hidx1.
  rewrite split_and_save_short by done. simpl.
  destruct (saved_frame validation (on_validation (df s))
              (on_validation (index s)) s1) as [Hdf2 Hidx2].
  set (s2 := saved validation _ _ s1) in *. rewrite Hdf2, Hidx2, Hdf1, Hidx1.
  rewrite split_and_save_short by done.
  intros [= <-]. exists s. by repeat split.
Qed.

(** *** Skipped files *)

Lemma set_skip_index_id s : set_skip_index (skip_index s) s = s.
Proof. by destruct s. Qed.

Lemma file_loop_skips fuel data_size dv (files : list source_file) s :
  ∃ m,
    file_loop fuel data_size dv files s
    = file_loop fuel data_size dv (loaded_files (skip_index s) files)
        (set_skip_index m s) ∧
    (loaded_files (skip_index s) files ≠ [] → m ≤ 0) ∧
    (0 ≤ skip_index s ≤ Z.of_nat (length files) → m = 0) ∧
    (Z.of_nat (length files) < skip_index s →
     m = skip_index s - Z.of_nat (length files)).
Proof.
  revert s. induction files as [|file files IH]; intros s.
  - exists (skip_index s). unfold loaded_files. rewrite drop_nil. simpl.
    rewrite set_skip_index_id. repeat split; try done; lia.
  - destruct (decide (skip_index s > 0)) as [Hskip|Hskip].
    + destruct (IH (set_skip_index (skip_index s - 1) s))
        as (m & Hloop & Hm1 & Hm2 & Hm3).
      exists m. simpl in *. rewrite file_step_skip by done. simpl.
      rewrite loaded_files_skip by done.
      split; [exact Hloop|]. repeat split; [done|intros; lia|intros; lia].
    + exists (skip_index s). rewrite loaded_files_all by lia.
      rewrite set_skip_index_id. simpl length.
      repeat split; try done; lia.
Qed.

(** Induction over a loop that returns and skips nothing. *)
Lemma file_loop_Done_ind fuel data_size dv
    (P : state → list source_file → state → Prop) :
  (1 ≤ data_size)%nat →
  (∀ s, P s [] s) →
  (∀ s file s1 files s',
     skip_index s ≤ 0 → is_source_shard file = true →
     Forall (λ file, is_source_shard file = true) files →
     file_step fuel data_size dv s file = Done s1 →
     skip_index s1 ≤ 0 →
     file_loop fuel data_size dv files s1 = Done s' →
     P s1 files s' → P s (file :: files) s') →
  ∀ files s s',
    Forall (λ file, is_source_shard file = true) files →
    (files ≠ [] → skip_index s ≤ 0) →
    file_loop fuel data_size dv files s = Done s' → P s files s'.
Proof.
  intros Hsize Hnil Hcons files s s' Hfiles. revert s.
  induction Hfiles as [|file files Hfile Hfiles IH]; intros s Hskip.
  - simpl. intros [= <-]. apply Hnil.
  - simpl. specialize (Hskip ltac:(done)).
    destruct (Partitioner.file_step _ _ _ _ _ s file) as [s1| |] eqn:Hstep;
      simpl; [|done..].
    intros Hloop.
    pose proof Hstep as Hspec.
    apply file_step_spec in Hspec as (_ & _ & Hskip1 & _); [|done..].
    apply (Hcons s file s1 files s'); try done; [lia|].
    apply IH; [|done]. intros _. lia.
Qed.

(** *** Saving the counters *)

Lemma row_step_i uid dv s rows entry :
  i (row_step uid dv (s, rows) entry).1 = entry.1.
Proof.
  unfold Partitioner.row_step. destruct entry as [j row]. simpl.
  repeat (case_decide || destruct (has_dublicate_vector _ _ _)); done.
Qed.

Lemma row_loop_i uid dv (frame : list (Z * Row)) s rows :
  i (foldl (row_step uid dv) (s, rows) frame).1
  = default (i s) (fst <$> last frame).
Proof.
  revert s rows. induction frame as [|entry frame IH]; intros s rows; [done|].
  change (foldl (row_step uid dv) (s, rows) (entry :: frame))
    with (foldl (row_step uid dv) (row_step uid dv (s, rows) entry) frame).
  pose proof (row_step_i uid dv s rows entry) as Hi.
  destruct (row_step uid dv (s, rows) entry) as [s1 rows1]. simpl in Hi.
  rewrite IH, Hi. destruct frame as [|entry' frame]; [done|].
  rewrite last_cons_cons.
  destruct (last (entry' :: frame)) eqn:Hlast; [done|].
  by apply last_None in Hlast.
Qed.

Lemma close_file_spec s :
  i (close_file s) = i s + 1 ∧ words (close_file s) = words s ∧
  df (close_file s) = df s ∧ index (close_file s) = index s ∧
  shards_written (close_file s) = shards_written s ∧
  skip_index (close_file s) = skip_index s ∧
  checkpoints (close_file s)
  = checkpoints s
    ++ (if decide (i s `mod` 10 = 0)
        then [mkCheckpoint working_directory (i s) (words s)] else []).
Proof.
  unfold close_file. case_decide; simpl; by rewrite ?app_nil_r.
Qed.

Lemma file_step_checkpoint fuel data_size dv s file s' :
  (1 ≤ data_size)%nat → skip_index s ≤ 0 → is_source_shard file = true →
  file_step fuel data_size dv s file = Done s' →
  match data file with
  | None => s' = s
  | Some frame =>
      let j := default (i s) (fst <$> last frame) in
      i s' = j + 1 ∧
      checkpoints s'
      = checkpoints s
        ++ (if decide (j `mod` 10 = 0)
            then [mkCheckpoint working_directory j (words s')] else [])
  end.
Proof.
  intros Hsize Hskip Hfile Hstep.
  destruct (file_step_Done_inv _ _ _ _ _ _ Hsize Hskip Hfile Hstep)
    as [_ [[-> ->]|(frame & uid & s1 & rows1 & n1 & n2 & n3 & -> & _ & Hrows
                    & _ & _ & _ & ->)]]; [done|].
  pose proof (row_loop_i uid dv frame s (Split [] [] [])) as Hi.
  destruct (row_loop_spec replace_special_chars lower uid dv frame s (Split [] [] []))
    as (? & ? & Hrows' & _ & _ & _ & _ & _ & _ & Hcp).
  rewrite Hrows in Hi, Hrows'. simpl in Hi. injection Hrows' as <- <-.
  destruct (close_file_spec
              (flushed_all n1 n2 n3 data_size (concat_rows rows1 s1)))
    as (Hi' & Hw' & _ & _ & _ & _ & Hcp').
  simpl in *. rewrite Hi', Hcp', Hw', Hi, Hcp. done.
Qed.

Lemma file_loop_checkpoints fuel data_size dv (files : list source_file) s s' :
  (1 ≤ data_size)%nat →
  Forall (λ file, is_source_shard file = true) files →
  (files ≠ [] → skip_index s ≤ 0) →
  file_loop fuel data_size dv files s = Done s' →
  (∀ file, file ∈ files → data file ≠ Some []) →
  (λ c, (cp_place c, cp_i c)) <$> checkpoints s'
  = ((λ c, (cp_place c, cp_i c)) <$> checkpoints s)
    ++ ((λ j, (working_directory, j))
          <$> filter (λ j, j `mod` 10 = 0) (omap last_label files)).
Proof.
  intros Hsize Hfiles Hskip Hloop. revert files s s' Hfiles Hskip Hloop.
  apply (file_loop_Done_ind fuel data_size dv
           (λ s files s',
              (∀ file, file ∈ files → data file ≠ Some []) →
              (λ c, (cp_place c, cp_i c)) <$> checkpoints s'
              = ((λ c, (cp_place c, cp_i c)) <$> checkpoints s)
                ++ ((λ j, (working_directory, j))
                      <$> filter (λ j, j `mod` 10 = 0)
                                 (omap last_label files)))); [done|..].
  - intros s _. simpl. by rewrite app_nil_r.
  - intros s file s1 files s' Hskip Hfile Hfiles Hstep Hskip1 Hloop IH Hne.
    rewrite IH by (intros; apply Hne; by right).
    apply file_step_checkpoint in Hstep; [|done..].
    pose proof (Hne file ltac:(by left)) as Hframe.
    simpl omap. unfold last_label at 2.
    destruct (data file) as [frame|]; simpl in *; [|by subst].
    destruct Hstep as [Hi Hcp].
    destruct (last frame) as [[j row]|] eqn:Hlast;
      [|by apply last_None in Hlast; subst].
    simpl in *. rewrite Hcp, fmap_app, filter_cons.
    case_decide; simpl; by rewrite <- (assoc_L (++)).
Qed.

Lemma saved_all_spec s :
  words (saved_all s) = words s ∧ checkpoints (saved_all s) = checkpoints s ∧
  i (saved_all s) = i s ∧ skip_index (saved_all s) = skip_index s ∧
  ∀ k, shards_of k (saved_all s)
       = shards_of k s
         ++ match sel k (df s) with
            | [] => []
            | _ :: _ => [mkShard k (sel k (index s)) (sel k (df s))]
            end.
Proof.
  unfold saved_all, saved, shards_of.
  destruct (on_test (df s)) eqn:Ht, (on_validation (df s)) eqn:Hv,
    (on_training (df s)) eqn:Htr;
    (repeat split; try done); intros []; simpl;
    rewrite ?Ht, ?Hv, ?Htr, ?filter_app, ?filter_cons, ?filter_nil; simpl;
    by rewrite ?app_nil_r.
Qed.

(** X5.  The counters are saved after a source file exactly when the
    index label of its last row is divisible by 10: in a run that returns
    and in which no loaded data frame is empty, the saves are, in order,
    those of the loaded files whose last label is a multiple of 10, each
    numbered by that label; all of them go to the working directory.  The
    number of files processed plays no role. *)
Theorem checkpoints_by_last_label
    fuel listing skip tw vw trw dv data_size s' :
  (1 ≤ data_size)%nat →
  (∀ file, file ∈ loaded_by listing skip → data file ≠ Some []) →
  split_data fuel listing skip tw vw trw dv data_size = Done s' →
  (λ c, (cp_place c, cp_i c)) <$> checkpoints s'
  = (λ j, (working_directory, j))
      <$> filter (λ j, j `mod` 10 = 0) (omap last_label (loaded_by listing skip)).
Proof.
  intros Hsize Hne Hrun.
  destruct (split_data_Done_inv _ _ _ _ _ _ _ _ _ Hsize Hrun)
    as (s & Hloop & _ & ->).
  destruct (file_loop_skips fuel data_size dv
              (filter (λ file, is_source_shard file = true) listing)
              (initial_state skip (Split tw vw trw)))
    as (m & Heq & Hm & _).
  rewrite Heq in Hloop. clear Heq. simpl in Hloop, Hm.
  destruct (saved_all_spec s) as (_ & -> & _).
  fold (loaded_by listing skip) in Hloop, Hm.
  by rewrite (file_loop_checkpoints fuel data_size dv _
                (set_skip_index m (initial_state skip (Split tw vw trw))) s
                Hsize (loaded_by_source_shards listing skip) Hm Hloop Hne).
Qed.

(** *** Resuming with [skip_index] *)

Lemma filter_all {A} (P : A → Prop) `{∀ x, Decision (P x)} (l : list A) :
  Forall P l → filter P l = l.
Proof.
  induction 1 as [|x l Hx Hl IH]; [done|].
  rewrite filter_cons_True by done. by rewrite IH.
Qed.

(** X6.  [skip_index] counts source shards in sorted order, other
    entries of the directory do not count.  For a [skip_index] between 0 and
    the number of source shards, the run is the run without skipping on the
    remaining source shards alone: the skipped shards are neither read nor
    checked for disk space.  A larger [skip_index] skips everything, and the
    run returns without having written a shard or saved a counter. *)
Theorem skip_index_resumes fuel listing skip tw vw trw dv data_size :
  let sources := filter (λ file, is_source_shard file = true) listing in
  (0 ≤ skip ≤ Z.of_nat (length sources) →
   split_data fuel listing skip tw vw trw dv data_size
   = split_data fuel (drop (Z.to_nat skip) sources) 0 tw vw trw dv data_size) ∧
  (Z.of_nat (length sources) < skip → (1 ≤ data_size)%nat →
   split_data fuel listing skip tw vw trw dv data_size
   = Done (initial_state (skip - Z.of_nat (length sources))
             (Split tw vw trw))).
Proof.
  intros sources.
  destruct (file_loop_skips fuel data_size dv sources
              (initial_state skip (Split tw vw trw)))
    as (m & Heq & _ & Hm0 & Hm1).
  simpl in Heq, Hm0, Hm1. split.
  - intros Hskip. rewrite (Hm0 Hskip) in Heq.
    unfold Partitioner.split_data. fold sources. rewrite Heq.
    rewrite filter_all; [done|].
    apply (loaded_by_source_shards listing skip).
  - intros Hskip Hsize. rewrite (Hm1 Hskip) in Heq.
    unfold Partitioner.split_data. fold sources. rewrite Heq.
    unfold loaded_files. rewrite drop_ge by lia. simpl.
    rewrite split_and_save_short by (simpl; lia). simpl.
    rewrite split_and_save_short by (simpl; lia). simpl.
    by rewrite split_and_save_short by (simpl; lia).
Qed.

(** *** Running out of disk space *)





(** *** Routing a stream of rows *)

Lemma assign_snoc (ws : split (gmap string Z)) (stream : list OutRow) r :
  assign ws (stream ++ [r]) = assign_step (assign ws stream) r.
Proof. unfold assign. by rewrite foldl_app. Qed.

Lemma assign_sublist (ws : split (gmap string Z)) (stream : list OutRow) k :
  sel k (assign ws stream).2 `sublist_of` stream.
Proof.
  induction stream as [|r stream IH] using rev_ind;
    [by destruct k; constructor|].
  rewrite assign_snoc. unfold assign_step. simpl.
  set (k' := route _ _).
  destruct (decide (k' = k)) as [->|Hne].
  - rewrite sel_upd_eq. by apply sublist_app.
  - rewrite sel_upd_ne by done. by apply sublist_inserts_r.
Qed.

Lemma occurrences_snoc word (rows : list OutRow) r :
  occurrences word (rows ++ [r])
  = occurrences word rows + (if decide (out_lexical_word r = word) then 1 else 0).
Proof.
  unfold occurrences. rewrite filter_app, length_app, filter_cons, filter_nil.
  case_decide; simpl; lia.
Qed.

Lemma assign_quota (ws : split (gmap string Z)) (stream : list OutRow) k word :
  Counter.get (sel k (assign ws stream).1) word
  + occurrences word (sel k (assign ws stream).2)
  = Counter.get (sel k ws) word.
Proof.
  induction stream as [|r stream IH] using rev_ind.
  - simpl. unfold occurrences. destruct k; simpl; lia.
  - rewrite assign_snoc. unfold assign_step. simpl.
    set (k' := route _ _).
    destruct (decide (k' = k)) as [->|Hne].
    + rewrite !sel_upd_eq, occurrences_snoc.
      case_decide as Hword.
      * rewrite Hword, get_decr_eq. lia.
      * rewrite get_decr_ne by done. lia.
    + by rewrite !sel_upd_ne by done.
Qed.

Lemma assign_nonneg (ws : split (gmap string Z)) (stream : list OutRow) k word :
  k ≠ training →
  0 ≤ Counter.get (sel k ws) word →
  0 ≤ Counter.get (sel k (assign ws stream).1) word.
Proof.
  intros Hk Hws. induction stream as [|r stream IH] using rev_ind; [done|].
  rewrite assign_snoc. unfold assign_step. simpl.
  destruct (assign ws stream) as [W R]. simpl in *.
  unfold route. destruct (decide (out_lexical_word r = word)) as [Hword|Hword].
  - rewrite Hword.
    repeat case_decide; destruct k; simpl in *; rewrite ?get_decr_eq; done || lia.
  - repeat case_decide; destruct k; simpl in *;
      rewrite ?get_decr_ne by done; done.
Qed.

(** *** The rows of a subset through the loop *)

Lemma subset_rows_same k s s' :
  shards_written s' = shards_written s → df s' = df s →
  subset_rows k s' = subset_rows k s.
Proof.
  intros Hsh Hdf. unfold subset_rows, disk_rows, shards_of. by rewrite Hsh, Hdf.
Qed.

Lemma row_loop_assign uid dv (frame : list (Z * Row)) s rows
    (ws : split (gmap string Z)) (stream : list OutRow) :
  words s = (assign ws stream).1 →
  (∀ k, subset_rows k s ++ sel k rows = sel k (assign ws stream).2) →
  let stream' :=
    stream ++ (out_row uid <$> filter (λ entry, survives dv entry = true) frame) in
  words (foldl (row_step uid dv) (s, rows) frame).1 = (assign ws stream').1 ∧
  ∀ k, subset_rows k (foldl (row_step uid dv) (s, rows) frame).1
       ++ sel k (foldl (row_step uid dv) (s, rows) frame).2
       = sel k (assign ws stream').2.
Proof.
  revert s rows stream.
  induction frame as [|entry frame IH]; intros s rows stream Hwords Hrows.
  - simpl. by rewrite app_nil_r.
  - change (foldl (row_step uid dv) (s, rows) (entry :: frame))
      with (foldl (row_step uid dv) (row_step uid dv (s, rows) entry) frame).
    destruct (survives dv entry) eqn:Hs.
    + rewrite (row_step_survivor _ _ _ _ _ _ _ Hs).
      rewrite filter_cons_True by done. simpl.
      rewrite (cons_middle _ stream), (assoc_L (++)).
      apply IH.
      * rewrite assign_snoc. unfold assign_step. simpl. by rewrite <- Hwords.
      * intros k. rewrite assign_snoc. unfold assign_step. simpl.
        rewrite <- Hwords.
        set (k' := route _ _).
        change (subset_rows k (set_words _ (set_i entry.1 s)))
          with (subset_rows k s).
        destruct (decide (k' = k)) as [->|Hne].
        -- rewrite !sel_upd_eq, <- Hrows. by rewrite (assoc_L (++)).
        -- rewrite !sel_upd_ne by done. apply Hrows.
    + destruct (row_step_dropped replace_special_chars lower uid dv s rows entry Hs)
        as (s1 & -> & _ & Hw & Hdf & _ & _ & Hsh & _).
      rewrite filter_cons_False by congruence.
      apply IH; [by rewrite Hw|].
      intros k. by rewrite (subset_rows_same k s s1).
Qed.

Lemma subset_rows_concat_rows k rows s :
  subset_rows k (concat_rows rows s) = subset_rows k s ++ sel k rows.
Proof.
  unfold subset_rows, disk_rows, shards_of. destruct k; simpl;
    by rewrite (assoc_L (++)).
Qed.

Lemma shards_of_flushed k k' n data_size s :
  shards_of k (flushed k' n data_size s)
  = shards_of k s
    ++ (if decide (k' = k)
        then full_shards k (sel k (index s)) n data_size (sel k (df s))
        else []).
Proof.
  unfold shards_of, flushed. simpl. rewrite filter_app, full_shards_filter.
  by case_decide; subst.
Qed.

Lemma subset_rows_flushed k k' n data_size s :
  subset_rows k (flushed k' n data_size s) = subset_rows k s.
Proof.
  unfold subset_rows, disk_rows. rewrite shards_of_flushed.
  unfold flushed; simpl. destruct (decide (k' = k)) as [->|Hne].
  - rewrite sel_upd_eq, fmap_app, join_app, full_shards_rows.
    by rewrite <- (assoc_L (++)), take_drop.
  - rewrite sel_upd_ne by done. by rewrite app_nil_r.
Qed.

Lemma subset_rows_flushed_all k n1 n2 n3 data_size s :
  subset_rows k (flushed_all n1 n2 n3 data_size s) = subset_rows k s.
Proof. unfold flushed_all. by rewrite !subset_rows_flushed. Qed.

(** *** The shards of a subset are the chunks of its rows *)

Lemma full_shards_app k idx n m data_size (buffer : list OutRow) :
  full_shards k idx (n + m) data_size buffer
  = full_shards k idx n data_size buffer
    ++ full_shards k (idx + n) m data_size (drop (n * data_size) buffer).
Proof.
  unfold full_shards. rewrite seq_app, fmap_app. f_equal. simpl.
  replace (seq n m) with (Nat.add n <$> seq 0 m)
    by (by rewrite fmap_add_seq, Nat.add_0_r).
  rewrite <- list_fmap_compose.
  apply list_fmap_ext. intros _ j _. simpl. rewrite drop_drop.
  f_equal; [lia|]. do 2 f_equal. lia.
Qed.

Lemma full_shards_prefix k idx n data_size (buffer extra : list OutRow) :
  (n * data_size ≤ length buffer)%nat →
  full_shards k idx n data_size (buffer ++ extra)
  = full_shards k idx n data_size buffer.
Proof.
  intros Hn. unfold full_shards. apply list_fmap_ext.
  intros j ? [-> Hj]%lookup_seq. simpl. f_equal.
  assert (j * data_size + data_size ≤ length buffer)%nat by nia.
  rewrite drop_app_le by lia. rewrite take_app_le; [done|].
  rewrite length_drop. lia.
Qed.

Lemma chunked_same data_size k s s' :
  shards_written s' = shards_written s → df s' = df s → index s' = index s →
  chunked data_size k s → chunked data_size k s'.
Proof.
  intros Hsh Hdf Hidx. unfold chunked, subset_rows, disk_rows, shards_of.
  by rewrite Hsh, Hdf, Hidx.
Qed.

Lemma chunked_concat_rows data_size k rows s :
  chunked data_size k s → chunked data_size k (concat_rows rows s).
Proof.
  intros [Hshards Hlen]. split; [|done].
  rewrite subset_rows_concat_rows.
  change (shards_of k (concat_rows rows s)) with (shards_of k s).
  change (index (concat_rows rows s)) with (index s).
  rewrite full_shards_prefix; [done|].
  unfold subset_rows. rewrite length_app. lia.
Qed.

Lemma chunked_flushed data_size k k' n s :
  fits k' n data_size s →
  chunked data_size k s → chunked data_size k (flushed k' n data_size s).
Proof.
  intros Hfits [Hshards Hlen]. unfold chunked.
  rewrite subset_rows_flushed. unfold disk_rows in *.
  rewrite shards_of_flushed. unfold flushed; simpl.
  destruct (decide (k' = k)) as [->|Hne].
  - rewrite sel_upd_eq, full_shards_app, <- Hshards. simpl. split.
    + f_equal. unfold subset_rows, disk_rows.
      by rewrite drop_app_length' by done.
    + rewrite fmap_app, join_app, length_app, full_shards_rows, length_take.
      unfold fits in Hfits. lia.
  - rewrite sel_upd_ne by done. by rewrite app_nil_r.
Qed.

Lemma chunked_flushed_all data_size k n1 n2 n3 s :
  fits test n1 data_size s →
  fits validation n2 data_size (flushed test n1 data_size s) →
  fits training n3 data_size
    (flushed validation n2 data_size (flushed test n1 data_size s)) →
  chunked data_size k s → chunked data_size k (flushed_all n1 n2 n3 data_size s).
Proof.
  intros H1 H2 H3 Hs. unfold flushed_all.
  by do 3 (apply chunked_flushed; [done|]).
Qed.

(** *** One source file, the loop, a whole run *)

Lemma file_step_stream fuel data_size dv s file s'
    (ws : split (gmap string Z)) (stream : list OutRow) :
  (1 ≤ data_size)%nat → skip_index s ≤ 0 → is_source_shard file = true →
  file_step fuel data_size dv s file = Done s' →
  words s = (assign ws stream).1 →
  (∀ k, subset_rows k s = sel k (assign ws stream).2) →
  words s' = (assign ws (stream ++ assigned_of dv file)).1 ∧
  (∀ k, subset_rows k s' = sel k (assign ws (stream ++ assigned_of dv file)).2) ∧
  (∀ k, chunked data_size k s → chunked data_size k s').
Proof.
  intros Hsize Hskip Hfile Hstep Hwords Hrows.
  unfold Partitioner.assigned_of, rows_of_file.
  destruct (file_step_Done_inv _ _ _ _ _ _ Hsize Hskip Hfile Hstep)
    as [_ [[-> ->]|(frame & uid & s1 & rows1 & n1 & n2 & n3 & -> & -> & Hloop
                    & Hn1 & Hn2 & Hn3 & ->)]].
  { destruct (FileName.unique_identifier _); simpl; by rewrite app_nil_r. }
  clear Hstep. set (t := flushed_all n1 n2 n3 data_size (concat_rows rows1 s1)).
  destruct (close_file_spec t) as (_ & Hw & Hdf' & Hidx' & Hsh' & _).
  generalize dependent (close_file t). intros s' Hw Hdf' Hidx' Hsh'. simpl.
  destruct (row_loop_assign uid dv frame s (Split [] [] []) ws stream Hwords)
    as [Hwords1 Hrows1].
  { intros k. rewrite <- Hrows. by destruct k; simpl; rewrite app_nil_r. }
  destruct (row_loop_spec replace_special_chars lower uid dv frame s (Split [] [] []))
    as (? & ? & Hloop' & _ & _ & Hdf & Hidx & _ & Hsh & _).
  rewrite Hloop in Hwords1, Hrows1, Hloop'. simpl in *.
  injection Hloop' as <- <-.
  split; [by rewrite Hw|]. split.
  - intros k. rewrite (subset_rows_same k t) by done. subst t.
    by rewrite subset_rows_flushed_all, subset_rows_concat_rows.
  - intros k Hk. apply (chunked_same data_size k t); [done..|]. subst t.
    apply chunked_flushed_all; [done..|].
    apply chunked_concat_rows. by apply (chunked_same data_size k s).
Qed.

Lemma file_loop_stream fuel data_size dv (files : list source_file) s s' :
  (1 ≤ data_size)%nat →
  Forall (λ file, is_source_shard file = true) files →
  (files ≠ [] → skip_index s ≤ 0) →
  file_loop fuel data_size dv files s = Done s' →
  ∀ (ws : split (gmap string Z)) (stream : list OutRow),
    words s = (assign ws stream).1 →
    (∀ k, subset_rows k s = sel k (assign ws stream).2) →
    words s' = (assign ws (stream ++ mjoin (assigned_of dv <$> files))).1 ∧
    (∀ k, subset_rows k s'
          = sel k (assign ws (stream ++ mjoin (assigned_of dv <$> files))).2) ∧
    (∀ k, chunked data_size k s → chunked data_size k s').
Proof.
  intros Hsize Hfiles Hskip Hloop. revert files s s' Hfiles Hskip Hloop.
  apply (file_loop_Done_ind fuel data_size dv
           (λ s files s',
              ∀ (ws : split (gmap string Z)) (stream : list OutRow),
                words s = (assign ws stream).1 →
                (∀ k, subset_rows k s = sel k (assign ws stream).2) →
                words s'
                = (assign ws (stream ++ mjoin (assigned_of dv <$> files))).1 ∧
                (∀ k, subset_rows k s'
                      = sel k (assign ws (stream
                                 ++ mjoin (assigned_of dv <$> files))).2) ∧
                (∀ k, chunked data_size k s → chunked data_size k s')));
    [done|..].
  - intros s ws stream Hwords Hrows. simpl. by rewrite app_nil_r.
  - intros s file s1 files s' Hskip Hfile Hfiles Hstep Hskip1 Hloop IH
      ws stream Hwords Hrows.
    destruct (file_step_stream _ _ _ _ _ _ ws stream Hsize Hskip Hfile Hstep
                Hwords Hrows) as (Hwords1 & Hrows1 & Hchunk1).
    destruct (IH ws _ Hwords1 Hrows1) as (Hwords' & Hrows' & Hchunk').
    simpl. rewrite (assoc_L (++)).
    split; [done|]. split; [done|]. intros k Hk. by apply Hchunk', Hchunk1.
Qed.

Lemma chunks_of_last k data_size idx (rows buffer : list OutRow) :
  (1 ≤ data_size)%nat → length rows = (idx * data_size)%nat →
  (length buffer < data_size)%nat →
  chunks_of k data_size (rows ++ buffer)
  = full_shards k 0 idx data_size (rows ++ buffer)
    ++ match buffer with [] => [] | _ :: _ => [mkShard k idx buffer] end.
Proof.
  intros Hsize Hrows Hbuffer. unfold chunks_of. rewrite length_app, Hrows.
  destruct buffer as [|r buffer].
  - rewrite !app_nil_r.
    replace ((idx * data_size + length (@nil OutRow) + data_size - 1)
               `div` data_size)%nat with idx; [done|].
    apply (Nat.div_unique _ _ _ (data_size - 1)); simpl; lia.
  - replace ((idx * data_size + length (r :: buffer) + data_size - 1)
               `div` data_size)%nat with (idx + 1)%nat.
    + rewrite full_shards_app. f_equal. simpl.
      rewrite drop_app_length' by lia.
      unfold full_shards. simpl seq. simpl fmap.
      change (drop (0 * data_size) (r :: buffer)) with (r :: buffer).
      rewrite take_ge by lia. do 2 f_equal. lia.
    + apply (Nat.div_unique _ _ _ (length buffer)); simpl in *; lia.
Qed.

Lemma run_streams fuel listing skip tw vw trw dv data_size s' :
  (1 ≤ data_size)%nat →
  split_data fuel listing skip tw vw trw dv data_size = Done s' →
  let stream := mjoin (assigned_of dv <$> loaded_by listing skip) in
  words s' = (assign (Split tw vw trw) stream).1 ∧
  ∀ k, disk_rows k s' = sel k (assign (Split tw vw trw) stream).2 ∧
       shards_of k s' = chunks_of k data_size (disk_rows k s').
Proof.
  intros Hsize Hrun stream.
  destruct (split_data_Done_inv _ _ _ _ _ _ _ _ _ Hsize Hrun)
    as (s & Hloop & (_ & _ & Hshort) & ->).
  destruct (file_loop_skips fuel data_size dv
              (filter (λ file, is_source_shard file = true) listing)
              (initial_state skip (Split tw vw trw)))
    as (m & Heq & Hm & _).
  rewrite Heq in Hloop. clear Heq. simpl in Hloop, Hm.
  fold (loaded_by listing skip) in Hloop, Hm.
  destruct (file_loop_stream fuel data_size dv _
              (set_skip_index m (initial_state skip (Split tw vw trw))) s
              Hsize (loaded_by_source_shards listing skip) Hm Hloop
              (Split tw vw trw) [])
    as (Hwords & Hrows & Hchunk); [done|by intros []|].
  simpl in Hwords, Hrows. fold stream in Hwords, Hrows.
  destruct (saved_all_spec s) as (Hw & _ & _ & _ & Hshards).
  split; [by rewrite Hw|].
  intros k.
  destruct (Hchunk k) as [Hfull Hlen]; [by destruct k|].
  assert (disk_rows k (saved_all s) = subset_rows k s) as Hdisk.
  { unfold disk_rows at 1. rewrite Hshards, fmap_app, join_app.
    unfold subset_rows, disk_rows. f_equal.
    destruct (sel k (df s)); simpl; by rewrite ?app_nil_r. }
  rewrite Hdisk. split; [apply Hrows|].
  rewrite Hshards, Hfull. unfold subset_rows at 2.
  rewrite (chunks_of_last k data_size (sel k (index s))); [done..|].
  apply Hshort.
Qed.

(** *** Output shards *)

Lemma row_loop_local uid dv (frame : list (Z * Row)) s rows :
  (words (foldl (row_step uid dv) (s, rows) frame).1,
   (foldl (row_step uid dv) (s, rows) frame).2)
  = foldl assign_step (words s, rows)
          (out_row uid <$> filter (λ entry, survives dv entry = true) frame).
Proof.
  revert s rows. induction frame as [|entry frame IH]; intros s rows; [done|].
  change (foldl (row_step uid dv) (s, rows) (entry :: frame))
    with (foldl (row_step uid dv) (row_step uid dv (s, rows) entry) frame).
  destruct (survives dv entry) eqn:Hs.
  - rewrite (row_step_survivor _ _ _ _ _ _ _ Hs).
    rewrite filter_cons_True by done. by rewrite IH.
  - destruct (row_step_dropped replace_special_chars lower uid dv s rows entry Hs)
      as (s1 & -> & _ & Hw & _).
    rewrite filter_cons_False by congruence. by rewrite IH, Hw.
Qed.

Lemma short_flushed_all data_size n1 n2 n3 s k :
  (1 ≤ data_size)%nat →
  fits test n1 data_size s →
  fits validation n2 data_size (flushed test n1 data_size s) →
  fits training n3 data_size
    (flushed validation n2 data_size (flushed test n1 data_size s)) →
  short data_size k (flushed_all n1 n2 n3 data_size s).
Proof.
  intros Hsize H1 H2 H3.
  destruct (flushed_preserves test n1 data_size s Hsize H1)
    as (_ & _ & Hshort1 & _).
  destruct (flushed_preserves validation n2 data_size _ Hsize H2)
    as (_ & _ & Hshort2 & Hdf2).
  destruct (flushed_preserves training n3 data_size _ Hsize H3)
    as (_ & _ & Hshort3 & Hdf3).
  unfold flushed_all, short in *. destruct k.
  - rewrite Hdf3, Hdf2 by done. apply Hshort1.
  - rewrite Hdf3 by done. apply Hshort2.
  - apply Hshort3.
Qed.

Lemma file_step_local fuel data_size dv s file s' k :
  (1 ≤ data_size)%nat → skip_index s ≤ 0 → is_source_shard file = true →
  file_step fuel data_size dv s file = Done s' →
  subset_rows k s'
  = subset_rows k s ++ sel k (assign (words s) (assigned_of dv file)).2 ∧
  (chunked data_size k s → chunked data_size k s') ∧
  (short data_size k s → short data_size k s').
Proof.
  intros Hsize Hskip Hfile Hstep.
  unfold Partitioner.assigned_of, rows_of_file.
  destruct (file_step_Done_inv _ _ _ _ _ _ Hsize Hskip Hfile Hstep)
    as [_ [[-> ->]|(frame & uid & s1 & rows1 & n1 & n2 & n3 & -> & -> & Hloop
                    & Hn1 & Hn2 & Hn3 & ->)]].
  { split; [|done].
    destruct (FileName.unique_identifier _); destruct k; simpl;
      by rewrite app_nil_r. }
  clear Hstep. set (t := flushed_all n1 n2 n3 data_size (concat_rows rows1 s1)).
  destruct (close_file_spec t) as (_ & _ & Hdf' & Hidx' & Hsh' & _).
  generalize dependent (close_file t). intros s' Hdf' Hidx' Hsh'. simpl.
  pose proof (row_loop_local uid dv frame s (Split [] [] [])) as Hlocal.
  destruct (row_loop_spec replace_special_chars lower uid dv frame s (Split [] [] []))
    as (? & ? & Hloop' & _ & _ & Hdf & Hidx & _ & Hsh & _).
  rewrite Hloop in Hlocal, Hloop'. simpl in Hlocal. injection Hloop' as <- <-.
  fold (assign (words s)
          (out_row uid <$> filter (λ entry, survives dv entry = true) frame))
    in Hlocal.
  rewrite <- Hlocal. simpl.
  split; [|split].
  - rewrite (subset_rows_same k t) by done. subst t.
    rewrite subset_rows_flushed_all, subset_rows_concat_rows.
    by rewrite (subset_rows_same k s s1).
  - intros Hk. apply (chunked_same data_size k t); [done..|]. subst t.
    apply chunked_flushed_all; [done..|].
    apply chunked_concat_rows. by apply (chunked_same data_size k s).
  - intros _. unfold short. rewrite Hdf'. by apply short_flushed_all.
Qed.

(** C5.  With a positive shard size, a buffer that has reached the shard
    size is cut into shards of exactly that many rows, oldest rows first and
    in their order of arrival, written under consecutive indices of the
    subset, and exactly those rows leave the buffer, which ends up shorter
    than the shard size.  This happens after every source file: the rows
    the file adds to a subset follow the subset's earlier rows, and when the
    file is done the shards of the subset are the first [len // data_size]
    pieces of [data_size] rows of all the subset's rows so far, numbered
    from 0, and the buffer holds the rest.  After the last source file what
    is left of each buffer goes into a single further shard under the
    subset's next index (nothing is written for a buffer that is empty).
    So in a run that returns the shards of a subset, read in the order of
    their indices 0, 1, 2, ..., hold all rows routed to the subset in their
    order of arrival, every shard but the last holds exactly the shard size
    of rows, and every shard holds at least 1 and at most the shard size of
    rows.  The run returns when there is room on the disk at every loaded
    shard. *)
Theorem shards_cut_at_data_size (data_size : nat) :
  (1 ≤ data_size)%nat →
  (∀ fuel k s,
     (length (sel k (df s)) ≤ fuel)%nat →
     ∃ n,
       (n * data_size ≤ length (sel k (df s)) < n * data_size + data_size)%nat ∧
       flush fuel data_size k s = Done (flushed k n data_size s) ∧
       shards_written (flushed k n data_size s)
         = shards_written s
           ++ full_shards k (sel k (index s)) n data_size (sel k (df s)) ∧
       Forall (λ sh, length (shard_rows sh) = data_size ∧ shard_subset sh = k)
              (full_shards k (sel k (index s)) n data_size (sel k (df s))) ∧
       shard_index <$> full_shards k (sel k (index s)) n data_size (sel k (df s))
         = seq (sel k (index s)) n ∧
       mjoin (shard_rows
                <$> full_shards k (sel k (index s)) n data_size (sel k (df s)))
         ++ sel k (df (flushed k n data_size s))
         = sel k (df s) ∧
       (length (sel k (df (flushed k n data_size s))) < data_size)%nat ∧
       sel k (index (flushed k n data_size s)) = (sel k (index s) + n)%nat) ∧
  (∀ k (frame : list OutRow) idx s,
     (length frame < data_size)%nat →
     split_and_save_dataframe frame data_size k idx s
       = Done (saved k frame idx s) ∧
     shards_written (saved k frame idx s)
       = shards_written s
         ++ match frame with [] => [] | _ :: _ => [mkShard k idx frame] end) ∧
  (∀ fuel dv s file s' k,
     skip_index s ≤ 0 → is_source_shard file = true →
     chunked data_size k s → short data_size k s →
     file_step fuel data_size dv s file = Done s' →
     let rows := subset_rows k s' in
     rows = subset_rows k s
            ++ sel k (assign (words s) (assigned_of dv file)).2 ∧
     sel k (index s') = (length rows `div` data_size)%nat ∧
     shards_of k s'
     = (λ j, mkShard k j (take data_size (drop (j * data_size) rows)))
         <$> seq 0 (length rows `div` data_size) ∧
     sel k (df s') = drop (length rows `div` data_size * data_size) rows ∧
     (length (sel k (df s')) < data_size)%nat ∧
     chunked data_size k s' ∧ short data_size k s') ∧
  (∀ fuel listing skip tw vw trw dv s',
     split_data fuel listing skip tw vw trw dv data_size = Done s' →
     Forall (λ sh, 1 ≤ length (shard_rows sh) ≤ data_size)%nat
            (shards_written s') ∧
     ∀ k,
       let rows :=
         sel k (assign (Split tw vw trw)
                  (mjoin (assigned_of dv <$> loaded_by listing skip))).2 in
       shards_of k s'
       = (λ j, mkShard k j (take data_size (drop (j * data_size) rows)))
           <$> seq 0 ((length rows + data_size - 1) `div` data_size) ∧
       mjoin (shard_rows <$> shards_of k s') = rows ∧
       (∀ j sh, shards_of k s' !! j = Some sh →
                (S j < length (shards_of k s'))%nat →
                length (shard_rows sh) = data_size)) ∧
  (∀ fuel listing skip tw vw trw dv,
     Forall room (loaded_by listing skip) →
     (total_rows (loaded_by listing skip) ≤ fuel)%nat →
     ∃ s', split_data fuel listing skip tw vw trw dv data_size = Done s').
Proof.
  intros Hsize. split; [|split; [|split; [|split]]].
  - intros fuel k s Hfuel.
    destruct (flush_spec fuel data_size k s Hsize) as [[_ Hlt]|(n & Hn & Hflush)];
      [lia|].
    exists n. split; [done|]. split; [done|]. split; [done|].
    split; [apply full_shards_exact; lia|].
    split; [apply full_shards_indices|].
    simpl. rewrite sel_upd_eq, sel_upd_eq, full_shards_rows, take_drop, length_drop.
    repeat split; (done || lia).
  - intros k frame idx s Hshort.
    split; [by apply split_and_save_short|].
    unfold saved. destruct frame; simpl; by rewrite ?app_nil_r.
  - intros fuel dv s file s' k Hskip Hfile Hchunked Hshort Hstep rows.
    destruct (file_step_local fuel data_size dv s file s' k Hsize Hskip Hfile
                Hstep) as (Hrows & Hchunked' & Hshort').
    specialize (Hchunked' Hchunked) as [Hshards Hlen].
    specialize (Hshort' Hshort).
    assert (chunked data_size k s') as Hc by done.
    unfold short in Hshort'.
    assert (length rows
            = (sel k (index s') * data_size + length (sel k (df s')))%nat)
      as Hrowslen.
    { subst rows. unfold subset_rows. rewrite length_app. lia. }
    assert (sel k (index s') = length rows `div` data_size)%nat as Hidx.
    { apply (Nat.div_unique _ _ _ (length (sel k (df s')))); lia. }
    split; [done|]. split; [done|]. rewrite <- Hidx.
    split; [exact Hshards|]. split; [|done].
    subst rows. unfold subset_rows.
    by rewrite drop_app_length' by done.
  - intros fuel listing skip tw vw trw dv s' Hrun. split.
    { apply run_spec in Hrun as (_ & _ & Hok & _); done. }
    intros k rows.
    destruct (run_streams _ _ _ _ _ _ _ _ _ Hsize Hrun) as [_ Hrows].
    destruct (Hrows k) as [Hdisk Hshards]. fold rows in Hdisk.
    rewrite Hdisk in Hshards. unfold disk_rows in Hdisk.
    split; [exact Hshards|]. split; [exact Hdisk|].
    intros j sh. rewrite Hshards. unfold chunks_of, full_shards.
    rewrite list_lookup_fmap, length_fmap, length_seq.
    intros Hj Hlast. apply fmap_Some in Hj as (j' & [-> _]%lookup_seq & ->).
    simpl. rewrite length_take, length_drop.
    pose proof (Nat.div_mod (length rows + data_size - 1) data_size
                  ltac:(lia)) as Hdiv.
    pose proof (Nat.mod_upper_bound (length rows + data_size - 1) data_size
                  ltac:(lia)) as Hmod.
    nia.
  - intros fuel listing skip tw vw trw dv. by apply run_total.
Qed.

(** X8.  Which subset a row ends up in does not depend on file
    boundaries, buffering, [data_size] or the checkpoints: in a run that
    returns, the rows on disk of each subset and the final counters are
    those obtained by routing the surviving rows of the loaded files, in
    file and row order, one by one by the quota rule; and the shards of
    each subset are that subset's rows cut into consecutive pieces of
    [data_size] rows, only the last piece possibly shorter, numbered from
    0. *)
Theorem split_data_streams fuel listing skip tw vw trw dv data_size s' :
  (1 ≤ data_size)%nat →
  split_data fuel listing skip tw vw trw dv data_size = Done s' →
  let stream := mjoin (assigned_of dv <$> loaded_by listing skip) in
  words s' = (assign (Split tw vw trw) stream).1 ∧
  ∀ k,
    disk_rows k s' = sel k (assign (Split tw vw trw) stream).2 ∧
    shards_of k s'
    = (λ j, mkShard k j (take data_size (drop (j * data_size) (disk_rows k s'))))
        <$> seq 0 ((length (disk_rows k s') + data_size - 1) `div` data_size).
Proof.
  intros Hsize Hrun stream.
  destruct (run_streams _ _ _ _ _ _ _ _ _ Hsize Hrun) as [Hwords Hrows].
  split; [exact Hwords|]. intros k. destruct (Hrows k) as [Hdisk Hshards].
  split; [exact Hdisk|]. rewrite Hshards. reflexivity.
Qed.

(** X9.  In a run that returns, the final counter of every subset is the
    initial quota minus the number of rows of the word written to that
    subset.  The test and validation quotas are never overdrawn: a word
    with a non-negative quota gets at most that many rows there, and its
    counter there stays non-negative. *)
Theorem quotas_are_not_overdrawn fuel listing skip tw vw trw dv data_size s' :
  (1 ≤ data_size)%nat →
  split_data fuel listing skip tw vw trw dv data_size = Done s' →
  ∀ word,
    (∀ k, Counter.get (sel k (words s')) word
          = Counter.get (sel k (Split tw vw trw)) word
            - occurrences word (disk_rows k s')) ∧
    (0 ≤ Counter.get tw word →
     0 ≤ Counter.get (on_test (words s')) word ∧
     occurrences word (disk_rows test s') ≤ Counter.get tw word) ∧
    (0 ≤ Counter.get vw word →
     0 ≤ Counter.get (on_validation (words s')) word ∧
     occurrences word (disk_rows validation s') ≤ Counter.get vw word).
Proof.
  intros Hsize Hrun word.
  destruct (run_streams _ _ _ _ _ _ _ _ _ Hsize Hrun) as [Hwords Hrows].
  set (stream := mjoin _) in *.
  assert (∀ k, Counter.get (sel k (words s')) word
               = Counter.get (sel k (Split tw vw trw)) word
                 - occurrences word (disk_rows k s')) as Hquota.
  { intros k. destruct (Hrows k) as [-> _]. rewrite Hwords.
    pose proof (assign_quota (Split tw vw trw) stream k word). lia. }
  split; [done|]. split; intros Hnonneg.
  - pose proof (assign_nonneg (Split tw vw trw) stream test word
                  ltac:(done) Hnonneg) as Hfinal.
    rewrite <- Hwords in Hfinal. specialize (Hquota test). simpl in *. lia.
  - pose proof (assign_nonneg (Split tw vw trw) stream validation word
                  ltac:(done) Hnonneg) as Hfinal.
    rewrite <- Hwords in Hfinal. specialize (Hquota validation). simpl in *. lia.
Qed.

(** X10.  Within each subset the rows keep the order of the source: the
    rows on disk of a subset, read shard by shard, are a subsequence of the
    surviving rows of the loaded files in file and row order. *)
Theorem subsets_keep_source_order fuel listing skip tw vw trw dv data_size s' k :
  (1 ≤ data_size)%nat →
  split_data fuel listing skip tw vw trw dv data_size = Done s' →
  disk_rows k s' `sublist_of` mjoin (assigned_of dv <$> loaded_by listing skip).
Proof.
  intros Hsize Hrun.
  destruct (run_streams _ _ _ _ _ _ _ _ _ Hsize Hrun) as [_ Hrows].
  destruct (Hrows k) as [-> _]. apply assign_sublist.
Qed.

(** *** The order in which the quotas are used *)

Lemma assign_fill (ws : split (gmap string Z)) (stream : list OutRow) word :
  0 ≤ Counter.get (on_test ws) word →
  0 ≤ Counter.get (on_validation ws) word →
  occurrences word (on_test (assign ws stream).2)
  = Z.min (occurrences word stream) (Counter.get (on_test ws) word) ∧
  occurrences word (on_validation (assign ws stream).2)
  = Z.min (occurrences word stream
           - occurrences word (on_test (assign ws stream).2))
          (Counter.get (on_validation ws) word) ∧
  occurrences word (on_training (assign ws stream).2)
  = occurrences word stream
    - occurrences word (on_test (assign ws stream).2)
    - occurrences word (on_validation (assign ws stream).2).
Proof.
  intros Ht Hv. induction stream as [|r stream IH] using rev_ind.
  - unfold occurrences. simpl. lia.
  - pose proof (assign_quota ws stream test word) as Hqt.
    pose proof (assign_quota ws stream validation word) as Hqv.
    rewrite assign_snoc, occurrences_snoc. unfold assign_step.
    destruct (assign ws stream) as [W R]. simpl in *.
    destruct IH as (IHt & IHv & IHtr).
    destruct (decide (out_lexical_word r = word)) as [Hword|Hword].
    + rewrite Hword. unfold route.
      destruct (decide (Counter.get (on_test W) word > 0));
        [|destruct (decide (Counter.get (on_validation W) word > 0))];
        simpl; rewrite occurrences_snoc, decide_True by done; lia.
    + destruct (route W (out_lexical_word r)); simpl;
        rewrite occurrences_snoc, decide_False by done; lia.
Qed.

(** X11.  The rows of a word use up its quotas in a fixed order: in a run
    that returns, of the [N] surviving rows of a word with non-negative
    test and validation quotas [t] and [v], [min N t] are in the test
    shards, [min (N - min N t) v] in the validation shards, and all the
    others in the training shards, whatever the training quota. *)
Theorem subsets_fill_in_order fuel listing skip tw vw trw dv data_size s' word :
  (1 ≤ data_size)%nat →
  split_data fuel listing skip tw vw trw dv data_size = Done s' →
  0 ≤ Counter.get tw word → 0 ≤ Counter.get vw word →
  let N := occurrences word
             (mjoin (assigned_of dv <$> loaded_by listing skip)) in
  occurrences word (disk_rows test s') = Z.min N (Counter.get tw word) ∧
  occurrences word (disk_rows validation s')
  = Z.min (N - Z.min N (Counter.get tw word)) (Counter.get vw word) ∧
  occurrences word (disk_rows training s')
  = N - occurrences word (disk_rows test s')
    - occurrences word (disk_rows validation s').
Proof.
  intros Hsize Hrun Ht Hv N.
  destruct (run_streams _ _ _ _ _ _ _ _ _ Hsize Hrun) as [_ Hrows].
  destruct (Hrows test) as [-> _]. destruct (Hrows validation) as [-> _].
  destruct (Hrows training) as [-> _].
  destruct (assign_fill (Split tw vw trw)
              (mjoin (assigned_of dv <$> loaded_by listing skip)) word Ht Hv)
    as (H1 & H2 & H3).
  fold N in H1, H2, H3. simpl in *. rewrite <- H1. done.
Qed.

(** X12.  [split_words] and [split_data] together: with the counters that
    [split_words] computes, a word whose corrected count [c ≥ 1] is also
    the number of its rows that survive the two filters of the row loop
    gets exactly its three quotas: as many rows in each subset as the
    subset's quota says, and its three counters end at 0. *)
Theorem split_realizes_quotas
    fuel listing skip (counted : gmap string Z)
    (incongruent_words dublicate_words : list string) qs dv data_size s'
    word c :
  (1 ≤ data_size)%nat →
  WordQuota.split_words counted incongruent_words dublicate_words = Some qs →
  WordQuota.corrected_words counted incongruent_words dublicate_words !! word
    = Some c →
  1 ≤ c →
  split_data fuel listing skip (on_test qs) (on_validation qs) (on_training qs)
    dv data_size = Done s' →
  occurrences word (mjoin (assigned_of dv <$> loaded_by listing skip)) = c →
  ∀ k,
    occurrences word (disk_rows k s') = Counter.get (sel k qs) word ∧
    Counter.get (sel k (words s')) word = 0.
Proof.
  intros Hsize Hqs Hword Hc Hrun Hrows.
  unfold WordQuota.split_words in Hqs. rewrite distribute_fmap in Hqs.
  injection Hqs as <-.
  pose proof (word_quota_sound c (amounts c) Hc (word_quota_amounts c))
    as (Ht & Hv & Htr & Hsum).
  set (corrected := WordQuota.corrected_words counted incongruent_words
                      dublicate_words) in *.
  assert (Counter.get ((WordQuota.q_test ∘ amounts) <$> corrected) word
          = WordQuota.q_test (amounts c)) as Hgt
    by (unfold Counter.get; by rewrite lookup_fmap, Hword).
  assert (Counter.get ((WordQuota.q_validation ∘ amounts) <$> corrected) word
          = WordQuota.q_validation (amounts c)) as Hgv
    by (unfold Counter.get; by rewrite lookup_fmap, Hword).
  assert (Counter.get ((WordQuota.q_training ∘ amounts) <$> corrected) word
          = WordQuota.q_training (amounts c)) as Hgtr
    by (unfold Counter.get; by rewrite lookup_fmap, Hword).
  simpl in Hrun.
  destruct (run_streams _ _ _ _ _ _ _ _ _ Hsize Hrun) as [Hwords Hdisk].
  set (stream := mjoin _) in *.
  set (ws := Split ((WordQuota.q_test ∘ amounts) <$> corrected)
                   ((WordQuota.q_validation ∘ amounts) <$> corrected)
                   ((WordQuota.q_training ∘ amounts) <$> corrected)) in *.
  destruct (assign_fill ws stream word) as (H1 & H2 & H3);
    [simpl; lia..|].
  simpl in H1, H2, H3. rewrite Hrows, Hgt in H1. rewrite Hrows, Hgv in H2.
  rewrite Hrows in H3.
  intros k. destruct (Hdisk k) as [-> _]. rewrite Hwords.
  pose proof (assign_quota ws stream k word) as Hq.
  destruct k; simpl in *; lia.
Qed.

(** *** The duplicate-vector filter *)

Lemma has_dublicate_vector_iff dv (cleaned_word : string) (label : Z) :
  has_dublicate_vector dv cleaned_word label = true ↔ (label, cleaned_word) ∈ dv.
Proof.
  unfold has_dublicate_vector. rewrite andb_true_iff, !bool_decide_eq_true.
  rewrite list_elem_of_fmap. split.
  - intros [_ ([j w] & -> & [Hw Hin]%list_elem_of_filter)].
    simpl in *. by subst.
  - intros Hin.
    assert ((label, cleaned_word)
              ∈ filter (λ line : Z * string, line.2 = cleaned_word) dv) as Hin'
      by by apply list_elem_of_filter.
    split; [|by exists (label, cleaned_word)].
    destruct (filter _ dv); [by apply not_elem_of_nil in Hin'|simpl; lia].
Qed.

Lemma survives_iff dv entry :
  survives dv entry = true ↔
  lower (replace_special_chars (lexical_word entry.2))
    = lower (replace_special_chars (mfa_word entry.2)) ∧
  (entry.1, lower (replace_special_chars (lexical_word entry.2))) ∉ dv.
Proof.
  unfold Partitioner.survives.
  rewrite andb_true_iff, bool_decide_eq_true, negb_true_iff.
  rewrite <- has_dublicate_vector_iff.
  destruct (has_dublicate_vector dv _ entry.1);
    split; intros [Heq Hdup]; (split; [exact Heq|]); congruence.
Qed.

(** X13.  A row is skipped as a duplicate exactly when the duplicate-vector
    table has a line with the row's own index label and the row's cleaned,
    lower-case word; the file the row comes from plays no role.  A row
    whose two cleaned transcriptions agree and for which the table has no
    such line is appended to the rows of the subset the quota rule gives,
    and that subset's counter of the word goes down by one; any other row
    is logged and changes neither the counters nor the rows collected.  So
    the rows on disk after a run that returns are exactly the rows of the
    loaded source shards whose transcriptions agree and that the table does
    not list. *)
Theorem duplicate_rows_by_label dv :
  (∀ cleaned_word label,
     has_dublicate_vector dv cleaned_word label = true
     ↔ (label, cleaned_word) ∈ dv) ∧
  (∀ uid s rows entry,
     let cleaned_word := lower (replace_special_chars (lexical_word entry.2)) in
     let k := route (words s) (lexical_word entry.2) in
     (cleaned_word = lower (replace_special_chars (mfa_word entry.2)) ∧
      (entry.1, cleaned_word) ∉ dv →
      ∃ s1,
        row_step uid dv (s, rows) entry
        = (s1, upd k (λ l, l ++ [out_row uid entry]) rows) ∧
        words s1
        = upd k (λ c, Counter.decr c (lexical_word entry.2)) (words s) ∧
        logged s1 = logged s) ∧
     (¬ (cleaned_word = lower (replace_special_chars (mfa_word entry.2)) ∧
         (entry.1, cleaned_word) ∉ dv) →
      ∃ s1,
        row_step uid dv (s, rows) entry = (s1, rows) ∧
        words s1 = words s ∧ logged s1 = S (logged s))) ∧
  (∀ fuel listing skip tw vw trw data_size s',
     (1 ≤ data_size)%nat →
     split_data fuel listing skip tw vw trw dv data_size = Done s' →
     ∀ out,
       out ∈ rows_on_disk s' ↔
       ∃ file uid entry,
         file ∈ loaded_by listing skip ∧
         FileName.unique_identifier (file_name file) = Some uid ∧
         entry ∈ rows_of_file file ∧
         lower (replace_special_chars (lexical_word entry.2))
           = lower (replace_special_chars (mfa_word entry.2)) ∧
         ((entry.1, lower (replace_special_chars (lexical_word entry.2))) ∉ dv) ∧
         out = out_row uid entry).
Proof.
  split; [intros; apply has_dublicate_vector_iff|]. split.
  - intros uid s rows entry cleaned_word k. split.
    + intros Hkept%survives_iff.
      rewrite (row_step_survivor _ _ _ _ _ _ _ Hkept). by eexists.
    + intros Hdropped.
      assert (survives dv entry = false) as Hs.
      { destruct (survives dv entry) eqn:Hs; [|done].
        by apply survives_iff in Hs. }
      destruct (row_step_dropped replace_special_chars lower uid dv s rows
                  entry Hs) as (s1 & Hstep & Hlog & Hw & _).
      by exists s1.
  - intros fuel listing skip tw vw trw data_size s' Hsize Hrun out.
    apply run_spec in Hrun as (Hdisk & _); [|done].
    rewrite Hdisk, list_elem_of_join. split.
    + intros (outs & Hin & (file & -> & Hfile)%list_elem_of_fmap).
      apply assigned_of_inv in Hin
        as (uid & entry & Huid & Hentry & [Hagree Hnot]%survives_iff & ->).
      by exists file, uid, entry.
    + intros (file & uid & entry & Hfile & Huid & Hentry & Hagree & Hnot & ->).
      exists (assigned_of dv file). split; [|by apply list_elem_of_fmap_2].
      unfold Partitioner.assigned_of. rewrite Huid.
      apply list_elem_of_fmap_2, list_elem_of_filter.
      split; [by apply survives_iff|done].
Qed.

(** *** A shard size of 0 *)

Lemma flush_zero fuel k s : flush fuel 0 k s = OutOfFuel.
Proof.
  revert s. induction fuel as [|fuel IH]; intros s; rewrite flush_unfold.
  - by rewrite decide_True by lia.
  - rewrite decide_True by lia. cbv zeta.
    rewrite length_take, Nat.min_0_l.
    destruct (decide (0%nat ≠ 0%nat)) as [?|_]; [done|].
    rewrite decide_True; [apply IH|].
    simpl. rewrite sel_upd_eq, length_drop. lia.
Qed.

(** X14.  [data_size = 0] is not rejected.  If a source shard that is a
    data frame is loaded, the first [while] loop after it never ends, so
    the run does not return, whatever the bound on the number of
    iterations.  If no source shard is loaded, the run ends in
    [ZeroDivisionError] in [split_and_save_dataframe], with nothing
    written. *)
Theorem zero_data_size fuel listing skip tw vw trw dv :
  (∀ file rest,
     loaded_by listing skip = file :: rest → room file → is_Some (data file) →
     split_data fuel listing skip tw vw trw dv 0 = OutOfFuel) ∧
  (loaded_by listing skip = [] →
   ∃ s, split_data fuel listing skip tw vw trw dv 0
        = Raised ZeroDivisionError s ∧
        shards_written s = [] ∧ checkpoints s = []).
Proof.
  destruct (file_loop_skips fuel 0 dv
              (filter (λ file, is_source_shard file = true) listing)
              (initial_state skip (Split tw vw trw)))
    as (m & Heq & Hm & _).
  simpl in Heq, Hm. fold (loaded_by listing skip) in Heq, Hm.
  unfold Partitioner.split_data. rewrite Heq. clear Heq. split.
  - intros file rest Hloaded Hroom [frame Hframe].
    pose proof (loaded_by_source_shards listing skip) as Hsrc.
    rewrite Hloaded in *. specialize (Hm ltac:(done)).
    apply Forall_cons in Hsrc as [[Hend [uid Huid]]%is_source_shard_inv _].
    simpl. unfold Partitioner.file_step at 1. simpl.
    rewrite decide_False by lia. rewrite Hend, Huid, Hframe.
    unfold room in Hroom. rewrite decide_False by lia.
    destruct (foldl _ _ frame) as [s1 rows1]. by rewrite flush_zero.
  - intros ->. simpl. eauto.
Qed.

End PartitionerStreams.

(** ** The names of the files *)

Section NameFacts.

Import FileName Names.

Lemma endswith_app suffix s t :
  endswith suffix t = true → endswith suffix (s +:+ t) = true.
Proof.
  intros Ht. induction s as [|c s IH]; [done|].
  simpl. rewrite IH. apply orb_true_r.
Qed.

Lemma endswith_refl suffix : endswith suffix suffix = true.
Proof. destruct suffix; simpl; rewrite ?bool_decide_eq_true_2 by done; done. Qed.

Lemma app_inj_head_string (a x y : string) : a +:+ x = a +:+ y → x = y.
Proof. induction a as [|c a IH]; simpl; [done|]. intros [= H]. by apply IH. Qed.

Lemma output_name_pkl k language index :
  endswith ".pkl" (output_name k language index) = true.
Proof.
  unfold output_name. do 5 apply endswith_app. apply endswith_refl.
Qed.

(** X15.  The output shards are written into the directory the source
    shards are read from, but their names never pass the source filter of
    [split_data], so a later run does not read them back.  The two filters
    of [train_whole_dataset] select exactly the training shards and exactly
    the validation shards; test shards and source shards pass neither.  In
    one language, shards that differ in subset or in index have different
    names. *)
Theorem output_shard_names k language index :
  let name := output_name k language index in
  (∀ Columns (file : Partitioner.source_file Columns),
     Partitioner.file_name file = name →
     Partitioner.is_source_shard file = false) ∧
  (is_training_file name = true ↔ k = training) ∧
  (is_validation_file name = true ↔ k = validation) ∧
  (∀ k' index', output_name k' language index' = name → k' = k ∧ index' = index) ∧
  (∀ n, is_training_file (shard_name n) = false ∧
        is_validation_file (shard_name n) = false).
Proof.
  intros name. subst name.
  pose proof (output_name_pkl k language index) as Hpkl.
  split.
  { intros Columns file Hfile. unfold Partitioner.is_source_shard.
    rewrite Hfile. by destruct k. }
  unfold is_training_file, is_validation_file. rewrite Hpkl, !andb_true_r.
  split; [by destruct k|]. split; [by destruct k|]. split; [|done].
  intros k' index' Hname.
  assert (k' = k) as -> by (by destruct k, k').
  split; [done|]. unfold output_name in Hname.
  do 4 apply app_inj_head_string in Hname.
  apply app_inj_tail_string in Hname. by apply (inj pretty).
Qed.

Lemma pretty_N_char_ne_underscore x :
  pretty_N_char x ≠ Ascii.ascii_of_nat 95.
Proof. unfold pretty_N_char. by repeat case_match. Qed.

Lemma pretty_N_go_head x c r :
  c ≠ Ascii.ascii_of_nat 95 →
  ∃ c' r', pretty_N_go x (String c r) = String c' r' ∧ c' ≠ Ascii.ascii_of_nat 95.
Proof.
  revert c r. induction (N.lt_wf_0 x) as [x _ IH]; intros c r Hc.
  assert (x = 0 ∨ 0 < x)%N as [->|Hx] by lia.
  - rewrite pretty_N_go_0. eauto.
  - rewrite pretty_N_go_step by done. apply IH.
    + by apply N.div_lt.
    + apply pretty_N_char_ne_underscore.
Qed.

Lemma pretty_Z_head (i : Z) :
  ∃ c r, pretty i = String c r ∧ c ≠ Ascii.ascii_of_nat 95.
Proof.
  unfold pretty, pretty_Z. destruct i as [|p|p].
  - by eexists _, _.
  - unfold pretty, pretty_positive, pretty, pretty_N.
    rewrite decide_False by done.
    rewrite pretty_N_go_step by lia.
    apply pretty_N_go_head, pretty_N_char_ne_underscore.
  - by eexists _, _.
Qed.

(** X16.  With [skip_index = 0] the main program reads the three counters
    that [split_words] wrote.  With another [skip_index] it reads, for test
    and training, the file that [split_data] writes when it saves under the
    number [skip_index]; the validation path has two underscores before the
    number and is the name of no file that [split_data] saves, whatever the
    number and the language. *)
Theorem resume_paths k skip_index language :
  resume_path k 0 language = initial_path k language ∧
  (skip_index ≠ 0 → k ≠ validation →
   resume_path k skip_index language = checkpoint_path k skip_index language) ∧
  (skip_index ≠ 0 →
   ∀ i language',
     resume_path validation skip_index language
     ≠ checkpoint_path validation i language').
Proof.
  split; [by destruct k|]. split.
  - intros Hskip Hk. unfold resume_path, checkpoint_path.
    destruct k; [|done|]; by rewrite decide_False by done.
  - intros Hskip i language'. unfold resume_path, checkpoint_path.
    rewrite decide_False by done. simpl. intros [= Heq].
    destruct (pretty_Z_head i) as (c & r & Hi & Hc).
    rewrite Hi in Heq. simpl in Heq. by injection Heq as <- _.
Qed.

End NameFacts.

(** ** The sampler's batches *)

Section SamplerBatches.

Import Sampler.

Implicit Types (sizes l : list nat) (n m : nat).

Lemma join_cuts {A} n m (l : list A) :
  mjoin ((λ k, take n (drop (k * n) l)) <$> seq 0 m) = take (m * n) l.
Proof.
  induction m as [|m IH]; [done|].
  rewrite seq_S, fmap_app, join_app, IH. simpl. rewrite app_nil_r.
  rewrite take_take_drop. f_equal. lia.
Qed.

Lemma ceil_div_bounds_nat len n :
  (1 ≤ n)%nat →
  ((len + n - 1) `div` n * n < len + n ∧ len ≤ (len + n - 1) `div` n * n)%nat.
Proof.
  intros Hn. pose proof (Nat.div_mod (len + n - 1) n ltac:(lia)) as Hdm.
  pose proof (Nat.mod_upper_bound (len + n - 1) n ltac:(lia)). nia.
Qed.

Lemma chunks_cuts n l :
  (1 ≤ n)%nat →
  chunks n l
  = (λ k, take n (drop (k * n) l)) <$> seq 0 ((length l + n - 1) `div` n)%nat.
Proof. intros Hn. unfold chunks. by apply chunks_upto_spec. Qed.

Lemma chunks_join n l : (1 ≤ n)%nat → mjoin (chunks n l) = l.
Proof.
  intros Hn. rewrite chunks_cuts, join_cuts by done.
  apply take_ge. pose proof (ceil_div_bounds_nat (length l) n Hn). lia.
Qed.

Lemma chunks_length n l :
  (1 ≤ n)%nat → length (chunks n l) = ((length l + n - 1) `div` n)%nat.
Proof. intros Hn. by rewrite chunks_cuts, length_fmap, length_seq. Qed.

Lemma chunks_lookup n l j c :
  (1 ≤ n)%nat → chunks n l !! j = Some c →
  c = take n (drop (j * n) l) ∧ (j < (length l + n - 1) `div` n)%nat.
Proof.
  intros Hn. rewrite chunks_cuts by done. rewrite list_lookup_fmap.
  destruct (seq 0 _ !! j) as [k|] eqn:Hk; [|done]. simpl. intros [= <-].
  apply lookup_seq in Hk as [-> Hlt]. done.
Qed.

Lemma chunk_length n l j c :
  (1 ≤ n)%nat → chunks n l !! j = Some c →
  (1 ≤ length c ≤ n)%nat ∧
  (S j < length (chunks n l) → length c = n)%nat ∧
  (S j = length (chunks n l) → length c = length l - j * n)%nat.
Proof.
  intros Hn Hc. rewrite chunks_length by done.
  apply chunks_lookup in Hc as [-> Hj]; [|done].
  pose proof (ceil_div_bounds_nat (length l) n Hn) as [Hlo Hhi].
  rewrite length_take, length_drop. nia.
Qed.

Lemma removelast_cuts {A} n m (l : list A) :
  removelast ((λ k, take n (drop (k * n) l)) <$> seq 0 (S m))
  = (λ k, take n (drop (k * n) l)) <$> seq 0 m.
Proof. rewrite seq_S, fmap_app. exact (removelast_last _ _). Qed.

Lemma last_cuts {A} n m (l : list A) :
  last ((λ k, take n (drop (k * n) l)) <$> seq 0 (S m))
  = Some (take n (drop (m * n) l)).
Proof. rewrite seq_S, fmap_app. exact (last_snoc _ _). Qed.

Lemma argsort_length argsort sizes :
  is_argsort argsort → length (argsort sizes) = length sizes.
Proof.
  intros Hargsort. destruct (Hargsort sizes) as [Hperm _].
  by rewrite Hperm, length_seq.
Qed.

(** With [drop_last] set, the batches described are the full chunks. *)
Lemma described_drop_last n l :
  (1 ≤ n)%nat →
  described_batches n true l
  = (λ k, take n (drop (k * n) l)) <$> seq 0 (length l `div` n)%nat.
Proof.
  intros Hn. unfold described_batches. rewrite chunks_cuts by done.
  pose proof (ceil_div_bounds_nat (length l) n Hn) as [Hlo Hhi].
  destruct ((length l + n - 1) `div` n)%nat as [|q] eqn:Hq.
  - simpl. assert (length l = 0)%nat as -> by lia.
    by rewrite Nat.div_small by lia.
  - rewrite last_cuts, removelast_cuts, length_take, length_drop.
    case_decide as Hshort.
    + f_equal. f_equal. apply (Nat.div_unique _ _ q (length l - q * n)); lia.
    + f_equal. f_equal.
      apply (Nat.div_unique _ _ (S q) (length l - S q * n)); lia.
Qed.

Lemma cuts_full {A} n m (l : list A) :
  (m * n ≤ length l)%nat →
  Forall (λ c, length c = n) ((λ k, take n (drop (k * n) l)) <$> seq 0 m).
Proof.
  intros Hm. apply Forall_fmap, Forall_forall. intros k Hk%elem_of_seq. simpl.
  rewrite length_take, length_drop. nia.
Qed.

Lemma sorted_join_lookup {A} (R : relation A) (ls : list (list A)) j1 j2 b1 b2 x y :
  StronglySorted R (mjoin ls) →
  ls !! j1 = Some b1 → ls !! j2 = Some b2 → (j1 < j2)%nat →
  x ∈ b1 → y ∈ b2 → R x y.
Proof.
  revert j1 j2. induction ls as [|b ls IH]; intros j1 j2 Hsorted H1 H2 Hlt Hx Hy;
    [done|].
  simpl in Hsorted. apply StronglySorted_app in Hsorted as (Hcross & _ & Hrest).
  destruct j2 as [|j2]; [lia|]. destruct j1 as [|j1].
  - injection H1 as ->. apply Hcross; [done|].
    apply list_elem_of_join. exists b2. split; [done|].
    by apply (list_elem_of_lookup_2 _ j2).
  - apply (IH j1 j2); (done || lia).
Qed.

Lemma iter_keep_last argsort sizes batch_size :
  is_argsort argsort → 0 < batch_size →
  iter argsort sizes batch_size false
  = Ok (chunks (Z.to_nat batch_size) (argsort sizes)).
Proof. intros Hargsort Hpos. by rewrite iter_described. Qed.

Lemma iter_drop_last argsort sizes batch_size :
  is_argsort argsort → 0 < batch_size →
  iter argsort sizes batch_size true
  = if bool_decide (sizes = []) then Error IndexError
    else Ok ((λ k, take (Z.to_nat batch_size)
                     (drop (k * Z.to_nat batch_size) (argsort sizes)))
               <$> seq 0 (length sizes `div` Z.to_nat batch_size)%nat).
Proof.
  intros Hargsort Hpos. rewrite iter_described by done.
  rewrite <- (argsort_length argsort sizes Hargsort).
  rewrite <- described_drop_last by lia. done.
Qed.

(** X17.  Without [drop_last] and with a positive batch size, [__iter__]
    never raises; its batches, one after the other, are the sorted index
    list, so every example of the data source is in exactly one batch; no
    batch is empty or longer than the batch size, and all but the last one
    have exactly the batch size. *)
Theorem sampler_batches_partition argsort sizes batch_size :
  is_argsort argsort → 0 < batch_size →
  ∃ batches,
    iter argsort sizes batch_size false = Ok batches ∧
    mjoin batches = argsort sizes ∧
    mjoin batches ≡ₚ seq 0 (length sizes) ∧
    Forall (λ b, 1 ≤ length b ≤ Z.to_nat batch_size)%nat batches ∧
    (∀ j b, batches !! j = Some b → (S j < length batches)%nat →
            length b = Z.to_nat batch_size).
Proof.
  intros Hargsort Hpos. destruct (Hargsort sizes) as [Hperm _].
  rewrite (iter_keep_last _ _ _ Hargsort Hpos).
  eexists. split; [done|].
  assert (1 ≤ Z.to_nat batch_size)%nat as Hn by lia.
  split; [by apply chunks_join|]. split; [by rewrite chunks_join|].
  split.
  - apply Forall_forall. intros b [j Hj]%list_elem_of_lookup_1.
    by apply (chunk_length _ _ _ _ Hn Hj).
  - intros j b Hj. by apply (chunk_length _ _ _ _ Hn Hj).
Qed.

(** X18.  Whenever [__iter__] returns (positive batch size), [__len__] is
    the number of batches it yields, with or without [drop_last]. *)
Theorem sampler_len_counts_batches argsort sizes batch_size drop_last batches :
  is_argsort argsort → 0 < batch_size →
  iter argsort sizes batch_size drop_last = Ok batches →
  len sizes batch_size drop_last = Ok (Z.of_nat (length batches)).
Proof.
  intros Hargsort Hpos.
  assert (1 ≤ Z.to_nat batch_size)%nat as Hn by lia.
  unfold len. rewrite decide_False by lia.
  destruct drop_last.
  - rewrite (iter_drop_last _ _ _ Hargsort Hpos).
    case_bool_decide; [done|]. intros [= <-]. f_equal.
    rewrite length_fmap, length_seq.
    rewrite Nat2Z.inj_div. f_equal. lia.
  - rewrite (iter_keep_last _ _ _ Hargsort Hpos).
    intros [= <-]. f_equal.
    rewrite chunks_length, argsort_length by done.
    rewrite Nat2Z.inj_div. f_equal; lia.
Qed.

(** X19.  With [drop_last] set (and a data source that is not empty), every
    batch has exactly the batch size, and the batches, one after the other,
    are the first [len // batch_size * batch_size] indices of the sorted
    order: the examples left out are the longest ones. *)
Theorem sampler_drop_last_full_batches argsort sizes batch_size batches :
  is_argsort argsort → 0 < batch_size →
  iter argsort sizes batch_size true = Ok batches →
  Forall (λ b, length b = Z.to_nat batch_size) batches ∧
  mjoin batches
  = take (length sizes `div` Z.to_nat batch_size * Z.to_nat batch_size)
         (argsort sizes).
Proof.
  intros Hargsort Hpos. rewrite (iter_drop_last _ _ _ Hargsort Hpos).
  assert (1 ≤ Z.to_nat batch_size)%nat as Hn by lia.
  case_bool_decide; [done|]. intros [= <-].
  split; [|apply join_cuts].
  apply cuts_full. rewrite argsort_length by done.
  pose proof (Nat.div_mod (length sizes) (Z.to_nat batch_size) ltac:(lia)). lia.
Qed.

(** X20.  The batches come in ascending order of length: inside a batch the
    lengths do not decrease, and no example of a batch is longer than an
    example of a later batch. *)
Theorem sampler_batches_ascending
    argsort sizes batch_size drop_last batches :
  is_argsort argsort → 0 < batch_size →
  iter argsort sizes batch_size drop_last = Ok batches →
  StronglySorted (λ i j, size_at sizes i ≤ size_at sizes j)%nat (mjoin batches) ∧
  ∀ j1 j2 b1 b2 i1 i2,
    batches !! j1 = Some b1 → batches !! j2 = Some b2 → (j1 < j2)%nat →
    i1 ∈ b1 → i2 ∈ b2 → (size_at sizes i1 ≤ size_at sizes i2)%nat.
Proof.
  intros Hargsort Hpos Hiter. destruct (Hargsort sizes) as [_ Hsorted].
  assert (1 ≤ Z.to_nat batch_size)%nat as Hn by lia.
  assert (∃ m, mjoin batches = take m (argsort sizes)) as [m Hjoin].
  { destruct drop_last.
    - rewrite (iter_drop_last _ _ _ Hargsort Hpos) in Hiter.
      case_bool_decide; [done|]. injection Hiter as <-.
      eexists. apply join_cuts.
    - rewrite (iter_keep_last _ _ _ Hargsort Hpos) in Hiter.
      injection Hiter as <-.
      exists (length (argsort sizes)). by rewrite take_ge, chunks_join. }
  assert (StronglySorted (λ i j, size_at sizes i ≤ size_at sizes j)%nat
            (mjoin batches)) as Hs.
  { rewrite Hjoin. rewrite <- (take_drop m (argsort sizes)) in Hsorted.
    by apply StronglySorted_app_1_l in Hsorted. }
  split; [done|]. intros j1 j2 b1 b2 i1 i2 H1 H2 Hlt Hi1 Hi2.
  exact (sorted_join_lookup _ batches j1 j2 b1 b2 i1 i2 Hs H1 H2 Hlt Hi1 Hi2).
Qed.

(** X21.  A batch size that is not positive is not rejected by the
    constructor.  With batch size 0, [__iter__] raises [ValueError] (the
    step of [range]) and [__len__] raises [ZeroDivisionError].  With a
    negative batch size, [__iter__] yields no batch at all without
    [drop_last] and raises [IndexError] with it, whatever the data source,
    while [__len__] still returns a number. *)
Theorem sampler_nonpositive_batch_size argsort sizes batch_size drop_last :
  batch_size ≤ 0 →
  (batch_size = 0 →
   iter argsort sizes batch_size drop_last = Error ValueError ∧
   len sizes batch_size drop_last = Error ZeroDivisionError) ∧
  (batch_size < 0 →
   iter argsort sizes batch_size false = Ok [] ∧
   iter argsort sizes batch_size true = Error IndexError ∧
   ∃ z : Z, len sizes batch_size drop_last = Ok z).
Proof.
  intros Hle. split.
  - intros ->. done.
  - intros Hneg. unfold iter, len, batches_of.
    destruct batch_size as [|p|p]; try lia. simpl.
    split; [done|]. split; [done|].
    destruct (decide (Z.neg p = 0)) as [?|_]; [done|].
    destruct drop_last; eauto.
Qed.

End SamplerBatches.

(** ** Padding *)

Section PaddingFacts.

Import Collate.

Context {T : Type}.
Implicit Types (tensor p : list T) (m : list bool).

Lemma pad_tensor_fits tensor target_length :
  (length tensor ≤ target_length)%nat →
  (length tensor = 0 → target_length = 0)%nat →
  pad_tensor tensor target_length false
  = Ok (padded target_length tensor, validity target_length (length tensor)).
Proof.
  intros Hle Hzero. destruct (decide (1 ≤ length tensor)%nat) as [Hpos|Hempty].
  - apply pad_tensor_spec. lia.
  - destruct tensor; [|simpl in Hempty; lia].
    rewrite Hzero by done. done.
Qed.

Lemma pad_tensor_Ok_inv tensor target_length p m :
  pad_tensor tensor target_length false = Ok (p, m) →
  p = padded target_length tensor ∧
  m = validity target_length (length tensor) ∧
  (length tensor ≤ target_length)%nat ∧
  (length tensor = 0 → target_length = 0)%nat.
Proof.
  intros Hpad.
  assert (length tensor ≤ target_length ∧
          (length tensor = 0 → target_length = 0))%nat as [Hle Hzero].
  { revert Hpad. unfold pad_tensor. case_bool_decide; simpl; [done|].
    case_decide; [lia|]. destruct tensor; simpl in *; [done|]. intros _. lia. }
  rewrite pad_tensor_fits in Hpad by done. by injection Hpad as <- <-.
Qed.

Lemma padded_fits_length tensor target_length :
  (length tensor ≤ target_length)%nat →
  (length tensor = 0 → target_length = 0)%nat →
  length (padded target_length tensor) = target_length.
Proof.
  intros Hle Hzero. destruct (decide (1 ≤ length tensor)%nat) as [Hpos|Hempty].
  - apply padded_length. lia.
  - destruct tensor; [|simpl in Hempty; lia]. simpl in *. lia.
Qed.

(** X22.  [pad_tensor] (with [allow_longer] left at [False]) raises
    [ValueError] exactly when the tensor is longer than the target, raises
    [IndexError] exactly when the tensor has no timestep and the target is
    positive (there is no last timestep to repeat), and returns in all other
    cases; a tensor that already has the target length is returned as it
    is, with a mask that is true everywhere. *)
Theorem pad_tensor_errors tensor target_length :
  (pad_tensor tensor target_length false = Error ValueError ↔
   (target_length < length tensor)%nat) ∧
  (pad_tensor tensor target_length false = Error IndexError ↔
   (length tensor = 0 ∧ 0 < target_length)%nat) ∧
  ((∃ r, pad_tensor tensor target_length false = Ok r) ↔
   (length tensor = target_length ∨ 1 ≤ length tensor < target_length)%nat) ∧
  (length tensor = target_length →
   pad_tensor tensor target_length false
   = Ok (tensor, replicate target_length true)).
Proof.
  unfold pad_tensor.
  destruct (decide (target_length < length tensor)%nat) as [Hlong|Hfit].
  - rewrite bool_decide_eq_true_2 by done. simpl.
    repeat split;
      first [done|lia|by intros [r ?]|intros [?|?]; lia].
  - rewrite bool_decide_eq_false_2 by done. simpl.
    destruct (decide (length tensor = target_length)) as [Heq|Hne].
    + repeat split; first [done|lia|by eauto].
    + destruct (last tensor) as [x|] eqn:Hlast.
      * assert (1 ≤ length tensor)%nat
          by (destruct tensor; [done|simpl; lia]).
        repeat split; first [done|lia|by eauto].
      * apply last_None in Hlast. subst tensor. simpl in *.
        repeat split;
          first [done|lia|by intros [r ?]|intros [?|?]; lia].
Qed.

Lemma padded_lookup_tail tensor target_length j :
  (length tensor ≤ j < target_length)%nat →
  padded target_length tensor !! j = last tensor.
Proof.
  intros Hj. unfold padded. destruct (last tensor) as [x|] eqn:Hlast.
  - rewrite lookup_app_r by lia. apply lookup_replicate_2. lia.
  - apply last_None in Hlast. subst tensor. simpl in *.
    by apply lookup_ge_None_2; simpl; lia.
Qed.

(** X23.  When [pad_tensor] returns, the padded tensor and the mask both
    have the target length; the tensor starts with the original timesteps,
    unchanged and in order, and every timestep after them is a copy of the
    original's last one; the mask is true on the original timesteps and
    false on the padding. *)
Theorem pad_tensor_result tensor target_length p m :
  pad_tensor tensor target_length false = Ok (p, m) →
  length p = target_length ∧ length m = target_length ∧
  take (length tensor) p = tensor ∧
  (∀ j, (length tensor ≤ j < target_length)%nat → p !! j = last tensor) ∧
  (∀ j, (j < target_length)%nat →
        m !! j = Some (bool_decide (j < length tensor)%nat)).
Proof.
  intros (-> & -> & Hle & Hzero)%pad_tensor_Ok_inv.
  split; [by apply padded_fits_length|].
  split; [by apply validity_length|].
  split; [|split].
  - unfold padded. destruct (last tensor); [|by apply take_ge].
    by rewrite take_app_length.
  - intros j Hj. by apply padded_lookup_tail.
  - intros j Hj. by apply validity_lookup.
Qed.

(** X24.  [allow_longer] does not let a longer tensor through: with the flag
    set, a tensor longer than the target makes [pad_tensor] raise
    [RuntimeError] (the repeat count is negative) instead of [ValueError];
    for any other tensor the flag changes nothing.  So whatever the flag,
    a tensor and a mask that are returned have exactly the target
    length. *)
Theorem allow_longer_allows_nothing tensor target_length :
  ((target_length < length tensor)%nat →
   pad_tensor tensor target_length true = Error RuntimeError) ∧
  ((length tensor ≤ target_length)%nat →
   pad_tensor tensor target_length true = pad_tensor tensor target_length false) ∧
  (∀ allow_longer p m,
     pad_tensor tensor target_length allow_longer = Ok (p, m) →
     length p = target_length ∧ length m = target_length).
Proof.
  assert ((target_length < length tensor)%nat →
          pad_tensor tensor target_length true = Error RuntimeError) as Hlonger.
  { intros Hlt. unfold pad_tensor. rewrite andb_false_r.
    rewrite decide_False by lia.
    destruct (last tensor) eqn:Hlast;
      [|apply last_None in Hlast; subst; simpl in Hlt; lia].
    by rewrite decide_True by done. }
  assert ((length tensor ≤ target_length)%nat →
          pad_tensor tensor target_length true
          = pad_tensor tensor target_length false) as Hsame.
  { intros Hle. unfold pad_tensor.
    by rewrite bool_decide_eq_false_2 by lia. }
  split; [done|]. split; [done|].
  intros allow_longer p m Hpad.
  assert (pad_tensor tensor target_length false = Ok (p, m)) as Hpad'.
  { destruct allow_longer; [|done].
    destruct (decide (target_length < length tensor)%nat) as [Hlt|Hle].
    - by rewrite Hlonger in Hpad.
    - by rewrite <- Hsame by lia. }
  apply pad_tensor_Ok_inv in Hpad' as (-> & -> & Hle & Hzero).
  split; [by apply padded_fits_length|]. apply validity_length. lia.
Qed.

End PaddingFacts.

(** ** Collation *)

Section CollationFacts.

Import Collate.

Context {CP MEL : Type}.
Implicit Types (batch : list (list CP * list MEL)) (acc l : locals CP MEL).

Lemma collate_step_error M Mh e batch :
  foldl (collate_step (CP := CP) (MEL := MEL) M Mh) (Error e) batch = Error e.
Proof. induction batch as [|sample batch IH]; [done|]. exact IH. Qed.

Lemma collate_step_Ok_inv M Mh acc sample acc' :
  collate_step M Mh (Ok acc) sample = Ok acc' →
  acc' = mkLocals (padded_cps acc ++ [padded M sample.1])
                  (padded_melspecs acc ++ [padded Mh sample.2])
                  (mask acc ++ [validity Mh (length sample.2)]) ∧
  (Mh * 2 = M)%nat ∧
  (length sample.2 ≤ Mh)%nat ∧ (length sample.1 ≤ M)%nat ∧
  (length sample.1 = 0 → M = 0)%nat ∧ (length sample.2 = 0 → Mh = 0)%nat.
Proof.
  unfold collate_step. simpl.
  destruct (pad_tensor sample.2 Mh false) as [[p2 m2]|] eqn:H2; [|done].
  destruct (pad_tensor sample.1 M false) as [[p1 m1]|] eqn:H1; [|done].
  simpl. case_decide as Hlen; [|done]. intros [= <-].
  apply pad_tensor_Ok_inv in H1 as (-> & _ & Hle1 & Hz1).
  apply pad_tensor_Ok_inv in H2 as (-> & -> & Hle2 & Hz2).
  rewrite !padded_fits_length in Hlen by done. done.
Qed.

Lemma collate_loop_inv M Mh batch acc l :
  foldl (collate_step M Mh) (Ok acc) batch = Ok l →
  (batch ≠ [] → Mh * 2 = M)%nat ∧
  ∀ sample, sample ∈ batch →
    (length sample.2 ≤ Mh)%nat ∧
    (length sample.1 = 0 → M = 0)%nat ∧ (length sample.2 = 0 → Mh = 0)%nat.
Proof.
  revert acc. induction batch as [|sample batch IH]; intros acc Hloop.
  - split; [done|]. by intros sample ?%not_elem_of_nil.
  - change (foldl ?f ?a (sample :: batch)) with (foldl f (f a sample) batch)
      in Hloop.
    destruct (collate_step M Mh (Ok acc) sample) as [acc'|e] eqn:Hstep;
      [|by rewrite collate_step_error in Hloop].
    apply collate_step_Ok_inv in Hstep as (_ & Heven & Hle2 & _ & Hz1 & Hz2).
    apply IH in Hloop as [_ Hrest]. split; [done|].
    intros s [->|Hs]%elem_of_cons; [done|by apply Hrest].
Qed.

Lemma collate_loop_fits M Mh batch acc :
  (Mh * 2 = M)%nat →
  (∀ sample, sample ∈ batch →
     (length sample.1 ≤ M)%nat ∧ (length sample.2 ≤ Mh)%nat ∧
     (length sample.1 = 0 → M = 0)%nat ∧ (length sample.2 = 0 → Mh = 0)%nat) →
  foldl (collate_step M Mh) (Ok acc) batch
  = Ok (mkLocals
          (padded_cps acc ++ ((λ sample, padded M sample.1) <$> batch))
          (padded_melspecs acc ++ ((λ sample, padded Mh sample.2) <$> batch))
          (mask acc ++ ((λ sample, validity Mh (length sample.2)) <$> batch))).
Proof.
  intros Heven. revert acc. induction batch as [|sample batch IH]; intros acc Hall.
  - simpl. rewrite !app_nil_r. by destruct acc.
  - change (foldl ?f ?a (sample :: batch)) with (foldl f (f a sample) batch).
    destruct (Hall sample) as (Hle1 & Hle2 & Hz1 & Hz2); [left|].
    assert (collate_step M Mh (Ok acc) sample
            = Ok (mkLocals (padded_cps acc ++ [padded M sample.1])
                    (padded_melspecs acc ++ [padded Mh sample.2])
                    (mask acc ++ [validity Mh (length sample.2)])))
      as ->.
    { unfold collate_step. simpl.
      rewrite (pad_tensor_fits sample.2) by done. simpl.
      rewrite (pad_tensor_fits sample.1) by done. simpl.
      rewrite decide_True; [done|].
      rewrite !padded_fits_length by done. lia. }
    rewrite IH by (intros s Hs; apply Hall; by right).
    simpl. by rewrite <- !(assoc_L (++)).
Qed.

Lemma collate_accepts batch :
  let M := max_list ((λ sample, length sample.1) <$> batch) in
  let Mh := (M `div` 2)%nat in
  batch ≠ [] → (Mh * 2 = M)%nat →
  (∀ sample, sample ∈ batch →
     (length sample.2 ≤ Mh)%nat ∧
     (length sample.1 = 0 → M = 0)%nat ∧ (length sample.2 = 0 → Mh = 0)%nat) →
  collate_locals batch
  = Ok (mkLocals ((λ sample, padded M sample.1) <$> batch)
          ((λ sample, padded Mh sample.2) <$> batch)
          ((λ sample, validity Mh (length sample.2)) <$> batch)) ∧
  collate_batch_with_padding batch
  = Ok ((λ sample, padded M sample.1) <$> batch,
        (λ sample, padded Mh sample.2) <$> batch) ∧
  Forall (λ t, length t = M) ((λ sample, padded M sample.1) <$> batch) ∧
  Forall (λ t, length t = Mh) ((λ sample, padded Mh sample.2) <$> batch).
Proof.
  intros M Mh Hne Heven Hall.
  assert (∀ sample, sample ∈ batch → (length sample.1 ≤ M)%nat) as Hle.
  { intros sample Hin. apply max_list_elem_of_le.
    by apply (list_elem_of_fmap_2 (λ sample, length sample.1)). }
  assert (collate_locals batch
          = Ok (mkLocals ((λ sample, padded M sample.1) <$> batch)
                  ((λ sample, padded Mh sample.2) <$> batch)
                  ((λ sample, validity Mh (length sample.2)) <$> batch)))
    as Hlocals.
  { unfold collate_locals. destruct batch as [|s b]; [done|].
    rewrite fmap_cons, max_of_max_list.
    change (max_list (length s.1 :: ((λ sample, length sample.1) <$> b))) with M.
    change (Ok M ≫= _)
      with (foldl (collate_step M Mh) (Ok (mkLocals [] [] [])) (s :: b)).
    rewrite (collate_loop_fits M Mh); [done|done|].
    intros sample Hin. destruct (Hall sample Hin) as (? & ? & ?).
    specialize (Hle sample Hin). done. }
  assert (Forall (λ t, length t = M) ((λ sample, padded M sample.1) <$> batch))
    as Hcps.
  { apply Forall_fmap, Forall_forall. intros sample Hin. simpl.
    destruct (Hall sample Hin) as (? & ? & ?).
    apply padded_fits_length; [by apply Hle|done]. }
  assert (Forall (λ t, length t = Mh)
            ((λ sample, padded Mh sample.2) <$> batch)) as Hmels.
  { apply Forall_fmap, Forall_forall. intros sample Hin. simpl.
    destruct (Hall sample Hin) as (? & ? & ?).
    by apply padded_fits_length. }
  split; [done|]. split; [|done].
  unfold collate_batch_with_padding. rewrite Hlocals. simpl.
  rewrite (stack_same_length ((λ sample, padded M sample.1) <$> batch) M);
    [|by destruct batch|done].
  simpl.
  by rewrite (stack_same_length ((λ sample, padded Mh sample.2) <$> batch) Mh);
    [|by destruct batch|done].
Qed.

(** X25.  [collate_batch_with_padding] checks less than the 2:1 ratio of
    every example.  It returns exactly when the batch is not empty, the
    longest articulatory length [M] of the batch is even, no spectrogram
    sequence is longer than [M // 2], and no sequence that needs padding is
    without timesteps; it then returns the sequences padded to [M] and to
    [M // 2], example by example in the order of the batch.  An example
    with 4 articulatory timesteps and 1 spectrogram timestep is accepted. *)
Theorem collate_succeeds_iff batch :
  let M := max_list ((λ sample, length sample.1) <$> batch) in
  let Mh := (M `div` 2)%nat in
  ((∃ l, collate_locals batch = Ok l) ↔
   batch ≠ [] ∧ (Mh * 2 = M)%nat ∧
   ∀ sample, sample ∈ batch →
     (length sample.2 ≤ Mh)%nat ∧
     (length sample.1 = 0 → M = 0)%nat ∧ (length sample.2 = 0 → Mh = 0)%nat) ∧
  (∀ l, collate_locals batch = Ok l →
     l = mkLocals ((λ sample, padded M sample.1) <$> batch)
                  ((λ sample, padded Mh sample.2) <$> batch)
                  ((λ sample, validity Mh (length sample.2)) <$> batch) ∧
     collate_batch_with_padding batch
     = Ok ((λ sample, padded M sample.1) <$> batch,
           (λ sample, padded Mh sample.2) <$> batch)) ∧
  (∀ (a : CP) (b : MEL),
     ∃ l, collate_locals [([a; a; a; a], [b])] = Ok l).
Proof.
  intros M Mh.
  assert ((∃ l, collate_locals batch = Ok l) →
          batch ≠ [] ∧ (Mh * 2 = M)%nat ∧
          ∀ sample, sample ∈ batch →
            (length sample.2 ≤ Mh)%nat ∧
            (length sample.1 = 0 → M = 0)%nat ∧
            (length sample.2 = 0 → Mh = 0)%nat) as Hforth.
  { intros [l Hl].
    assert (batch ≠ []) as Hne by (intros ->; done).
    assert (collate_locals batch
            = foldl (collate_step M Mh) (Ok (mkLocals [] [] [])) batch) as Hunfold.
    { unfold collate_locals. destruct batch as [|s b]; [done|].
      by rewrite fmap_cons, max_of_max_list. }
    rewrite Hunfold in Hl.
    apply collate_loop_inv in Hl as [Heven Hall]. auto. }
  split; [|split].
  - split; [done|]. intros (Hne & Heven & Hall). eexists.
    by apply (collate_accepts batch Hne Heven Hall).
  - intros l Hl. destruct (Hforth (ex_intro _ l Hl)) as (Hne & Heven & Hall).
    destruct (collate_accepts batch Hne Heven Hall) as (Hl' & Hcollate & _).
    rewrite Hl' in Hl. by injection Hl as <-.
  - intros a b. eexists. reflexivity.
Qed.

End CollationFacts.

(** ** The data loader *)

Section LoaderFacts.

Import Sampler Collate Loader.

Lemma mapM_result_Forall2 {A B} (f : A → result B) (P : A → B → Prop)
    (l : list A) :
  (∀ x, x ∈ l → ∃ y, f x = Ok y ∧ P x y) →
  ∃ ys, mapM f l = Ok ys ∧ Forall2 P l ys.
Proof.
  induction l as [|x l IH]; intros Hall.
  - exists []. split; [done|constructor].
  - destruct (Hall x) as (y & Hy & HP); [left|].
    destruct IH as (ys & Hys & HF); [intros z Hz; apply Hall; by right|].
    exists (y :: ys). split; [|by constructor].
    simpl. rewrite Hy. simpl. rewrite Hys. done.
Qed.

Context {CP MEL : Type}.
Implicit Types (df : list (list CP * list MEL)).

Lemma getitem_from_frame df idx sample :
  df !! idx = Some sample → getitem (from_frame df) idx = Ok sample.
Proof.
  intros Hidx. unfold getitem, from_frame. simpl.
  rewrite !list_lookup_fmap, Hidx. by destruct sample.
Qed.

(** X26.  Over a frame whose examples each have at least one spectrogram
    timestep and exactly twice as many articulatory timesteps, and with a
    positive batch size, the data loader built by [train_forward_on_one_df]
    goes through all its batches without an error: the index batches of the
    sampler cover every example of the frame exactly once, every index is
    fetched from the data set, and the batch made of them is a pair of
    rectangular tensors, the articulatory one of the longest articulatory
    length [M] of the batch and the spectrogram one of [M // 2]. *)
Theorem dataloader_batches argsort df batch_size :
  is_argsort argsort → 0 < batch_size →
  (∀ sample, sample ∈ df →
     (length sample.1 = 2 * length sample.2 ∧ 1 ≤ length sample.2)%nat) →
  ∃ batches out,
    iter argsort (sizes_of (cp_norm (from_frame df))) batch_size false
      = Ok batches ∧
    dataloader argsort (from_frame df) batch_size = Ok out ∧
    mjoin batches ≡ₚ seq 0 (length df) ∧
    Forall2
      (λ batch o,
         ∃ samples,
           Forall2 (λ idx sample, df !! idx = Some sample) batch samples ∧
           let M := max_list ((λ sample, length sample.1) <$> samples) in
           o = ((λ sample, padded M sample.1) <$> samples,
                (λ sample, padded (M `div` 2) sample.2) <$> samples) ∧
           Forall (λ t, length t = M) o.1 ∧
           Forall (λ t, length t = (M `div` 2)%nat) o.2)
      batches out.
Proof.
  intros Hargsort Hpos Hdf.
  assert (1 ≤ Z.to_nat batch_size)%nat as Hn by lia.
  set (sizes := sizes_of (cp_norm (from_frame df))).
  set (batches := chunks (Z.to_nat batch_size) (argsort sizes)).
  pose proof (iter_keep_last argsort sizes batch_size Hargsort Hpos) as Hiter.
  fold batches in Hiter.
  assert (mjoin batches ≡ₚ seq 0 (length df)) as Hperm.
  { subst batches. rewrite chunks_join by done.
    destruct (Hargsort sizes) as [Hperm _]. rewrite Hperm. subst sizes.
    unfold sizes_of, from_frame; simpl. by rewrite !length_fmap. }
  assert (Forall (λ b, 1 ≤ length b ≤ Z.to_nat batch_size)%nat batches)
    as Hsizes.
  { apply Forall_forall. intros b [j Hj]%list_elem_of_lookup_1.
    by apply (chunk_length _ _ _ _ Hn Hj). }
  exists batches. unfold dataloader. fold sizes. rewrite Hiter. simpl.
  edestruct (mapM_result_Forall2 (fetch (from_frame df))) as (out & Hout & HF);
    [|exists out; split; [done|]; split; [exact Hout|]; split; [done|exact HF]].
  intros batch Hbatch. simpl.
  assert (batch ≠ []) as Hne.
  { rewrite Forall_forall in Hsizes. specialize (Hsizes batch Hbatch).
    intros ->. simpl in Hsizes. lia. }
  destruct (mapM_result_Forall2 (getitem (from_frame df))
              (λ idx sample, df !! idx = Some sample) batch)
    as (samples & Hsamples & Hfetch).
  { intros idx Hidx.
    assert (idx ∈ seq 0 (length df)) as Hin.
    { rewrite <- Hperm. apply list_elem_of_join. by exists batch. }
    apply elem_of_seq in Hin as [_ Hin].
    destruct (lookup_lt_is_Some_2 df idx Hin) as [sample Hs].
    exists sample. split; [by apply getitem_from_frame|done]. }
  assert (samples ≠ []) as Hne'.
  { intros ->. apply Forall2_nil_inv_r in Hfetch. done. }
  assert (∀ sample, sample ∈ samples →
            (length sample.1 = 2 * length sample.2 ∧ 1 ≤ length sample.2)%nat)
    as Hok.
  { intros sample [k Hk]%list_elem_of_lookup_1. apply Hdf.
    destruct (Forall2_lookup_r _ _ _ _ _ Hfetch Hk) as (idx & _ & Hidx).
    by apply (list_elem_of_lookup_2 _ idx). }
  set (M := max_list ((λ sample, length sample.1) <$> samples)).
  assert (M `div` 2 * 2 = M)%nat as Heven.
  { assert ((λ sample, length sample.1) <$> samples ≠ []) as Hlens
      by by destruct samples.
    apply max_list_attained, list_elem_of_fmap_1 in Hlens
      as (sample & Hlen & Hin).
    destruct (Hok sample Hin) as [Hr _]. fold M in Hlen.
    rewrite Hlen, Hr, (Nat.mul_comm 2), Nat.div_mul by lia. lia. }
  destruct (collate_accepts samples Hne' Heven)
    as (_ & Hcollate & Hcps & Hmels).
  { intros sample Hin. destruct (Hok sample Hin) as [Hr Hone].
    assert (length sample.1 ≤ M)%nat as Hle.
    { apply max_list_elem_of_le.
      by apply (list_elem_of_fmap_2 (λ sample, length sample.1)). }
    fold M. clearbody M. repeat split; lia. }
  eexists. split.
  { unfold fetch. rewrite Hsamples. simpl. exact Hcollate. }
  exists samples. by repeat split.
Qed.

End LoaderFacts.

(** ** [train_whole_dataset] *)

Section TrainerFacts.

Import Names Trainer.

Variable shuffle : nat → list string → list string.

Local Abbreviation train_step := Trainer.train_step.
Local Abbreviation epoch_step := (Trainer.epoch_step shuffle).
Local Abbreviation train_whole_dataset := (Trainer.train_whole_dataset shuffle).

Lemma enumerate_from epoch skip (trace : list event) (files : list string) k :
  foldl (train_step epoch skip) trace (imap (λ i file, (k + i, file)%nat) files)
  = trace ++ (Train epoch <$> drop (Z.to_nat skip - k) files).
Proof.
  revert trace k. induction files as [|file files IH]; intros trace k.
  - simpl. by rewrite drop_nil, app_nil_r.
  - simpl. rewrite (imap_ext _ (λ i file, (S k + i, file)%nat))
      by (intros; simpl; f_equal; lia).
    rewrite IH. case_decide as Hskip.
    + replace (Z.to_nat skip - k)%nat with (S (Z.to_nat skip - S k)) by lia.
      done.
    + replace (Z.to_nat skip - k)%nat with 0%nat by lia.
      replace (Z.to_nat skip - S k)%nat with 0%nat by lia.
      simpl. by rewrite <- (assoc_L (++)).
Qed.

Lemma enumerate_skip epoch skip (trace : list event) (files : list string) :
  foldl (train_step epoch skip) trace (imap pair files)
  = trace ++ (Train epoch <$> drop (Z.to_nat skip) files).
Proof.
  pose proof (enumerate_from epoch skip trace files 0) as H.
  rewrite Nat.sub_0_r in H. exact H.
Qed.

Lemma epoch_step_error epochs validate_every save_every vfiles e
    (epochs_left : list nat) :
  foldl (epoch_step epochs validate_every save_every vfiles) (Error e) epochs_left
  = Error e.
Proof. induction epochs_left as [|n l IH]; [done|]. exact IH. Qed.

Lemma trained_in_app epoch (t1 t2 : list event) :
  trained_in epoch (t1 ++ t2) = trained_in epoch t1 ++ trained_in epoch t2.
Proof. apply omap_app. Qed.

Lemma trained_in_train epoch e (files : list string) :
  trained_in epoch (Train e <$> files) = if decide (e = epoch) then files else [].
Proof.
  unfold trained_in. destruct (decide (e = epoch)) as [He|He].
  - induction files as [|file files IH]; [done|].
    simpl. rewrite decide_True by done. simpl. by f_equal.
  - induction files as [|file files IH]; [done|].
    simpl. by rewrite decide_False by done.
Qed.

(** The events of one epoch. *)
Lemma epoch_step_Ok epochs validate_every save_every vfiles s epoch :
  validate_every ≠ 0 → save_every ≠ 0 →
  epoch_step epochs validate_every save_every vfiles (Ok s) epoch
  = Ok (mkProgress (shuffle epoch (filtered_files s)) 0
          (trace s
           ++ (Train epoch
                 <$> drop (Z.to_nat (skip_index s))
                          (shuffle epoch (filtered_files s)))
           ++ (if decide (Z.of_nat epoch `mod` validate_every = 0)
               then [Validate epoch vfiles] else [])
           ++ (if decide (Z.of_nat epoch `mod` save_every = 0
                          ∨ Z.of_nat epoch = epochs - 1)
               then [Save epoch (skip_index s)] else []))).
Proof.
  intros Hv Hs. unfold Trainer.epoch_step. simpl.
  rewrite enumerate_skip.
  destruct (decide (validate_every = 0)) as [?|_]; [done|].
  destruct (decide (Z.of_nat epoch `mod` validate_every = 0)); simpl;
    (destruct (decide (save_every = 0)) as [?|_]; [done|]);
    destruct (decide (Z.of_nat epoch `mod` save_every = 0
                      ∨ Z.of_nat epoch = epochs - 1)); simpl;
    by rewrite <- ?(assoc_L (++)), ?app_nil_r.
Qed.

Lemma epochs_spec files epochs skip validate_every save_every (n : nat) :
  (∀ epoch l, shuffle epoch l ≡ₚ l) →
  validate_every ≠ 0 → save_every ≠ 0 →
  let F := filter (λ file, is_training_file file = true) files in
  let V := filter (λ file, is_validation_file file = true) files in
  ∃ s,
    foldl (epoch_step epochs validate_every save_every V)
          (Ok (mkProgress F skip [])) (seq 0 n) = Ok s ∧
    filtered_files s ≡ₚ F ∧ (n = 0%nat → filtered_files s = F) ∧
    skip_index s = (if decide (n = 0%nat) then skip else 0) ∧
    ((0 < n)%nat →
     trained_in 0 (trace s) = drop (Z.to_nat skip) (shuffle 0 F)) ∧
    (∀ e, (0 < e < n)%nat → trained_in e (trace s) ≡ₚ F) ∧
    (∀ e, (n ≤ e)%nat → trained_in e (trace s) = []) ∧
    (∀ e sk,
       Save e sk ∈ trace s ↔
       (e < n)%nat ∧
       (Z.of_nat e `mod` save_every = 0 ∨ Z.of_nat e = epochs - 1) ∧
       sk = if decide (e = 0%nat) then skip else 0) ∧
    (∀ e fs,
       Validate e fs ∈ trace s ↔
       (e < n)%nat ∧ Z.of_nat e `mod` validate_every = 0 ∧ fs = V).
Proof.
  intros Hshuffle Hv Hs F V. induction n as [|n IH].
  - eexists. split; [done|]. simpl.
    split; [done|]. split; [done|]. split; [done|].
    split; [lia|]. split; [lia|]. split; [done|].
    split; intros; (split; [by intros ?%not_elem_of_nil|lia]).
  - destruct IH as (s & Hloop & Hperm & Hfirst & Hskip & H0 & Hlater & Hnone
                    & Hsave & Hval).
    rewrite seq_S, foldl_app, Hloop. cbn [foldl Nat.add].
    rewrite epoch_step_Ok by done. eexists. split; [done|]. simpl.
    set (trained := drop (Z.to_nat (skip_index s))
                         (shuffle n (filtered_files s))).
    assert (∀ e, trained_in e
                   (trace s ++ (Train n <$> trained)
                    ++ (if decide (Z.of_nat n `mod` validate_every = 0)
                        then [Validate n V] else [])
                    ++ (if decide (Z.of_nat n `mod` save_every = 0
                                   ∨ Z.of_nat n = epochs - 1)
                        then [Save n (skip_index s)] else []))
                 = trained_in e (trace s)
                   ++ (if decide (n = e) then trained else [])) as Htrained.
    { intros e. rewrite !trained_in_app, trained_in_train.
      by repeat case_decide; rewrite ?app_nil_r. }
    split; [by rewrite Hshuffle|]. split; [done|]. split; [done|].
    split; [|split; [|split; [|split]]].
    + intros _. rewrite Htrained. destruct n as [|n].
      * rewrite Hnone by lia. rewrite decide_True by done. subst trained.
        rewrite Hfirst by done. rewrite Hskip. done.
      * rewrite H0 by lia. rewrite decide_False by lia. by rewrite app_nil_r.
    + intros e He. rewrite Htrained. destruct (decide (n = e)) as [<-|Hne].
      * rewrite Hnone by lia. subst trained. rewrite Hskip.
        rewrite decide_False by lia. simpl. by rewrite Hshuffle.
      * rewrite app_nil_r. apply Hlater. lia.
    + intros e He. rewrite Htrained, Hnone by lia.
      by rewrite decide_False by lia.
    + intros e sk. rewrite !elem_of_app, Hsave, list_elem_of_fmap.
      split.
      * intros [(He & Hcond & Hsk)|[(? & ? & ?)|[Hin|Hin]]]; [|done| |].
        -- split; [lia|done].
        -- by case_decide; [apply list_elem_of_singleton in Hin
                           |apply not_elem_of_nil in Hin].
        -- case_decide as Hcond; [|by apply not_elem_of_nil in Hin].
           apply list_elem_of_singleton in Hin. injection Hin as -> ->.
           split; [lia|]. split; [done|]. rewrite Hskip. done.
      * intros (He & Hcond & Hsk).
        destruct (decide (e = n)) as [->|Hne].
        -- right. right. right. rewrite decide_True by done.
           apply list_elem_of_singleton. by rewrite Hsk, Hskip.
        -- left. split; [lia|done].
    + intros e fs. rewrite !elem_of_app, Hval, list_elem_of_fmap.
      split.
      * intros [(He & Hcond & Hfs)|[(? & ? & ?)|[Hin|Hin]]]; [|done| |].
        -- split; [lia|done].
        -- case_decide as Hcond; [|by apply not_elem_of_nil in Hin].
           apply list_elem_of_singleton in Hin. injection Hin as -> ->.
           split; [lia|done].
        -- by case_decide; [apply list_elem_of_singleton in Hin
                           |apply not_elem_of_nil in Hin].
      * intros (He & Hcond & Hfs).
        destruct (decide (e = n)) as [->|Hne].
        -- right. right. left. rewrite decide_True by done.
           apply list_elem_of_singleton. by rewrite Hfs.
        -- left. split; [lia|done].
Qed.

(** X27.  The schedule of [train_whole_dataset], for a run in which the
    training and validation calls return.  [skip_index] acts in the first
    epoch only, and on the freshly shuffled order: the files trained on in
    epoch 0 are the shuffled training files without the first [skip_index]
    of them.  Every later epoch trains on every training file exactly once.
    The model is saved after the epochs whose number is a multiple of
    [save_every] and after the last epoch, together with the [skip_index]
    that was in force (the given one in epoch 0, then 0); validation runs
    after the epochs whose number is a multiple of [validate_every], on the
    validation files.  A period of 0 makes the run end in
    [ZeroDivisionError] in its first epoch; with no epoch at all nothing
    happens. *)
Theorem training_schedule files epochs skip validate_every save_every :
  (∀ epoch l, shuffle epoch l ≡ₚ l) →
  let F := filter (λ file, is_training_file file = true) files in
  let V := filter (λ file, is_validation_file file = true) files in
  (epochs ≤ 0 →
   train_whole_dataset files epochs skip validate_every save_every = Ok []) ∧
  (0 < epochs → validate_every = 0 ∨ save_every = 0 →
   train_whole_dataset files epochs skip validate_every save_every
   = Error ZeroDivisionError) ∧
  (validate_every ≠ 0 → save_every ≠ 0 →
   ∃ trace,
     train_whole_dataset files epochs skip validate_every save_every = Ok trace ∧
     (0 < epochs →
      trained_in 0 trace = drop (Z.to_nat skip) (shuffle 0 F)) ∧
     (∀ e, 0 < Z.of_nat e < epochs → trained_in e trace ≡ₚ F) ∧
     (∀ e, epochs ≤ Z.of_nat e → trained_in e trace = []) ∧
     (∀ e sk,
        Save e sk ∈ trace ↔
        Z.of_nat e < epochs ∧
        (Z.of_nat e `mod` save_every = 0 ∨ Z.of_nat e = epochs - 1) ∧
        sk = if decide (e = 0%nat) then skip else 0) ∧
     (∀ e fs,
        Validate e fs ∈ trace ↔
        Z.of_nat e < epochs ∧ Z.of_nat e `mod` validate_every = 0 ∧ fs = V)).
Proof.
  intros Hshuffle F V. split; [|split].
  - intros Hepochs. unfold Trainer.train_whole_dataset.
    by replace (Z.to_nat epochs) with 0%nat by lia.
  - intros Hepochs Hzero. unfold Trainer.train_whole_dataset.
    replace (Z.to_nat epochs) with (S (Z.to_nat epochs - 1)) by lia.
    cbn [seq foldl]. fold F V.
    assert (epoch_step epochs validate_every save_every V
              (Ok (mkProgress F skip [])) 0
            = Error ZeroDivisionError) as ->.
    { unfold Trainer.epoch_step. simpl.
      destruct (decide (validate_every = 0)) as [?|Hv]; [done|].
      destruct Hzero as [?|Hs]; [done|].
      case_decide; simpl; by destruct (decide (save_every = 0)). }
    by rewrite epoch_step_error.
  - intros Hv Hs.
    destruct (epochs_spec files epochs skip validate_every save_every
                (Z.to_nat epochs) Hshuffle Hv Hs)
      as (s & Hloop & _ & _ & _ & H0 & Hlater & Hnone & Hsave & Hval).
    exists (trace s). unfold Trainer.train_whole_dataset.
    fold F V in Hloop |- *. rewrite Hloop. split; [done|].
    split; [intros; apply H0; lia|].
    split; [intros; apply Hlater; lia|].
    split; [intros; apply Hnone; lia|].
    split.
    + intros e sk. rewrite Hsave. split; intros (? & ? & ?); (split; [lia|done]).
    + intros e fs. rewrite Hval. split; intros (? & ? & ?); (split; [lia|done]).
Qed.

End TrainerFacts.

(** ** The further properties on sample inputs *)

Section FurtherExamples.

Import WordQuota Report Partitioner Streams Names Sampler Collate Loader
  Trainer Examples MoreExamples.

Lemma split_words_quota_shape_witness :
  ∃ qs t,
    split_words {[ "the" := 25 ]} [] [] = Some qs ∧
    on_test qs !! "the" = Some t ∧
    on_validation qs !! "the" = Some t ∧
    on_training qs !! "the" = Some (25 - 2 * t) ∧
    t = ceil_div 25 10 ∧ 10 * (t - 1) < 25 ≤ 10 * t ∧
    (25 - 2 * t = 0 ↔ 25 = 2).
Proof.
  apply (split_words_quota_shape {[ "the" := 25 ]} [] [] "the" 25).
  - vm_compute. reflexivity.
  - lia.
Defined.

Lemma corrections_commute_witness :
  corrected_words {[ "a" := 3; "b" := 1 ]} ["a"; "b"] ["a"]
  = corrected_words {[ "a" := 3; "b" := 1 ]} ["a"] ["b"; "a"].
Proof.
  apply (corrections_commute {[ "a" := 3; "b" := 1 ]} ["a"; "b"] ["a"]
           ["a"] ["b"; "a"]).
  - unfold Counter.positive. apply (bool_decide_unpack _). vm_compute. exact I.
  - reflexivity.
Defined.

Lemma split_words_report_witness :
  split_words_checked {[ "a" := 2; "b" := 1 ]} ["a"; "b"] ["a"]
    = Error ZeroDivisionError
  ↔ ∀ word, Counter.get {[ "a" := 2; "b" := 1 ]} word
            ≤ listed word (["a"; "b"] ++ ["a"]).
Proof.
  refine (proj1 (split_words_report {[ "a" := 2; "b" := 1 ]} ["a"; "b"] ["a"] _)).
  unfold Counter.positive. apply (bool_decide_unpack _). vm_compute. exact I.
Defined.

Lemma labelled_listing_room skip : Forall room (loaded_by labelled_listing skip).
Proof.
  apply Forall_forall. intros file Hin%loaded_by_listed.
  unfold labelled_listing in Hin.
  repeat (apply elem_of_cons in Hin as [->|Hin]);
    [by vm_compute..|by apply not_elem_of_nil in Hin].
Qed.

Lemma checkpoints_by_last_label_witness :
  ∃ s',
    split_data keep keep 5 labelled_listing 0 ∅ ∅ ∅ [] 5 = Done s' ∧
    (λ c, (cp_place c, cp_i c)) <$> checkpoints s' = [(working_directory, 10)].
Proof.
  destruct (run_total keep keep 5 labelled_listing 0 ∅ ∅ ∅ [] 5 ltac:(lia)
              (labelled_listing_room 0) ltac:(vm_compute; lia)) as [s' Hrun].
  exists s'. split; [exact Hrun|].
  refine (checkpoints_by_last_label keep keep 5 labelled_listing 0 ∅ ∅ ∅ [] 5 s'
            ltac:(lia) _ Hrun).
  intros file Hin%loaded_by_listed. unfold labelled_listing in Hin.
  repeat (apply elem_of_cons in Hin as [->|Hin]);
    [done..|by apply not_elem_of_nil in Hin].
Defined.


Lemma shards_cut_at_data_size_witness :
  (1 ≤ 2)%nat ∧
  (∃ n, (n * 2 ≤ 3 < n * 2 + 2)%nat ∧
        flush 3 2 test three_buffered = Done (flushed test n 2 three_buffered)) ∧
  ∃ s',
    split_data keep keep 6 mixed_listing 0 {[ "a" := 1 ]} ∅ ∅ mixed_dublicates 2
    = Done s' ∧
    Forall (λ sh, 1 ≤ length (shard_rows sh) ≤ 2)%nat (shards_written s').
Proof.
  split; [lia|].
  destruct (shards_cut_at_data_size (Columns := unit) keep keep 2 ltac:(lia))
    as (Hloop & _ & _ & Hrun & Hreturns).
  split.
  - destruct (Hloop 3%nat test three_buffered ltac:(simpl; lia))
      as (n & Hn & Hflush & _).
    exists n. split; [exact Hn|exact Hflush].
  - destruct (Hreturns 6%nat mixed_listing 0 {[ "a" := 1 ]} ∅ ∅ mixed_dublicates
                (mixed_listing_room 0) ltac:(vm_compute; lia)) as [s' Hs'].
    exists s'. split; [exact Hs'|]. exact (proj1 (Hrun _ _ _ _ _ _ _ _ Hs')).
Defined.

Lemma duplicate_rows_by_label_witness :
  ∃ s1,
    row_step keep keep "_mp_epoch_0.pkl" mixed_dublicates
      (initial_state 0 (Split ∅ ∅ ∅), Split [] [] []) (1, row "b")
    = (s1, Split [] [] []) ∧
    words s1 = Split ∅ ∅ ∅ ∧ logged s1 = 1%nat.
Proof.
  refine (proj2 (proj1 (proj2 (duplicate_rows_by_label keep keep
                                 mixed_dublicates))
                   "_mp_epoch_0.pkl" (initial_state 0 (Split ∅ ∅ ∅))
                   (Split [] [] []) (1, row "b")) _).
  intros [_ Hnot]. apply Hnot. by left.
Defined.

Lemma split_data_streams_witness :
  ∃ s',
    split_data keep keep 6 mixed_listing 0 {[ "a" := 1 ]} ∅ ∅ mixed_dublicates 2
    = Done s' ∧
    ∀ k, disk_rows k s'
         = sel k (assign (Split {[ "a" := 1 ]} ∅ ∅)
                    (mjoin (assigned_of keep keep mixed_dublicates
                              <$> loaded_by mixed_listing 0))).2.
Proof.
  destruct (run_total keep keep 6 mixed_listing 0 {[ "a" := 1 ]} ∅ ∅
              mixed_dublicates 2 ltac:(lia) (mixed_listing_room 0)
              ltac:(vm_compute; lia)) as [s' Hrun].
  exists s'. split; [exact Hrun|]. intros k.
  exact (proj1 (proj2 (split_data_streams keep keep 6 mixed_listing 0
                         {[ "a" := 1 ]} ∅ ∅ mixed_dublicates 2 s'
                         ltac:(lia) Hrun) k)).
Defined.

Lemma quotas_are_not_overdrawn_witness :
  ∃ s',
    split_data keep keep 6 mixed_listing 0 {[ "a" := 1 ]} ∅ ∅ mixed_dublicates 2
    = Done s' ∧
    occurrences "a" (disk_rows test s') ≤ 1.
Proof.
  destruct (run_total keep keep 6 mixed_listing 0 {[ "a" := 1 ]} ∅ ∅
              mixed_dublicates 2 ltac:(lia) (mixed_listing_room 0)
              ltac:(vm_compute; lia)) as [s' Hrun].
  exists s'. split; [exact Hrun|].
  refine (proj2 (proj1 (proj2 (quotas_are_not_overdrawn keep keep 6
                                 mixed_listing 0 {[ "a" := 1 ]} ∅ ∅
                                 mixed_dublicates 2 s' ltac:(lia) Hrun "a"))
                   _)).
  by vm_compute.
Defined.

Lemma subsets_keep_source_order_witness :
  ∃ s',
    split_data keep keep 6 mixed_listing 0 {[ "a" := 1 ]} ∅ ∅ mixed_dublicates 2
    = Done s' ∧
    disk_rows training s'
      `sublist_of` mjoin (assigned_of keep keep mixed_dublicates
                            <$> loaded_by mixed_listing 0).
Proof.
  destruct (run_total keep keep 6 mixed_listing 0 {[ "a" := 1 ]} ∅ ∅
              mixed_dublicates 2 ltac:(lia) (mixed_listing_room 0)
              ltac:(vm_compute; lia)) as [s' Hrun].
  exists s'. split; [exact Hrun|].
  exact (subsets_keep_source_order keep keep 6 mixed_listing 0 {[ "a" := 1 ]}
           ∅ ∅ mixed_dublicates 2 s' training ltac:(lia) Hrun).
Defined.

Lemma subsets_fill_in_order_witness :
  ∃ s',
    split_data keep keep 6 mixed_listing 0 {[ "a" := 1 ]} ∅ ∅ mixed_dublicates 2
    = Done s' ∧
    occurrences "a" (disk_rows test s')
    = Z.min (occurrences "a"
               (mjoin (assigned_of keep keep mixed_dublicates
                         <$> loaded_by mixed_listing 0)))
            (Counter.get {[ "a" := 1 ]} "a").
Proof.
  destruct (run_total keep keep 6 mixed_listing 0 {[ "a" := 1 ]} ∅ ∅
              mixed_dublicates 2 ltac:(lia) (mixed_listing_room 0)
              ltac:(vm_compute; lia)) as [s' Hrun].
  exists s'. split; [exact Hrun|].
  refine (proj1 (subsets_fill_in_order keep keep 6 mixed_listing 0
                   {[ "a" := 1 ]} ∅ ∅ mixed_dublicates 2 s' "a"
                   ltac:(lia) Hrun _ _)); by vm_compute.
Defined.

Lemma counted_listing_room skip : Forall room (loaded_by [three_rows "0"] skip).
Proof.
  apply Forall_forall. intros file Hin%loaded_by_listed.
  repeat (apply elem_of_cons in Hin as [->|Hin]);
    [by vm_compute..|by apply not_elem_of_nil in Hin].
Qed.

Lemma split_realizes_quotas_witness :
  ∃ qs s',
    split_words {[ "a" := 2; "b" := 1 ]} [] [] = Some qs ∧
    split_data keep keep 3 [three_rows "0"] 0
      (on_test qs) (on_validation qs) (on_training qs) [] 2 = Done s' ∧
    ∀ k, occurrences "a" (disk_rows k s') = Counter.get (sel k qs) "a" ∧
         Counter.get (sel k (words s')) "a" = 0.
Proof.
  destruct (split_words {[ "a" := 2; "b" := 1 ]} [] []) as [qs|] eqn:Hqs;
    [|by vm_compute in Hqs].
  destruct (run_total keep keep 3 [three_rows "0"] 0
              (on_test qs) (on_validation qs) (on_training qs) [] 2
              ltac:(lia) (counted_listing_room 0) ltac:(vm_compute; lia))
    as [s' Hrun].
  exists qs, s'. split; [reflexivity|]. split; [exact Hrun|].
  apply (split_realizes_quotas keep keep 3 [three_rows "0"] 0
           {[ "a" := 2; "b" := 1 ]} [] [] qs [] 2 s' "a" 2);
    [lia|exact Hqs|by vm_compute|lia|exact Hrun|by vm_compute].
Defined.

Lemma skip_index_resumes_witness :
  split_data keep keep 6 mixed_listing 1 ∅ ∅ ∅ [] 2
  = split_data keep keep 6
      (drop 1 (filter (λ file, is_source_shard file = true) mixed_listing))
      0 ∅ ∅ ∅ [] 2.
Proof.
  refine (proj1 (skip_index_resumes keep keep 6 mixed_listing 1 ∅ ∅ ∅ [] 2) _).
  by vm_compute.
Defined.

Lemma zero_data_size_witness :
  split_data keep keep 7 mixed_listing 0 ∅ ∅ ∅ [] 0 = OutOfFuel.
Proof.
  refine (proj1 (zero_data_size keep keep 7 mixed_listing 0 ∅ ∅ ∅ [])
            (three_rows "0") (tail (loaded_by mixed_listing 0)) _ _ _).
  - reflexivity.
  - unfold room. by vm_compute.
  - by eexists.
Defined.

Lemma sampler_batches_partition_witness :
  ∃ batches,
    iter stable_argsort [5; 1; 3]%nat 2 false = Ok batches ∧
    mjoin batches ≡ₚ seq 0 3.
Proof.
  destruct (sampler_batches_partition stable_argsort [5; 1; 3]%nat 2
              stable_argsort_is_argsort ltac:(lia))
    as (batches & Hiter & _ & Hperm & _).
  exists batches. split; [exact Hiter|exact Hperm].
Defined.

Lemma sampler_len_counts_batches_witness :
  len [5; 1; 3]%nat 2 false = Ok 2.
Proof.
  apply (sampler_len_counts_batches stable_argsort [5; 1; 3]%nat 2 false
           [[1; 2]; [0]]%nat stable_argsort_is_argsort ltac:(lia)).
  vm_compute. reflexivity.
Defined.

Lemma sampler_drop_last_full_batches_witness :
  Forall (λ b, length b = 2%nat) [[1; 2]]%nat ∧
  mjoin [[1; 2]]%nat = take 2 (stable_argsort [5; 1; 3]%nat).
Proof.
  apply (sampler_drop_last_full_batches stable_argsort [5; 1; 3]%nat 2
           [[1; 2]]%nat stable_argsort_is_argsort ltac:(lia)).
  vm_compute. reflexivity.
Defined.

Lemma sampler_batches_ascending_witness :
  StronglySorted (λ i j, size_at [5; 1; 3] i ≤ size_at [5; 1; 3] j)%nat
                 (mjoin [[1; 2]; [0]]%nat).
Proof.
  refine (proj1 (sampler_batches_ascending stable_argsort [5; 1; 3]%nat 2 false
                   [[1; 2]; [0]]%nat stable_argsort_is_argsort ltac:(lia) _)).
  vm_compute. reflexivity.
Defined.

Lemma sampler_nonpositive_batch_size_witness :
  iter stable_argsort [5; 1; 3]%nat (-2) false = Ok [] ∧
  iter stable_argsort [5; 1; 3]%nat (-2) true = Error IndexError ∧
  ∃ z : Z, len [5; 1; 3]%nat (-2) false = Ok z.
Proof.
  refine (proj2 (sampler_nonpositive_batch_size stable_argsort [5; 1; 3]%nat
                   (-2) false ltac:(lia)) ltac:(lia)).
Defined.

Lemma pad_tensor_result_witness :
  length [1; 2; 2; 2]%nat = 4%nat ∧
  length [true; true; false; false] = 4%nat ∧
  take (length [1; 2]%nat) [1; 2; 2; 2]%nat = [1; 2]%nat.
Proof.
  destruct (pad_tensor_result [1; 2]%nat 4 [1; 2; 2; 2]%nat
              [true; true; false; false] eq_refl)
    as (Hp & Hm & Htake & _).
  split; [exact Hp|]. split; [exact Hm|exact Htake].
Defined.

Lemma dataloader_batches_witness :
  ∃ batches out,
    iter stable_argsort
         (sizes_of (cp_norm (from_frame [sample 3; sample 2; sample 5])))
         2 false = Ok batches ∧
    dataloader stable_argsort (from_frame [sample 3; sample 2; sample 5]) 2
      = Ok out ∧
    mjoin batches ≡ₚ seq 0 3.
Proof.
  destruct (dataloader_batches stable_argsort [sample 3; sample 2; sample 5] 2
              stable_argsort_is_argsort ltac:(lia))
    as (batches & out & Hiter & Hload & Hperm & _).
  - intros s Hin.
    repeat (apply elem_of_cons in Hin as [->|Hin]);
      [by vm_compute; lia..|by apply not_elem_of_nil in Hin].
  - exists batches, out. split; [exact Hiter|]. split; [exact Hload|exact Hperm].
Defined.

Lemma training_schedule_witness :
  ∃ trace,
    train_whole_dataset reversing shard_directory 3 1 1 2 = Ok trace ∧
    trained_in 0 trace = ["training_data_de_0.pkl"] ∧
    (Save 0%nat 1 ∈ trace) ∧ (Save 2%nat 0 ∈ trace).
Proof.
  destruct (proj2 (proj2 (training_schedule reversing shard_directory 3 1 1 2
                            (λ _ l, reverse_Permutation l)))
              ltac:(lia) ltac:(lia))
    as (trace & Hrun & H0 & _ & _ & Hsave & _).
  exists trace. split; [exact Hrun|]. split; [exact (H0 ltac:(lia))|].
  split; apply Hsave; (split; [lia|split; [by left|done]]).
Defined.

End FurtherExamples.
